(** * postgraphile-plugin-json-patch: the @patch smart tag

    A shallow embedding of the three TypeScript sources of the plugin and
    the properties of its specification:

    - [ReplaceTypeWithPatchPlugin] (src/ReplaceTypeWithPatchPlugin.ts), the
      schema hook that gives an annotated input field the patch type of a
      table;
    - [Precomputed] (the ResolvePatchFieldsPlugin that first builds
      [patchMap] and then rewrites the arguments in place);
    - [PerCall] (the ResolvePatchFieldsPlugin that looks the smart tags up
      during every call and builds a new argument object).

    A JavaScript object is the list of its own enumerable string-keyed
    properties in insertion order, an array the list of its items; what
    [in] finds on the prototype chain besides is given by the [Realm].  The
    ordering of integer-like keys is outside the model; the keys met here
    are GraphQL field names and column names.  A thrown error is [None].

    The precomputing plugin rewrites the arguments in place.  [InPlace] is
    that rewrite on a store of objects; [Precomputed.transform] is the same
    rewrite written as a function on value trees, which is what the store
    shows when no object occurs twice in the value ([in_place_transform]
    below); an object that occurs twice is rewritten twice, and only
    [InPlace] shows that.  Likewise [Precomputed.populatePatchMap] runs on
    the finite tree a type graph unfolds to, and [Precomputed.populate_in]
    on the graph itself, where a type that refers to itself is walked
    without end. *)

From Stdlib Require Import Ascii String DecimalString ZArith List Bool Lia.
From stdpp Require Import base option list gmap strings.

Open Scope Z_scope.

Set Warnings "-clear-no-such-hyp".

(** ** JavaScript values *)

Unset Elimination Schemes.
Inductive JsValue : Type :=
  | JUndefined
  | JNull
  | JBool (b : bool)
  | JNum (n : Z)
  | JStr (s : string)
  | JArr (items : list JsValue)
  | JObj (props : list (string * JsValue)).
Set Elimination Schemes.

Definition Array_isArray (v : JsValue) : bool :=
  match v with JArr _ => true | _ => false end.

(** [String(i)] for an array index. *)
Definition index_key (i : nat) : string :=
  NilEmpty.string_of_uint (Nat.to_uint i).

Definition indexed {A} (items : list A) : list (string * A) :=
  imap (λ i x, (index_key i, x)) items.

Definition chars (s : string) : list JsValue :=
  (λ c, JStr (String c EmptyString)) <$> list_ascii_of_string s.

(** [Object.entries(v)]: throws on [null] and [undefined], is empty on
    numbers and booleans, and lists the indexed items of strings and
    arrays. *)
Definition Object_entries (v : JsValue) : option (list (string * JsValue)) :=
  match v with
  | JUndefined | JNull => None
  | JBool _ | JNum _ => Some []
  | JStr s => Some (indexed (chars s))
  | JArr items => Some (indexed items)
  | JObj props => Some props
  end.

(** First binding of a key: the property read [o[k]] on a property list. *)
Fixpoint assoc {A} (k : string) (o : list (string * A)) : option A :=
  match o with
  | [] => None
  | (k', x) :: rest => if String.eqb k' k then Some x else assoc k rest
  end.

Definition has_key {A} (k : string) (o : list (string * A)) : bool :=
  match assoc k o with Some _ => true | None => false end.

(** [o[k] = x] on an object, and [{...o, [k]: x}] on an object built by the
    code itself: an existing key keeps its place, a new key goes last. *)
Fixpoint obj_set {A} (k : string) (x : A) (o : list (string * A))
  : list (string * A) :=
  match o with
  | [] => [(k, x)]
  | (k', y) :: rest =>
      if String.eqb k' k then (k, x) :: rest else (k', y) :: obj_set k x rest
  end.

(** [{...o, ...extra}] *)
Definition obj_spread {A} (o extra : list (string * A)) : list (string * A) :=
  foldl (λ acc kv, obj_set kv.1 kv.2 acc) o extra.

(** *** Inherited properties

    [in] and a property read follow the prototype chain.  The realm lists
    the names every object inherits from [Object.prototype] ([constructor],
    [toString], ...; none for objects made by [Object.create(null)]) and
    those an array inherits from [Array.prototype] besides. *)
Record Realm := {
  Object_prototype : list string;
  Array_prototype : list string
}.

(** What is read under an inherited name is a built-in function (or, under
    [__proto__], the prototype itself).  The rewrite only copies such a
    value; it stands here as an object without enumerable property, which
    is what [Object.entries] and [Array.isArray] make of it. *)
Definition builtin : JsValue := JObj [].

Definition inherited (names : list string) : list (string * JsValue) :=
  (λ k, (k, builtin)) <$> names.

(** The properties that [in] finds on an object, its own first. *)
Definition properties (R : Realm) (props : list (string * JsValue))
  : list (string * JsValue) :=
  props ++ inherited (Object_prototype R).

(** The same for an array, [length] apart. *)
Definition array_properties (R : Realm) (items : list JsValue)
  : list (string * JsValue) :=
  indexed items ++ inherited (Array_prototype R ++ Object_prototype R).

(** [k in v]: a TypeError unless [v] is an object (or an array). *)
Definition js_in (R : Realm) (k : string) (v : JsValue) : option bool :=
  match v with
  | JObj props => Some (has_key k (properties R props))
  | JArr items =>
      Some (String.eqb k "length" || has_key k (array_properties R items))
  | _ => None
  end.

(** [v[k]], read after [k in v] held. *)
Definition js_get (R : Realm) (v : JsValue) (k : string) : JsValue :=
  match v with
  | JObj props => default JUndefined (assoc k (properties R props))
  | JArr items =>
      if String.eqb k "length" then JNum (Z.of_nat (length items))
      else default JUndefined (assoc k (array_properties R items))
  | _ => JUndefined
  end.

(** [s.split(c)] for a one-character separator: never empty. *)
Fixpoint split (c : ascii) (s : string) : list string :=
  match s with
  | EmptyString => [EmptyString]
  | String a rest =>
      if Ascii.eqb a c then EmptyString :: split c rest
      else match split c rest with
           | piece :: pieces => String a piece :: pieces
           | [] => [String a EmptyString]
           end
  end.

(** [arr.reduce(f, init)] for a callback that can throw. *)
Definition reduce {A B} (f : B → A → option B) : B → list A → option B :=
  fix go init l :=
    match l with
    | [] => Some init
    | x :: rest => acc ← f init x; go acc rest
    end.

(** ** GraphQL types *)

Inductive ObjKind := KInputObject | KObject | KInterface.

Global Instance ObjKind_eq_dec : EqDecision ObjKind.
Proof. solve_decision. Defined.

Unset Elimination Schemes.
(** The types reachable from a mutation's [input] argument, as the finite
    tree that the input of a procedure is; [field.type] is the subtree.
    [GFields] covers the three kinds that have [getFields()]; [GLeaf] is
    any other named type (scalar, enum). *)
Inductive GqlType : Type :=
  | GList (ofType : GqlType)
  | GNonNull (ofType : GqlType)
  | GFields (kind : ObjKind) (name : string) (fields : list (string * GqlType))
  | GLeaf (name : string).
Set Elimination Schemes.

Definition isInputObjectType (k : ObjKind) : bool :=
  match k with KInputObject => true | _ => false end.

(** [fields[arg]] followed by a use of its [.type]: [k] runs on the type of
    the first field named [arg], [d] stands for the dereference of
    [undefined]. *)
Definition with_field {A} (arg : string) (k : GqlType → A) (d : A)
  : list (string * GqlType) → A :=
  fix go fields :=
    match fields with
    | [] => d
    | (n, ft) :: rest => if String.eqb n arg then k ft else go rest
    end.

(** *** Type graphs

    The named types of a schema refer to the types of their fields, and a
    field may refer back to the type that declares it.  A [Schema] gives,
    for the name of a type, what [getFields()] returns; [GqlType] is what
    such a graph unfolds to from one type, when that is finite. *)
Inductive TypeRef : Type :=
  | RList (ofType : TypeRef)
  | RNonNull (ofType : TypeRef)
  | RNamed (name : string).

Inductive TypeDef : Type :=
  | DFields (kind : ObjKind) (fields : list (string * TypeRef))
  | DLeaf.

Definition Schema := string → TypeDef.

(** The tree below [t], when it is reached within [depth] nested steps. *)
Fixpoint unfold_type (schema : Schema) (depth : nat) (t : TypeRef)
  : option GqlType :=
  match depth with
  | O => None
  | S depth =>
      match t with
      | RList ofType => GList <$> unfold_type schema depth ofType
      | RNonNull ofType => GNonNull <$> unfold_type schema depth ofType
      | RNamed name =>
          match schema name with
          | DFields kind fields =>
              GFields kind name
                <$> mapM (λ f, pair f.1 <$> unfold_type schema depth f.2)
                         fields
          | DLeaf => Some (GLeaf name)
          end
      end
  end.

(** The named type under the wrappers of a reference. *)
Fixpoint named_of (t : TypeRef) : string :=
  match t with
  | RList ofType | RNonNull ofType => named_of ofType
  | RNamed name => name
  end.

(** [a] declares a field whose type is [b], wrapped or not. *)
Definition refers (schema : Schema) (a b : string) : Prop :=
  match schema a with
  | DFields _ fields => b ∈ (λ f, named_of f.2) <$> fields
  | DLeaf => False
  end.

(** ** Introspection results, smart tags, inflection *)

(** The value of the [patch] smart tag: [true] for a bare [@patch], a
    string for one tag, an array of strings for a repeated tag (the hook
    declares [patchTags: string | string[]]). *)
Inductive SmartTag :=
  | TagTrue
  | TagString (s : string)
  | TagArray (l : list string).

Record PgAttribute := {
  attr_name : string;
  attr_tags_name : option string
}.

Record PgClass := {
  class_namespaceName : option string;
  class_name : string;
  attributes : list PgAttribute
}.

Record PgProc := {
  proc_name : string;
  proc_tags_patch : option SmartTag
}.

Record PgType := {
  type_name : string;
  type_tags_patch : option SmartTag
}.

Record Introspection := {
  procedure : list PgProc;
  type : list PgType;
  class : list PgClass
}.

(** The inflectors the plugin calls.  [tableType] receives the result of
    the table search, which is [undefined] ([None]) when no table matches;
    what it does then is the inflector's business, so it may throw. *)
Record Inflection := {
  functionInputType : PgProc → string;
  inputType : string → string;
  domainType : PgType → string;
  argument : string → string;
  column : PgAttribute → string;
  tableType : option PgClass → option string;
  patchType : string → string
}.

(** What the plugins read of [build], together with the realm the build
    runs in. *)
Record Build := {
  inflection : Inflection;
  pgIntrospectionResultsByKind : Introspection;
  getTypeByName : string → option GqlType;
  realm : Realm
}.

(** JavaScript truthiness of [x?.tags?.patch]. *)
Definition truthy (t : option SmartTag) : bool :=
  match t with
  | None => false
  | Some (TagString EmptyString) => false
  | Some _ => true
  end.

(** [a || b] *)
Definition js_or (a b : option SmartTag) : option SmartTag :=
  if truthy a then a else b.

(** [Array.isArray(patchTags) ? patchTags : [patchTags]], once [patchTags]
    is known to be a string or an array. *)
Inductive TagItem := ItemTrue | ItemString (s : string).

Definition tag_items (t : SmartTag) : list TagItem :=
  match t with
  | TagTrue => [ItemTrue]
  | TagString s => [ItemString s]
  | TagArray l => ItemString <$> l
  end.

Section Tags.
Context (build : Build).

Let infl := inflection build.
Let intro := pgIntrospectionResultsByKind build.

(** [pgIntrospectionResultsByKind.class.find(t => t.namespace?.name ===
    tableNamespace && t.name === tableName)]; [tableName] is [undefined]
    when the identifier has no dot. *)
Definition find_table (tableNamespace : string) (tableName : option string)
  : option PgClass :=
  find (λ t,
          match class_namespaceName t with
          | Some ns => String.eqb ns tableNamespace
          | None => false
          end
          && match tableName with
             | Some n => String.eqb (class_name t) n
             | None => false
             end)
       (class intro).

(** The body shared by the three [forEach]/[map] callbacks:
    [[arg, tableId] = fieldAndTable.split(' ')],
    [[tableNamespace, tableName] = tableId.split('.')], then the table
    search.  [.split] on [true] or on an [undefined] [tableId] throws. *)
Definition parse_tag (fieldAndTable : TagItem)
  : option (string * option PgClass) :=
  match fieldAndTable with
  | ItemTrue => None
  | ItemString s =>
      match split " " s with
      | arg :: tableId :: _ =>
          match split "." tableId with
          | tableNamespace :: rest =>
              Some (arg, find_table tableNamespace (head rest))
          | [] => None
          end
      | _ => None
      end
  end.

(** [procedure.find(proc => inflection.functionInputType(proc) ===
    name)?.tags?.patch] *)
Definition proc_patch_tags (name : string) : option SmartTag :=
  p ← find (λ proc, String.eqb (functionInputType infl proc) name)
           (procedure intro);
  proc_tags_patch p.

(** [type.find(t => inflection.inputType(inflection.domainType(t)) ===
    name)?.tags?.patch] *)
Definition type_patch_tags (name : string) : option SmartTag :=
  t ← find (λ compositeType,
              String.eqb (inputType infl (domainType infl compositeType))
                         name)
           (type intro);
  type_tags_patch t.

(** The [patchTags] of both resolver plugins. *)
Definition patchTags_of (name : string) : option SmartTag :=
  js_or (proc_patch_tags name) (type_patch_tags name).

(** [typeof patchTags === 'string' || typeof patchTags === 'object'] *)
Definition string_or_object (t : SmartTag) : bool :=
  match t with TagTrue => false | _ => true end.
End Tags.

(** ** The schema hook (src/ReplaceTypeWithPatchPlugin.ts) *)

(** An entry of an input object's field list. *)
Record FieldSpec := {
  field_type : option GqlType;
  field_description : option string
}.

(** What the hook reads of its [context]: [scope.isMutationInput],
    [scope.pgIntrospection?.type?.tags?.patch] and
    [GraphQLInputObjectType.name]. *)
Record HookContext := {
  isMutationInput : bool;
  pgIntrospection_type_tags_patch : option SmartTag;
  GraphQLInputObjectType_name : string
}.

Section Replace.
Context (build : Build).

Let infl := inflection build.

(** The [.map] callback: the inflected argument name and the name of the
    table's patch type. *)
Definition patch_pair (fieldAndTable : TagItem) : option (string * string) :=
  '(arg, table) ← parse_tag build fieldAndTable;
  tableTypeName ← tableType infl table;
  Some (argument infl arg, patchType infl tableTypeName).

(** The [.reduce] callback: [{...res, [mutationArg]: {type:
    getTypeByName(patchType)}}]. *)
Definition add_patch_field (res : list (string * FieldSpec))
    (pair : string * string) : list (string * FieldSpec) :=
  obj_set pair.1
          {| field_type := getTypeByName build pair.2;
             field_description := None |}
          res.

(** [patchTags] of the hook: the tag of the procedure whose input type
    this is when the type is a mutation input, else (or when that is
    falsy) the tag of the composite type in scope. *)
Definition hook_patchTags (context : HookContext) : option SmartTag :=
  js_or (if isMutationInput context
         then proc_patch_tags build (GraphQLInputObjectType_name context)
         else None)
        (pgIntrospection_type_tags_patch context).

Definition ReplaceTypeWithPatchPlugin
    (inputFields : list (string * FieldSpec)) (context : HookContext)
  : option (list (string * FieldSpec)) :=
  let patchTags := hook_patchTags context in
  match patchTags with
  | Some tags =>
      if truthy patchTags && string_or_object tags then
        pairs ← mapM patch_pair (tag_items tags);
        let patchFields := foldl add_patch_field [] pairs in
        Some (obj_spread inputFields patchFields)
      else Some inputFields
  | None => Some inputFields
  end.
End Replace.

(** ** The resolver wrappers *)

(** [getKey] of the precomputing plugin. *)
Definition getKey (type arg : string) : string := type +:+ "|" +:+ arg.

(** What the filters read of [scope] and [field]: [scope.isRootMutation],
    [scope.pgFieldIntrospection?.kind], and the type of [field.args.input]
    when the field declares that argument. *)
Record Scope := {
  isRootMutation : bool;
  pgFieldIntrospection_kind : option string
}.

Record Field := {
  args_input : option GqlType
}.

Definition procedure_mutation (scope : Scope) : bool :=
  isRootMutation scope
  && match pgFieldIntrospection_kind scope with
     | Some k => String.eqb k "procedure"
     | None => false
     end.

(** [args.input] *)
Definition args_input_value (args : list (string * JsValue)) : JsValue :=
  default JUndefined (assoc "input" args).

Section NewJson.
Context (build : Build).

(** The [attributes.reduce] callback, the same in both resolver plugins. *)
Definition add_column (val : JsValue) (obj : list (string * JsValue))
    (attr : PgAttribute) : option (list (string * JsValue)) :=
  let fieldName := column (inflection build) attr in
  present ← js_in (realm build) fieldName val;
  Some (if present : bool
        then obj_set (attr_name attr) (js_get (realm build) val fieldName) obj
        else obj).

(** [newJson]: [table] is what the map holds for the key; reading
    [.attributes] of [undefined] throws. *)
Definition newJson (table : option PgClass) (val : JsValue)
  : option JsValue :=
  t ← table;
  JObj <$> reduce (add_column val) [] (attributes t).
End NewJson.

(** ** ResolvePatchFieldsPlugin with a precomputed [patchMap] *)

Module Precomputed.
Section WithBuild.
Context (build : Build).

Let infl := inflection build.

(** The [forEach] callback that fills [patchMap]. *)
Definition store_tag (name : string) (patchMap : gmap string (option PgClass))
    (fieldAndTable : TagItem) : option (gmap string (option PgClass)) :=
  '(arg, table) ← parse_tag build fieldAndTable;
  Some (<[getKey name (argument infl arg) := table]> patchMap).

(** The [if (isInputObjectType(type))] block of [populatePatchMap]. *)
Definition store_patch_tags (name : string)
    (patchMap : gmap string (option PgClass))
  : option (gmap string (option PgClass)) :=
  let patchTags := patchTags_of build name in
  match patchTags with
  | Some tags =>
      if truthy patchTags && string_or_object tags
      then reduce (store_tag name) patchMap (tag_items tags)
      else Some patchMap
  | None => Some patchMap
  end.

(** [populatePatchMap] on the tree the type graph unfolds to, the map being
    passed along; [populate_in] below runs on the graph. *)
Fixpoint populatePatchMap (type : GqlType)
    (patchMap : gmap string (option PgClass))
  : option (gmap string (option PgClass)) :=
  match type with
  | GList ofType | GNonNull ofType => populatePatchMap ofType patchMap
  | GFields kind name fields =>
      stored ← (if isInputObjectType kind
                then store_patch_tags name patchMap
                else Some patchMap);
      reduce (λ pm field, populatePatchMap field.2 pm) stored fields
  | GLeaf _ => Some patchMap
  end.

(** [populatePatchMap] on the type objects of a schema, as the code runs
    it: it follows [getFields()] and keeps no record of the types it has
    visited.  [depth] bounds the nesting of the calls; running out of it
    is the RangeError of an exhausted call stack.  On a graph that unfolds
    to a tree within [depth] this is [populatePatchMap] on that tree
    ([populate_in_unfold] below). *)
Fixpoint populate_in (schema : Schema) (depth : nat) (type : TypeRef)
    (patchMap : gmap string (option PgClass))
  : option (gmap string (option PgClass)) :=
  match depth with
  | O => None
  | S depth =>
      match type with
      | RList ofType | RNonNull ofType =>
          populate_in schema depth ofType patchMap
      | RNamed name =>
          match schema name with
          | DFields kind fields =>
              stored ← (if isInputObjectType kind
                        then store_patch_tags name patchMap
                        else Some patchMap);
              reduce (λ pm field, populate_in schema depth field.2 pm)
                     stored fields
          | DLeaf => Some patchMap
          end
      end
  end.

(** [argValues[arg] = newJson] in strict mode: only an object takes the
    assignment (an array is excluded by the guard of the branch). *)
Definition assign (argValues : JsValue) (arg : string) (x : JsValue)
  : option JsValue :=
  match argValues with
  | JObj props => Some (JObj (obj_set arg x props))
  | _ => None
  end.

(** The state of [argValues] after the value under [arg] was transformed
    in place: visible in an object, while the characters of a string are
    immutable values. *)
Definition child_transformed (argValues : JsValue) (arg : string)
    (x : JsValue) : JsValue :=
  match argValues with
  | JObj props => JObj (obj_set arg x props)
  | _ => argValues
  end.

(** The callback of [Object.entries(argValues).forEach]; [recurse] is
    [transform] itself. *)
Definition transform_entry (patchMap : gmap string (option PgClass))
    (name : string) (fields : list (string * GqlType))
    (recurse : GqlType → JsValue → option JsValue)
    (argValues : JsValue) (entry : string * JsValue) : option JsValue :=
  let '(arg, val) := entry in
  match patchMap !! getKey name arg with
  | Some table =>
      json ← newJson build table val;
      assign argValues arg json
  | None =>
      val' ← with_field arg (λ ft, recurse ft val) None fields;
      Some (child_transformed argValues arg val')
  end.

(** [transform] on a value tree, returning the state of [argValues] when
    it returns.  The code rewrites the objects of [argValues] in place:
    this function is that rewrite for a value no object of which occurs
    twice; [InPlace.transform] below is the rewrite on a store, where an
    object can be shared. *)
Fixpoint transform (patchMap : gmap string (option PgClass))
    (type : GqlType) (argValues : JsValue) : option JsValue :=
  match type with
  | GList ofType =>
      match argValues with
      | JArr items => JArr <$> mapM (transform patchMap ofType) items
      | _ => Some argValues
      end
  | GNonNull ofType => transform patchMap ofType argValues
  | GFields _ name fields =>
      if Array_isArray argValues then Some argValues
      else
        entries ← Object_entries argValues;
        reduce (transform_entry patchMap name fields (transform patchMap))
               argValues entries
  | GLeaf _ => Some argValues
  end.

(** The filter of [makeWrapResolversPlugin]: [Some None] is [null] (the
    field keeps its resolver), [Some (Some patchMap)] wraps it, [None] is
    a throw while the schema is built. *)
Definition filter (scope : Scope) (field : Field)
  : option (option (gmap string (option PgClass))) :=
  if procedure_mutation scope then
    match args_input field with
    | Some inputType =>
        patchMap ← populatePatchMap inputType ∅;
        Some (if (0 <? size patchMap)%nat then Some patchMap else None)
    | None => Some None
    end
  else Some None.

(** The wrapping resolver: the [args] that [resolve] receives.  [args] is
    the object it was given, with [args.input] transformed in place. *)
Definition resolver (patchMap : gmap string (option PgClass))
    (field : Field) (args : list (string * JsValue))
  : option (list (string * JsValue)) :=
  inputType ← args_input field;
  input ← transform patchMap inputType (args_input_value args);
  Some (if has_key "input" args then obj_set "input" input args else args).

(** The arguments that reach the resolver of the field once the plugin is
    installed. *)
Definition ResolvePatchFieldsPlugin (scope : Scope) (field : Field)
    (args : list (string * JsValue)) : option (list (string * JsValue)) :=
  match filter scope field with
  | None => None
  | Some None => Some args
  | Some (Some patchMap) => resolver patchMap field args
  end.
End WithBuild.
End Precomputed.

(** ** ResolvePatchFieldsPlugin without precomputation *)

Module PerCall.
Section WithBuild.
Context (build : Build).

Let infl := inflection build.

(** The [forEach] callback that fills [patchArgAndTableMap]. *)
Definition store_tag (m : gmap string (option PgClass))
    (fieldAndTable : TagItem) : option (gmap string (option PgClass)) :=
  '(arg, table) ← parse_tag build fieldAndTable;
  Some (<[argument infl arg := table]> m).

(** [patchArgAndTableMap] of one visited type. *)
Definition patchArgAndTableMap (kind : ObjKind) (name : string)
  : option (gmap string (option PgClass)) :=
  if isInputObjectType kind then
    let patchTags := patchTags_of build name in
    match patchTags with
    | Some tags =>
        if truthy patchTags then reduce store_tag ∅ (tag_items tags)
        else Some ∅
    | None => Some ∅
    end
  else Some ∅.

(** The callback of [Object.entries(nestedArgs).reduce]; [recurse] is
    [transform] itself. *)
Definition transform_entry
    (patchArgAndTableMap : gmap string (option PgClass))
    (fields : list (string * GqlType))
    (recurse : GqlType → JsValue → option JsValue)
    (res : list (string * JsValue)) (entry : string * JsValue)
  : option (list (string * JsValue)) :=
  let '(arg, val) := entry in
  match patchArgAndTableMap !! arg with
  | Some table =>
      json ← newJson build table val;
      Some (obj_set arg json res)
  | None =>
      val' ← with_field arg (λ ft, recurse ft val) None fields;
      Some (obj_set arg val' res)
  end.

Fixpoint transform (type : GqlType) (nestedArgs : JsValue)
  : option JsValue :=
  match type with
  | GList ofType =>
      match nestedArgs with
      | JArr items => JArr <$> mapM (transform ofType) items
      | _ => Some nestedArgs
      end
  | GNonNull ofType => transform ofType nestedArgs
  | GFields kind name fields =>
      patchArgAndTableMap ← patchArgAndTableMap kind name;
      entries ← Object_entries nestedArgs;
      JObj <$> reduce (transform_entry patchArgAndTableMap fields transform)
                      [] entries
  | GLeaf _ => Some nestedArgs
  end.

(** The filter: every procedure-based root mutation is wrapped. *)
Definition filter (scope : Scope) : bool := procedure_mutation scope.

(** The wrapping resolver: the [args] that [resolve] receives. *)
Definition resolver (field : Field) (args : list (string * JsValue))
  : option (list (string * JsValue)) :=
  match args_input field with
  | Some inputType =>
      input ← transform inputType (args_input_value args);
      Some [("input", input)]
  | None => Some args
  end.

Definition ResolvePatchFieldsPlugin (scope : Scope) (field : Field)
    (args : list (string * JsValue)) : option (list (string * JsValue)) :=
  if filter scope then resolver field args else Some args.
End WithBuild.
End PerCall.

(** ** ResolvePatchFieldsPlugin with a precomputed [patchMap], in place

    [args] is an object of the JavaScript heap and the [transform] of the
    precomputing plugin assigns to the objects it walks.  Here a value is a
    primitive or the address of an object or array of a store; an object
    that occurs twice in [args] is one cell of the store, and the second
    visit finds what the first one left. *)

Module InPlace.

Inductive Val :=
  | VUndefined
  | VNull
  | VBool (b : bool)
  | VNum (n : Z)
  | VStr (s : string)
  | VRef (l : nat)
  | VBuiltin.

Inductive Cell :=
  | CArr (items : list Val)
  | CObj (props : list (string * Val)).

(** The store: an address is an index, a new object goes last. *)
Abbreviation Heap := (list Cell).

Definition Array_isArray (h : Heap) (v : Val) : bool :=
  match v with
  | VRef l => match h !! l with Some (CArr _) => true | _ => false end
  | _ => false
  end.

Definition chars (s : string) : list Val :=
  (λ c, VStr (String c EmptyString)) <$> list_ascii_of_string s.

(** [Object.entries(v)], read off the store when it is called. *)
Definition Object_entries (h : Heap) (v : Val)
  : option (list (string * Val)) :=
  match v with
  | VUndefined | VNull => None
  | VBool _ | VNum _ | VBuiltin => Some []
  | VStr s => Some (indexed (chars s))
  | VRef l =>
      match h !! l with
      | Some (CArr items) => Some (indexed items)
      | Some (CObj props) => Some props
      | None => None
      end
  end.

Definition inherited (names : list string) : list (string * Val) :=
  (λ k, (k, VBuiltin)) <$> names.

Definition properties (R : Realm) (props : list (string * Val))
  : list (string * Val) :=
  props ++ inherited (Object_prototype R).

Definition array_properties (R : Realm) (items : list Val)
  : list (string * Val) :=
  indexed items ++ inherited (Array_prototype R ++ Object_prototype R).

(** [k in v] *)
Definition js_in (R : Realm) (h : Heap) (k : string) (v : Val)
  : option bool :=
  match v with
  | VRef l =>
      match h !! l with
      | Some (CObj props) => Some (has_key k (properties R props))
      | Some (CArr items) =>
          Some (String.eqb k "length" || has_key k (array_properties R items))
      | None => None
      end
  | VBuiltin => Some (has_key k (properties R []))
  | _ => None
  end.

(** [v[k]], read after [k in v] held. *)
Definition js_get (R : Realm) (h : Heap) (v : Val) (k : string) : Val :=
  match v with
  | VRef l =>
      match h !! l with
      | Some (CObj props) => default VUndefined (assoc k (properties R props))
      | Some (CArr items) =>
          if String.eqb k "length" then VNum (Z.of_nat (length items))
          else default VUndefined (assoc k (array_properties R items))
      | None => VUndefined
      end
  | VBuiltin => default VUndefined (assoc k (properties R []))
  | _ => VUndefined
  end.

(** [argValues[arg] = x]: [argValues] is an object when the branch that
    assigns is reached with an entry, or a string, whose characters cannot
    be assigned to. *)
Definition assign (argValues : Val) (arg : string) (x : Val) (h : Heap)
  : option Heap :=
  match argValues with
  | VRef l =>
      match h !! l with
      | Some (CObj props) => Some (<[l := CObj (obj_set arg x props)]> h)
      | _ => None
      end
  | _ => None
  end.

(** [args.input] *)
Definition args_input_value (h : Heap) (args : Val) : Val :=
  match args with
  | VRef l =>
      match h !! l with
      | Some (CObj props) => default VUndefined (assoc "input" props)
      | _ => VUndefined
      end
  | _ => VUndefined
  end.

Section WithBuild.
Context (build : Build).

(** The [attributes.reduce] callback; the values it copies are those of
    [val], addresses included. *)
Definition add_column (val : Val) (h : Heap) (obj : list (string * Val))
    (attr : PgAttribute) : option (list (string * Val)) :=
  let fieldName := column (inflection build) attr in
  present ← js_in (realm build) h fieldName val;
  Some (if present : bool
        then obj_set (attr_name attr) (js_get (realm build) h val fieldName)
                     obj
        else obj).

(** The properties of [newJson]. *)
Definition newJson (table : option PgClass) (val : Val) (h : Heap)
  : option (list (string * Val)) :=
  t ← table;
  reduce (add_column val h) [] (attributes t).

(** The callback of [Object.entries(argValues).forEach]: [newJson] is a
    new object of the store, which [argValues[arg]] is set to. *)
Definition transform_entry (patchMap : gmap string (option PgClass))
    (name : string) (fields : list (string * GqlType))
    (recurse : GqlType → Val → Heap → option Heap)
    (argValues : Val) (h : Heap) (entry : string * Val) : option Heap :=
  let '(arg, val) := entry in
  match patchMap !! getKey name arg with
  | Some table =>
      props ← newJson table val h;
      assign argValues arg (VRef (length h)) (h ++ [CObj props])
  | None => with_field arg (λ ft, recurse ft val h) None fields
  end.

(** [transform]: the store when it returns. *)
Fixpoint transform (patchMap : gmap string (option PgClass))
    (type : GqlType) (argValues : Val) (h : Heap) : option Heap :=
  match type with
  | GList ofType =>
      match argValues with
      | VRef l =>
          match h !! l with
          | Some (CArr items) =>
              reduce (λ h listItem, transform patchMap ofType listItem h)
                     h items
          | _ => Some h
          end
      | _ => Some h
      end
  | GNonNull ofType => transform patchMap ofType argValues h
  | GFields _ name fields =>
      if Array_isArray h argValues then Some h
      else
        entries ← Object_entries h argValues;
        reduce (transform_entry patchMap name fields (transform patchMap)
                                argValues)
               h entries
  | GLeaf _ => Some h
  end.

(** The wrapping resolver: [resolve] is called with [args] itself, in the
    store that [transform] leaves. *)
Definition resolver (patchMap : gmap string (option PgClass))
    (field : Field) (args : Val) (h : Heap) : option Heap :=
  inputType ← args_input field;
  transform patchMap inputType (args_input_value h args) h.

(** The store in which the resolver of the field is called with [args]
    once the plugin is installed. *)
Definition ResolvePatchFieldsPlugin (scope : Scope) (field : Field)
    (args : Val) (h : Heap) : option Heap :=
  match Precomputed.filter build scope field with
  | None => None
  | Some None => Some h
  | Some (Some patchMap) => resolver patchMap field args h
  end.
End WithBuild.

(** *** Stores and value trees *)

Definition cover_list {A B} (f : A → B → option (list nat))
  : list A → list B → option (list nat) :=
  fix go ts vs :=
    match ts, vs with
    | [], [] => Some []
    | t :: ts, v :: vs => a ← f t v; b ← go ts vs; Some (a ++ b)
    | _, _ => None
    end.

(** Entries of the same name, the values related by [f]. *)
Definition entry_cover (f : JsValue → Val → option (list nat))
    (p : string * JsValue) (q : string * Val) : option (list nat) :=
  if String.eqb p.1 q.1 then f p.2 q.2 else None.

(** [cover h t v = Some ls]: in the store [h] the value [v] unfolds to the
    tree [t], its objects having distinct keys; [ls] lists the addresses of
    the objects and arrays met on the way, once for every occurrence. *)
Fixpoint cover (h : Heap) (t : JsValue) (v : Val) : option (list nat) :=
  match t with
  | JUndefined => match v with VUndefined => Some [] | _ => None end
  | JNull => match v with VNull => Some [] | _ => None end
  | JBool b =>
      match v with
      | VBool b' => if bool_decide (b = b') then Some [] else None
      | _ => None
      end
  | JNum n =>
      match v with
      | VNum n' => if bool_decide (n = n') then Some [] else None
      | _ => None
      end
  | JStr s =>
      match v with
      | VStr s' => if bool_decide (s = s') then Some [] else None
      | _ => None
      end
  | JArr titems =>
      match v with
      | VRef l =>
          match h !! l with
          | Some (CArr items) =>
              ls ← cover_list (cover h) titems items; Some (l :: ls)
          | _ => None
          end
      | _ => None
      end
  | JObj tprops =>
      match v with
      | VRef l =>
          match h !! l with
          | Some (CObj props) =>
              if bool_decide (NoDup props.*1) then
                ls ← cover_list (entry_cover (cover h)) tprops props;
                Some (l :: ls)
              else None
          | _ => None
          end
      | VBuiltin => match tprops with [] => Some [] | _ => None end
      | _ => None
      end
  end.

(** In the store [h] the value [v] unfolds to the tree [t]. *)
Definition unfolds (h : Heap) (v : Val) (t : JsValue) : Prop :=
  is_Some (cover h t v).

(** The same, and no object or array occurs twice in [v]. *)
Definition unshared (h : Heap) (v : Val) (t : JsValue) : Prop :=
  match cover h t v with
  | Some ls => NoDup ls
  | None => False
  end.

(** [v] unfolds to [t] within the addresses [P]. *)
Definition covers (h : Heap) (t : JsValue) (v : Val) (P : nat → Prop)
  : Prop :=
  ∃ ls, cover h t v = Some ls ∧ ∀ l, l ∈ ls → P l.

(** Entries that unfold one by one. *)
Definition covers_entries (h : Heap) (tprops : list (string * JsValue))
    (props : list (string * Val)) (P : nat → Prop) : Prop :=
  Forall2 (λ p q, p.1 = q.1 ∧ covers h p.2 q.2 P) tprops props.

(** What a run of the rewrite in place leaves of the store [h], started at
    a value with the addresses [ls] that unfolds to [t'] afterwards: cells
    are added, the cells beside [ls] are kept, and the value lies in [ls]
    and the added cells. *)
Definition post (h : Heap) (ls : list nat) (h' : Heap) (t' : JsValue)
    (v : Val) : Prop :=
  (length h ≤ length h')%nat
  ∧ (∀ l, (l < length h)%nat → l ∉ ls → h' !! l = h !! l)
  ∧ covers h' t' v (λ l', l' ∈ ls ∨ (length h ≤ l')%nat).

(** On a value without shared object, the rewrite in place does to the
    store what the rewrite of the tree does to the tree. *)
Definition simulates (build : Build) (pm : gmap string (option PgClass))
    (type : GqlType) : Prop :=
  ∀ t v h ls,
    cover h t v = Some ls → NoDup ls →
    match Precomputed.transform build pm type t with
    | Some t' =>
        ∃ h', transform build pm type v h = Some h' ∧ post h ls h' t' v
    | None => transform build pm type v h = None
    end.

End InPlace.

(** ** Shapes of schemas and of submitted values *)

(** The object-like types of a type graph, with their kinds. *)
Fixpoint obj_names (type : GqlType) : list (ObjKind * string) :=
  match type with
  | GList ofType | GNonNull ofType => obj_names ofType
  | GFields kind name fields =>
      (kind, name) :: flat_map (λ field, obj_names field.2) fields
  | GLeaf _ => []
  end.

(** The character [c] does not occur in [s]. *)
Fixpoint char_free (c : ascii) (s : string) : bool :=
  match s with
  | EmptyString => true
  | String a rest => negb (Ascii.eqb a c) && char_free c rest
  end.

(** No ["|"] in a name, as for every GraphQL name. *)
Definition pipe_free : string → bool := char_free "|".

(** Type names are GraphQL names, and a name stands for one type: two
    object-like types of the graph with the same name are both input
    objects or both not. *)
Definition consistent_names (type : GqlType) : bool :=
  let names := obj_names type in
  forallb (λ a, pipe_free a.2) names
  && forallb (λ a,
       forallb (λ b,
         implb (String.eqb a.2 b.2)
               (Bool.eqb (isInputObjectType a.1) (isInputObjectType b.1)))
         names)
       names.

(** No input object of the graph carries a bare [@patch]. *)
Definition no_bare_tag (build : Build) (type : GqlType) : bool :=
  forallb (λ a,
     negb (isInputObjectType a.1)
     || match patchTags_of build a.2 with
        | Some TagTrue => false
        | _ => true
        end)
    (obj_names type).


Definition is_object (v : JsValue) : bool :=
  match v with JObj _ => true | _ => false end.

Section Shaped.
Context (matched_ok : option PgClass → JsValue → bool).
Context (patchMap : gmap string (option PgClass)).

(** The walk of [transform] over a value, as a check: every object-like
    type it reaches holds an object with distinct keys, and every key is
    either in [patchMap] for that type (then [matched_ok] judges the
    entry) or a declared field whose value is checked in turn. *)
Fixpoint shaped_with (type : GqlType) (v : JsValue) : bool :=
  match type with
  | GList ofType =>
      match v with
      | JArr items => forallb (shaped_with ofType) items
      | _ => true
      end
  | GNonNull ofType => shaped_with ofType v
  | GFields _ name fields =>
      match v with
      | JObj props =>
          bool_decide (NoDup props.*1)
          && forallb
               (λ entry,
                  match patchMap !! getKey name entry.1 with
                  | Some table => matched_ok table entry.2
                  | None =>
                      with_field entry.1 (λ ft, shaped_with ft entry.2)
                                 false fields
                  end)
               props
      | _ => false
      end
  | GLeaf _ => true
  end.
End Shaped.

(** Objects with declared keys wherever the walk goes. *)
Definition walk_shaped
  : gmap string (option PgClass) → GqlType → JsValue → bool :=
  shaped_with (λ _ _, true).

(** The same, and every matched field has a table and holds an object. *)
Definition well_shaped
  : gmap string (option PgClass) → GqlType → JsValue → bool :=
  shaped_with (λ table val,
                 match table with Some _ => is_object val | None => false end).

(** The precondition under which the specification expects the rewrite to
    be total, in its own words: every key of every object found at an
    object-like type is a declared field of that type. *)
Fixpoint keys_declared (type : GqlType) (v : JsValue) : bool :=
  match type with
  | GList ofType =>
      match v with
      | JArr items => forallb (keys_declared ofType) items
      | _ => true
      end
  | GNonNull ofType => keys_declared ofType v
  | GFields _ _ fields =>
      match v with
      | JObj props =>
          forallb (λ entry,
                     with_field entry.1 (λ ft, keys_declared ft entry.2)
                                false fields)
                  props
      | _ => true
      end
  | GLeaf _ => true
  end.

(** ** A database to run the plugin on

    The database of the plugin's own comments: table
    [schema.entity_table(first_column, second_column)] and function
    [update_entity(id, patch)] tagged [@patch patch schema.entity_table],
    with PostGraphile's usual camel-case inflection. *)

Module Example.

Definition is_lower (c : ascii) : bool :=
  (97 <=? nat_of_ascii c)%nat && (nat_of_ascii c <=? 122)%nat.

Definition upper (c : ascii) : ascii :=
  if is_lower c then ascii_of_nat (nat_of_ascii c - 32) else c.

Definition is_separator (c : ascii) : bool :=
  Ascii.eqb c "_" || Ascii.eqb c "-".

Fixpoint camel (up : bool) (s : string) : string :=
  match s with
  | EmptyString => EmptyString
  | String c rest =>
      if is_separator c then camel true rest
      else String (if up then upper c else c) (camel false rest)
  end.

Definition camelCase : string → string := camel false.
Definition upperCamelCase : string → string := camel true.

(** [tableType] throws on a missing table, as PostGraphile's inflector
    does when it reads the name of [undefined]. *)
Definition example_inflection : Inflection := {|
  functionInputType proc := upperCamelCase (proc_name proc +:+ "-input");
  inputType typeName := upperCamelCase (typeName +:+ "-input");
  domainType t := upperCamelCase (type_name t);
  argument name := camelCase name;
  column attr := camelCase (default (attr_name attr) (attr_tags_name attr));
  tableType table := (λ t, upperCamelCase (class_name t)) <$> table;
  patchType typeName := upperCamelCase (typeName +:+ "-patch")
|}.

Definition first_column : PgAttribute :=
  {| attr_name := "first_column"; attr_tags_name := None |}.
Definition second_column : PgAttribute :=
  {| attr_name := "second_column"; attr_tags_name := None |}.

Definition entity_table : PgClass := {|
  class_namespaceName := Some "schema";
  class_name := "entity_table";
  attributes := [first_column; second_column]
|}.

(** A table with a column that bears the name of a property every object
    inherits. *)
Definition constructor_column : PgAttribute :=
  {| attr_name := "constructor"; attr_tags_name := None |}.

Definition part_table : PgClass := {|
  class_namespaceName := Some "schema";
  class_name := "part_table";
  attributes := [first_column; constructor_column]
|}.

(** [update_entity] carries the tag of the plugin's comments,
    [update_ghost] names a table that does not exist, [rename_entity] has
    no tag; [update_family] has none either and takes a list of the
    composite type [entity_child], which carries a tag of its own;
    [touch_entity] carries a bare [@patch]. *)
Definition example_introspection : Introspection := {|
  procedure :=
    [ {| proc_name := "update_entity";
         proc_tags_patch := Some (TagString "patch schema.entity_table") |};
      {| proc_name := "update_ghost";
         proc_tags_patch := Some (TagString "patch schema.ghost_table") |};
      {| proc_name := "rename_entity"; proc_tags_patch := None |};
      {| proc_name := "update_family"; proc_tags_patch := None |};
      {| proc_name := "touch_entity"; proc_tags_patch := Some TagTrue |} ];
  type :=
    [ {| type_name := "entity_child";
         type_tags_patch :=
           Some (TagString "child_patch schema.entity_table") |} ];
  class := [entity_table]
|}.

Definition EntityTablePatch : GqlType :=
  GFields KInputObject "EntityTablePatch"
    [("firstColumn", GLeaf "Int"); ("secondColumn", GLeaf "Int")].

(** The names found on the prototypes of Node's objects and arrays. *)
Definition node_realm : Realm := {|
  Object_prototype :=
    ["constructor"; "__defineGetter__"; "__defineSetter__"; "hasOwnProperty";
     "__lookupGetter__"; "__lookupSetter__"; "isPrototypeOf";
     "propertyIsEnumerable"; "toString"; "valueOf"; "__proto__";
     "toLocaleString"];
  Array_prototype :=
    ["at"; "concat"; "copyWithin"; "fill"; "find"; "findIndex"; "findLast";
     "findLastIndex"; "lastIndexOf"; "pop"; "push"; "reverse"; "shift";
     "unshift"; "slice"; "sort"; "splice"; "includes"; "indexOf"; "join";
     "keys"; "entries"; "values"; "forEach"; "filter"; "flat"; "flatMap";
     "map"; "every"; "some"; "reduce"; "reduceRight"]
|}.

Definition example_build : Build := {|
  inflection := example_inflection;
  pgIntrospectionResultsByKind := example_introspection;
  getTypeByName name :=
    if String.eqb name "EntityTablePatch" then Some EntityTablePatch
    else None;
  realm := node_realm
|}.

Definition UpdateEntityInput : GqlType :=
  GFields KInputObject "UpdateEntityInput"
    [("clientMutationId", GLeaf "String"); ("id", GLeaf "UUID");
     ("patch", EntityTablePatch)].

Definition UpdateGhostInput : GqlType :=
  GFields KInputObject "UpdateGhostInput"
    [("clientMutationId", GLeaf "String"); ("id", GLeaf "UUID");
     ("patch", GLeaf "JSON")].

Definition NameInput : GqlType :=
  GFields KInputObject "NameInput" [("first", GLeaf "String")].

Definition RenameEntityInput : GqlType :=
  GFields KInputObject "RenameEntityInput"
    [("clientMutationId", GLeaf "String"); ("id", GLeaf "UUID");
     ("name", NameInput)].

Definition EntityChildInput : GqlType :=
  GFields KInputObject "EntityChildInput"
    [("childId", GLeaf "UUID"); ("childPatch", EntityTablePatch)].

Definition UpdateFamilyInput : GqlType :=
  GFields KInputObject "UpdateFamilyInput"
    [("clientMutationId", GLeaf "String"); ("id", GLeaf "UUID");
     ("children", GList EntityChildInput)].

Definition TouchEntityInput : GqlType :=
  GFields KInputObject "TouchEntityInput"
    [("clientMutationId", GLeaf "String"); ("id", GLeaf "UUID")].

Definition mutation_scope : Scope :=
  {| isRootMutation := true; pgFieldIntrospection_kind := Some "procedure" |}.

Definition updateEntity : Field :=
  {| args_input := Some (GNonNull UpdateEntityInput) |}.
Definition updateGhost : Field :=
  {| args_input := Some (GNonNull UpdateGhostInput) |}.
Definition renameEntity : Field :=
  {| args_input := Some (GNonNull RenameEntityInput) |}.
Definition updateFamily : Field :=
  {| args_input := Some (GNonNull UpdateFamilyInput) |}.
Definition touchEntity : Field :=
  {| args_input := Some (GNonNull TouchEntityInput) |}.

Definition submitted : JsValue :=
  JObj [("id", JStr "u1");
        ("patch", JObj [("firstColumn", JNum 1); ("secondColumn", JNum 2)])].

Definition rewritten : JsValue :=
  JObj [("id", JStr "u1");
        ("patch", JObj [("first_column", JNum 1); ("second_column", JNum 2)])].

(** The store at a call of [updateFamily] with two children, and the
    store at a call in which the two children are one and the same
    object; the arguments are at address 0, the array at address 2. *)
Definition family_store : list InPlace.Cell :=
  [ InPlace.CObj [("input", InPlace.VRef 1)];
    InPlace.CObj [("id", InPlace.VStr "u1"); ("children", InPlace.VRef 2)];
    InPlace.CArr [InPlace.VRef 3; InPlace.VRef 5];
    InPlace.CObj [("childId", InPlace.VStr "c1");
                  ("childPatch", InPlace.VRef 4)];
    InPlace.CObj [("firstColumn", InPlace.VNum 1)];
    InPlace.CObj [("childId", InPlace.VStr "c2");
                  ("childPatch", InPlace.VRef 6)];
    InPlace.CObj [("secondColumn", InPlace.VNum 2)] ].

Definition shared_child_store : list InPlace.Cell :=
  [ InPlace.CObj [("input", InPlace.VRef 1)];
    InPlace.CObj [("id", InPlace.VStr "u1"); ("children", InPlace.VRef 2)];
    InPlace.CArr [InPlace.VRef 3; InPlace.VRef 3];
    InPlace.CObj [("childId", InPlace.VStr "c1");
                  ("childPatch", InPlace.VRef 4)];
    InPlace.CObj [("firstColumn", InPlace.VNum 1)] ].

(** The type objects of the input of [update_ghost], and of a mutation
    [update_tree] whose input holds a tree: a type with a list of itself
    among its fields. *)
Definition example_schema : Schema := λ name,
  if String.eqb name "UpdateGhostInput" then
    DFields KInputObject
      [("clientMutationId", RNamed "String"); ("id", RNamed "UUID");
       ("patch", RNamed "JSON")]
  else if String.eqb name "UpdateTreeInput" then
    DFields KInputObject
      [("clientMutationId", RNamed "String");
       ("tree", RNonNull (RNamed "TreeInput"))]
  else if String.eqb name "TreeInput" then
    DFields KInputObject
      [("label", RNamed "String");
       ("children", RList (RNonNull (RNamed "TreeInput")))]
  else DLeaf.

(** The store at the call of [updateEntity] of the plugin's comments. *)
Definition entity_store : list InPlace.Cell :=
  [ InPlace.CObj [("input", InPlace.VRef 1)];
    InPlace.CObj [("id", InPlace.VStr "u1"); ("patch", InPlace.VRef 2)];
    InPlace.CObj [("firstColumn", InPlace.VNum 1);
                  ("secondColumn", InPlace.VNum 2)] ].

Definition first_child : JsValue :=
  JObj [("childId", JStr "c1");
        ("childPatch", JObj [("firstColumn", JNum 1)])].

Definition second_child : JsValue :=
  JObj [("childId", JStr "c2");
        ("childPatch", JObj [("secondColumn", JNum 2)])].

End Example.

(** ** Annotations of a type graph *)

(** A tag value the resolver plugins read annotations from: truthy, and a
    string or an array. *)
Definition usable_tags (tags : SmartTag) : bool :=
  truthy (Some tags) && string_or_object tags.

(** [key] is the [patchMap] key of an annotation that parses, carried by an
    input object of the graph. *)
Definition annotation_key (build : Build) (type : GqlType) (key : string)
  : Prop :=
  ∃ name tags item arg table,
    (KInputObject, name) ∈ obj_names type
    ∧ patchTags_of build name = Some tags
    ∧ usable_tags tags = true
    ∧ item ∈ tag_items tags
    ∧ parse_tag build item = Some (arg, table)
    ∧ key = getKey name (argument (inflection build) arg).

(** ** Property order *)

(** A key that starts with a digit.  JavaScript lists the integer-like keys
    of an object first, whatever their insertion order; property lists
    stand for objects whose keys are listed in insertion order, which is
    every object without such keys. *)
Definition is_digit (c : ascii) : bool :=
  (48 <=? nat_of_ascii c)%nat && (nat_of_ascii c <=? 57)%nat.

Definition digit_led (s : string) : bool :=
  match s with
  | String c _ => is_digit c
  | EmptyString => false
  end.

(** * Properties *)

(** ** Property lists *)

Section PropertyLists.
Context {A : Type}.
Implicit Types (o : list (string * A)) (k : string) (x : A).

Lemma assoc_None k o : assoc k o = None ↔ k ∉ o.*1.
Proof.
  induction o as [|[k' y] o IH]; simpl.
  - split; [intros _; apply not_elem_of_nil | done].
  - destruct (String.eqb_spec k' k) as [->|Hne].
    + split; [done | intros Hk; destruct Hk; left].
    + rewrite IH, not_elem_of_cons. split; [by auto | by intros [_ ?]].
Qed.

Lemma has_key_true k o : has_key k o = true ↔ k ∈ o.*1.
Proof.
  unfold has_key. destruct (assoc k o) eqn:E.
  - split; [intros _ | done].
    destruct (decide (k ∈ o.*1)) as [|Hn]; [done|].
    apply assoc_None in Hn. congruence.
  - apply assoc_None in E. split; [done | intros; by destruct E].
Qed.

Lemma has_key_false k o : has_key k o = false ↔ k ∉ o.*1.
Proof. rewrite <- has_key_true. by destruct (has_key k o). Qed.

Lemma assoc_elem_of k o x : assoc k o = Some x → (k, x) ∈ o.
Proof.
  induction o as [|[k' y] o IH]; simpl; [done|].
  destruct (String.eqb_spec k' k) as [->|Hne].
  - intros [= ->]. left.
  - intros. right. auto.
Qed.

Lemma assoc_NoDup k o x : NoDup o.*1 → (k, x) ∈ o → assoc k o = Some x.
Proof.
  induction o as [|[k' y] o IH]; simpl; [by intros _ ?%elem_of_nil|].
  rewrite NoDup_cons. intros [Hk Hnd] [Heq|Hin]%elem_of_cons.
  - injection Heq as -> ->. by rewrite String.eqb_refl.
  - destruct (String.eqb_spec k' k) as [->|Hne]; [|by auto].
    destruct Hk. apply list_elem_of_fmap. by exists (k, x).
Qed.

Lemma assoc_obj_set_eq k x o : assoc k (obj_set k x o) = Some x.
Proof.
  induction o as [|[k' y] o IH]; simpl.
  - by rewrite String.eqb_refl.
  - destruct (String.eqb_spec k' k) as [->|Hne]; simpl.
    + by rewrite String.eqb_refl.
    + by destruct (String.eqb_spec k' k).
Qed.

Lemma assoc_obj_set_ne k k' x o :
  k ≠ k' → assoc k' (obj_set k x o) = assoc k' o.
Proof.
  intros Hne. induction o as [|[k0 y] o IH]; simpl.
  - by destruct (String.eqb_spec k k').
  - destruct (String.eqb_spec k0 k) as [->|Hne0]; simpl.
    + by destruct (String.eqb_spec k k').
    + by rewrite IH.
Qed.

Lemma obj_set_fresh k x o : k ∉ o.*1 → obj_set k x o = o ++ [(k, x)].
Proof.
  induction o as [|[k' y] o IH]; simpl; [done|].
  rewrite not_elem_of_cons. intros [Hne Hk].
  destruct (String.eqb_spec k' k); [congruence|]. by rewrite IH.
Qed.

Lemma obj_set_middle k x y front rest :
  k ∉ front.*1 →
  obj_set k x (front ++ (k, y) :: rest) = front ++ (k, x) :: rest.
Proof.
  induction front as [|[k' z] front IH]; simpl.
  - intros _. by rewrite String.eqb_refl.
  - rewrite not_elem_of_cons. intros [Hne Hk].
    destruct (String.eqb_spec k' k); [congruence|]. by rewrite IH.
Qed.

Lemma keys_obj_set k x o :
  (obj_set k x o).*1 = if has_key k o then o.*1 else o.*1 ++ [k].
Proof.
  destruct (has_key k o) eqn:E.
  - apply has_key_true in E. induction o as [|[k' y] o IH]; simpl.
    + by apply elem_of_nil in E.
    + destruct (String.eqb_spec k' k) as [->|Hne]; simpl; [done|].
      f_equal. apply IH. simpl in E. apply elem_of_cons in E as [?|?]; [congruence | done].
  - apply has_key_false in E. rewrite obj_set_fresh by done.
    by rewrite fmap_app.
Qed.

Lemma elem_of_keys_obj_set k k' x o :
  k' ∈ (obj_set k x o).*1 ↔ k' = k ∨ k' ∈ o.*1.
Proof.
  rewrite keys_obj_set. destruct (has_key k o) eqn:E.
  - apply has_key_true in E. naive_solver.
  - rewrite elem_of_app, list_elem_of_singleton. naive_solver.
Qed.

Lemma NoDup_obj_set k x o : NoDup o.*1 → NoDup (obj_set k x o).*1.
Proof.
  intros Hnd. rewrite keys_obj_set. destruct (has_key k o) eqn:E; [done|].
  apply has_key_false in E. apply NoDup_app. split_and!; [done| |apply NoDup_singleton].
  intros k' Hk' ->%list_elem_of_singleton. done.
Qed.
End PropertyLists.

(** ** [reduce] *)

Section Reduce.
Context {A B : Type}.

Lemma reduce_cons (f : B → A → option B) init x l :
  reduce f init (x :: l) = acc ← f init x; reduce f acc l.
Proof. done. Qed.

Lemma reduce_None_elem (f : B → A → option B) init l x :
  x ∈ l → (∀ acc, f acc x = None) → reduce f init l = None.
Proof.
  revert init. induction l as [|y l IH]; intros init Hin Hf.
  - by apply elem_of_nil in Hin.
  - simpl. apply elem_of_cons in Hin as [->|Hin].
    + by rewrite Hf.
    + destruct (f init y); simpl; [by apply IH | done].
Qed.
End Reduce.

(** ** Induction on a type graph *)

Lemma GqlType_induction (P : GqlType → Prop)
    (Hlist : ∀ ofType, P ofType → P (GList ofType))
    (Hnonnull : ∀ ofType, P ofType → P (GNonNull ofType))
    (Hfields : ∀ kind name fields,
        Forall (λ field, P field.2) fields → P (GFields kind name fields))
    (Hleaf : ∀ name, P (GLeaf name)) :
  ∀ type, P type.
Proof.
  fix IH 1. intros [ofType|ofType|kind name fields|name].
  - apply Hlist, IH.
  - apply Hnonnull, IH.
  - apply Hfields. induction fields as [|[n ft] fields IHf]; constructor.
    + apply IH.
    + apply IHf.
  - apply Hleaf.
Qed.

Lemma with_field_assoc {A} arg (k : GqlType → A) d fields :
  with_field arg k d fields =
    match assoc arg fields with Some ft => k ft | None => d end.
Proof.
  induction fields as [|[n ft] fields IH]; simpl; [done|].
  by destruct (String.eqb n arg).
Qed.

Lemma obj_names_field arg ft kind name fields :
  assoc arg fields = Some ft →
  obj_names ft ⊆ obj_names (GFields kind name fields).
Proof.
  intros Hft%assoc_elem_of a Ha. simpl. right.
  apply list_elem_of_In, in_flat_map. exists (arg, ft).
  split; by apply list_elem_of_In.
Qed.

(** ** Splitting a tag *)

Lemma split_char_free c s : char_free c s = true → split c s = [s].
Proof.
  induction s as [|a s IH]; simpl; [done|].
  destruct (Ascii.eqb a c); simpl; [done|]. intros Hs. by rewrite IH.
Qed.

Lemma split_sep c s rest :
  char_free c s = true →
  split c (s +:+ String c rest) = s :: split c rest.
Proof.
  induction s as [|a s IH]; simpl.
  - intros _. by rewrite Ascii.eqb_refl.
  - destruct (Ascii.eqb a c); simpl; [done|]. intros Hs. by rewrite IH.
Qed.

(** A well-formed tag ["arg ns.tbl"] parses to its argument and the table
    found for [ns] and [tbl]. *)
Lemma parse_tag_well_formed build arg ns tbl :
  char_free " " arg = true → char_free " " ns = true →
  char_free "." ns = true → char_free " " tbl = true →
  char_free "." tbl = true →
  parse_tag build (ItemString (arg +:+ " " +:+ ns +:+ "." +:+ tbl)) =
    Some (arg, find_table build ns (Some tbl)).
Proof.
  intros Harg Hns1 Hns2 Htbl1 Htbl2. unfold parse_tag.
  change (arg +:+ " " +:+ ns +:+ "." +:+ tbl)
    with (arg +:+ String " " (ns +:+ String "." tbl)).
  rewrite (split_sep " " arg) by done.
  assert (char_free " " (ns +:+ String "." tbl) = true) as Hid.
  { clear -Hns1 Htbl1. induction ns as [|a ns IH]; simpl in *; [done|].
    destruct (Ascii.eqb a " "); simpl in *; [done | auto]. }
  rewrite split_char_free by done.
  rewrite (split_sep "." ns) by done.
  by rewrite split_char_free.
Qed.

(** ** Keys of [patchMap] *)

#[local] Instance getKey_inj_arg name : Inj (=) (=) (getKey name).
Proof.
  intros a b. unfold getKey. induction name as [|c name IH]; simpl.
  - intros [= H]. exact H.
  - intros [= H]. auto.
Qed.

Lemma getKey_inj name1 name2 arg1 arg2 :
  pipe_free name1 = true → pipe_free name2 = true →
  getKey name1 arg1 = getKey name2 arg2 → name1 = name2 ∧ arg1 = arg2.
Proof.
  unfold getKey, pipe_free. revert name2.
  induction name1 as [|c name1 IH]; intros [|c2 name2]; simpl.
  - intros _ _ [= H]. split; [done | exact H].
  - intros _ Hc [= <- _]. by rewrite Ascii.eqb_refl in Hc.
  - intros Hc _ [= -> _]. by rewrite Ascii.eqb_refl in Hc.
  - intros [_ H1]%andb_true_iff [_ H2]%andb_true_iff [= -> H].
    destruct (IH _ H1 H2 H) as [-> ->]. done.
Qed.

(** ** [newJson] *)

Section NewJsonFacts.
Context (build : Build).

Let col := column (inflection build).

Lemma properties_keys (v : list (string * JsValue)) k :
  k ∈ (properties (realm build) v).*1
  ↔ k ∈ v.*1 ∨ k ∈ Object_prototype (realm build).
Proof.
  unfold properties, inherited.
  rewrite fmap_app, elem_of_app, <- list_fmap_compose.
  assert (fst ∘ (λ k0 : string, (k0, builtin)) = id) as -> by done.
  by rewrite list_fmap_id.
Qed.

Lemma add_column_object v obj attr :
  add_column build (JObj v) obj attr =
    Some (if has_key (col attr) (properties (realm build) v)
          then obj_set (attr_name attr)
                       (default JUndefined
                          (assoc (col attr) (properties (realm build) v)))
                       obj
          else obj).
Proof. done. Qed.

Lemma add_columns_object v attrs : ∀ obj, ∃ out,
  reduce (add_column build (JObj v)) obj attrs = Some out
  ∧ (∀ k, k ∈ out.*1 ↔
          k ∈ obj.*1 ∨
          ∃ attr, attr ∈ attrs ∧ attr_name attr = k
                  ∧ col attr ∈ (properties (realm build) v).*1)
  ∧ (∀ k, (∀ attr, attr ∈ attrs → attr_name attr = k →
                   col attr ∉ (properties (realm build) v).*1) →
          assoc k out = assoc k obj)
  ∧ (NoDup (attr_name <$> attrs) →
     ∀ attr, attr ∈ attrs →
             col attr ∈ (properties (realm build) v).*1 →
             assoc (attr_name attr) out
             = assoc (col attr) (properties (realm build) v))
  ∧ (NoDup obj.*1 → NoDup out.*1).
Proof.
  induction attrs as [|a attrs IH]; intros obj.
  { exists obj. split_and!; [done| |done| |done].
    - intros k. split; [by left|]. intros [?|(?&?%elem_of_nil&_)]; done.
    - intros _ ? ?%elem_of_nil. done. }
  rewrite reduce_cons, add_column_object. simpl.
  set (obj' := if has_key (col a) (properties (realm build) v) then _ else obj).
  destruct (IH obj') as (out & Hred & Hkeys & Hother & Hval & Hnd).
  exists out. split_and!; [done|..].
  - intros k. rewrite Hkeys. subst obj'.
    destruct (has_key (col a) (properties (realm build) v)) eqn:E.
    + apply has_key_true in E. rewrite elem_of_keys_obj_set. split.
      * intros [[->|?]|(attr&?&?&?)]; [right|by left|right].
        -- exists a. split_and!; [left|done|done].
        -- exists attr. split_and!; [by right|done|done].
      * intros [?|(attr&[->|?]%elem_of_cons&<-&?)]; [by left; right| |].
        -- left. by left.
        -- right. by exists attr.
    + apply has_key_false in E. split.
      * intros [?|(attr&?&?&?)]; [by left|right].
        exists attr. split_and!; [by right|done|done].
      * intros [?|(attr&[->|?]%elem_of_cons&<-&?)]; [by left|done|].
        right. by exists attr.
  - intros k Hk. rewrite Hother by (intros; apply Hk; [by right|done]).
    subst obj'.
    destruct (has_key (col a) (properties (realm build) v)) eqn:E; [|done].
    apply has_key_true in E.
    destruct (decide (attr_name a = k)) as [Heq|Hne].
    + destruct (Hk a); [left|done|done].
    + by apply assoc_obj_set_ne.
  - intros [Ha Hnd']%NoDup_cons attr [->|Hin]%elem_of_cons Hcol.
    + rewrite Hother.
      * subst obj'. apply has_key_true in Hcol as Hcol'. rewrite Hcol'.
        rewrite assoc_obj_set_eq.
        destruct (assoc (col a) (properties (realm build) v)) eqn:E; [done|].
        apply assoc_None in E. done.
      * intros attr Hin Heq. destruct Ha.
        apply list_elem_of_fmap. by exists attr.
    + by apply Hval.
  - intros Hobj. apply Hnd. subst obj'.
    destruct (has_key (col a) (properties (realm build) v));
      [by apply NoDup_obj_set | done].
Qed.

(** [newJson] on an object never throws once the table is there. *)
Lemma newJson_object T v : ∃ out,
  newJson build (Some T) (JObj v) = Some (JObj out)
  ∧ NoDup out.*1
  ∧ (∀ k, k ∈ out.*1 ↔
          ∃ attr, attr ∈ attributes T ∧ attr_name attr = k
                  ∧ col attr ∈ (properties (realm build) v).*1)
  ∧ (NoDup (attr_name <$> attributes T) →
     ∀ attr, attr ∈ attributes T →
             col attr ∈ (properties (realm build) v).*1 →
             assoc (attr_name attr) out
             = assoc (col attr) (properties (realm build) v)).
Proof.
  destruct (add_columns_object v (attributes T) [])
    as (out & Hred & Hkeys & _ & Hval & Hnd).
  exists out. unfold newJson. simpl. rewrite Hred. split_and!; [done|..].
  - apply Hnd. constructor.
  - intros k. rewrite Hkeys. split; [|by right].
    intros [?%elem_of_nil|?]; done.
  - done.
Qed.


(** The two callbacks on a key that is in the map. *)
Lemma precomputed_entry_matched pm name fields recurse props arg table val :
  pm !! getKey name arg = Some table →
  Precomputed.transform_entry build pm name fields recurse (JObj props)
                              (arg, val) =
    json ← newJson build table val; Some (JObj (obj_set arg json props)).
Proof. intros H. unfold Precomputed.transform_entry. by rewrite H. Qed.

Lemma percall_entry_matched (m : gmap string (option PgClass)) fields
    recurse res arg table val :
  m !! arg = Some table →
  PerCall.transform_entry build m fields recurse res (arg, val) =
    json ← newJson build table val; Some (obj_set arg json res).
Proof. intros H. unfold PerCall.transform_entry. by rewrite H. Qed.
End NewJsonFacts.

Local Arguments patchTags_of : simpl never.
Local Arguments find_table : simpl never.

(** ** The walk over an object *)

Section ObjectWalk.
Implicit Types (g : string * JsValue → option JsValue).
Implicit Types (front todo : list (string * JsValue)).

(** A [forEach] that assigns to the keys of the object it iterates. *)
Lemma reduce_in_place (f : JsValue → string * JsValue → option JsValue) g :
  (∀ acc e, f (JObj acc) e = x ← g e; Some (JObj (obj_set e.1 x acc))) →
  ∀ todo front,
    NoDup (front ++ todo).*1 →
    reduce f (JObj (front ++ todo)) todo
    = (λ rs, JObj (front ++ rs))
        <$> mapM (λ e, x ← g e; Some (e.1, x)) todo.
Proof.
  intros Hf. induction todo as [|[k v] todo IH]; intros front Hnd; [done|].
  rewrite reduce_cons, Hf. simpl. destruct (g (k, v)) as [x|]; simpl; [|done].
  assert (k ∉ front.*1) as Hk.
  { rewrite fmap_app, NoDup_app in Hnd. destruct Hnd as (_ & Hfresh & _).
    intros Hk. apply (Hfresh k Hk). left. }
  rewrite obj_set_middle by done.
  specialize (IH (front ++ [(k, x)])).
  rewrite <- app_assoc in IH. simpl in IH. rewrite IH.
  - destruct (mapM _ todo) as [rs|]; simpl; [|done].
    by rewrite <- app_assoc.
  - by rewrite fmap_app in *.
Qed.

(** A [reduce] that builds the object anew, key by key. *)
Lemma reduce_rebuild
    (f : list (string * JsValue) → string * JsValue
         → option (list (string * JsValue))) g :
  (∀ acc e, f acc e = x ← g e; Some (obj_set e.1 x acc)) →
  ∀ todo front,
    NoDup (front ++ todo).*1 →
    reduce f front todo
    = (λ rs, front ++ rs) <$> mapM (λ e, x ← g e; Some (e.1, x)) todo.
Proof.
  intros Hf. induction todo as [|[k v] todo IH]; intros front Hnd.
  { simpl. by rewrite app_nil_r. }
  rewrite reduce_cons, Hf. simpl. destruct (g (k, v)) as [x|]; simpl; [|done].
  assert (k ∉ front.*1) as Hk.
  { rewrite fmap_app, NoDup_app in Hnd. destruct Hnd as (_ & Hfresh & _).
    intros Hk. apply (Hfresh k Hk). left. }
  rewrite obj_set_fresh by done. rewrite IH.
  - destruct (mapM _ todo) as [rs|]; simpl; [|done].
    by rewrite <- app_assoc.
  - rewrite <- app_assoc. simpl. by rewrite fmap_app in *.
Qed.
End ObjectWalk.

Section Walks.
Context (build : Build).

(** The precomputing [transform] on an object with distinct keys: one
    result per entry, in place. *)
Lemma precomputed_object pm kind name fields props :
  NoDup props.*1 →
  Precomputed.transform build pm (GFields kind name fields) (JObj props)
  = JObj <$>
      mapM (λ e,
              x ← match pm !! getKey name e.1 with
                  | Some table => newJson build table e.2
                  | None =>
                      with_field e.1
                        (λ ft, Precomputed.transform build pm ft e.2)
                        None fields
                  end;
              Some (e.1, x))
           props.
Proof.
  intros Hnd.
  set (g := λ e : string * JsValue,
         match pm !! getKey name e.1 with
         | Some table => newJson build table e.2
         | None =>
             with_field e.1 (λ ft, Precomputed.transform build pm ft e.2)
                        None fields
         end).
  assert (∀ acc e,
            Precomputed.transform_entry build pm name fields
              (Precomputed.transform build pm) (JObj acc) e
            = x ← g e; Some (JObj (obj_set e.1 x acc))) as Hf.
  { intros acc [arg val]. unfold Precomputed.transform_entry, g. simpl.
    destruct (pm !! getKey name arg) as [table|].
    - by destruct (newJson build table val).
    - by destruct (with_field arg _ None fields). }
  change (Precomputed.transform build pm (GFields kind name fields)
            (JObj props))
    with (reduce (Precomputed.transform_entry build pm name fields
                    (Precomputed.transform build pm))
                 (JObj ([] ++ props)) props).
  by rewrite (reduce_in_place _ g Hf props [] Hnd).
Qed.

(** The per-call [transform] on an object with distinct keys. *)
Lemma percall_object (m : gmap string (option PgClass)) kind name fields
    props :
  PerCall.patchArgAndTableMap build kind name = Some m →
  NoDup props.*1 →
  PerCall.transform build (GFields kind name fields) (JObj props)
  = JObj <$>
      mapM (λ e,
              x ← match m !! e.1 with
                  | Some table => newJson build table e.2
                  | None =>
                      with_field e.1
                        (λ ft, PerCall.transform build ft e.2)
                        None fields
                  end;
              Some (e.1, x))
           props.
Proof.
  intros Hm Hnd.
  set (g := λ e : string * JsValue,
         match m !! e.1 with
         | Some table => newJson build table e.2
         | None =>
             with_field e.1 (λ ft, PerCall.transform build ft e.2)
                        None fields
         end).
  assert (∀ acc e,
            PerCall.transform_entry build m fields
              (PerCall.transform build) acc e
            = x ← g e; Some (obj_set e.1 x acc)) as Hf.
  { intros acc [arg val]. unfold PerCall.transform_entry, g. simpl.
    destruct (m !! arg) as [table|].
    - by destruct (newJson build table val).
    - by destruct (with_field arg _ None fields). }
  change (PerCall.transform build (GFields kind name fields) (JObj props))
    with (m' ← PerCall.patchArgAndTableMap build kind name;
          JObj <$> reduce (PerCall.transform_entry build m' fields
                             (PerCall.transform build)) [] props).
  rewrite Hm. cbn [mbind option_bind].
  rewrite (reduce_rebuild _ g Hf props [] Hnd).
  by destruct (mapM _ props).
Qed.

Lemma mapM_entries_id (props : list (string * JsValue))
    (g : string * JsValue → option JsValue) :
  (∀ e, e ∈ props → g e = Some e.2) →
  mapM (λ e, x ← g e; Some (e.1, x)) props = Some props.
Proof.
  intros Hg. apply mapM_Some. apply Forall2_same_length_lookup.
  split; [done|]. intros i e e' He He'. simplify_eq.
  rewrite Hg by (by eapply list_elem_of_lookup_2). by destruct e.
Qed.

Lemma mapM_entries_Some (props props' : list (string * JsValue))
    (g : string * JsValue → option JsValue) :
  mapM (λ e, x ← g e; Some (e.1, x)) props = Some props' →
  props'.*1 = props.*1
  ∧ ∀ k x, (k, x) ∈ props → ∃ y, g (k, x) = Some y ∧ (k, y) ∈ props'.
Proof.
  intros H%mapM_Some. induction H as [|[k x] e' props props' He _ IH].
  { split; [done|]. by intros k x ?%elem_of_nil. }
  destruct IH as [Hkeys Hin]. destruct (g (k, x)) as [y|] eqn:Hg; [|done].
  injection He as <-. split; [simpl; by f_equal|].
  intros k0 x0 [[= -> ->]|H0]%elem_of_cons.
  - exists y. split; [done | left].
  - destruct (Hin k0 x0 H0) as (y0 & ? & ?). exists y0. split; [done|by right].
Qed.


Lemma percall_object_matched (m : gmap string (option PgClass)) kind name
    fields props r k x table :
  PerCall.patchArgAndTableMap build kind name = Some m →
  NoDup props.*1 →
  PerCall.transform build (GFields kind name fields) (JObj props) = Some r →
  (k, x) ∈ props →
  m !! k = Some table →
  ∃ props' json,
    r = JObj props' ∧ NoDup props'.*1 ∧ newJson build table x = Some json
    ∧ (k, json) ∈ props' ∧ assoc k props' = Some json.
Proof.
  intros Hmap Hnd Hr Hin Hm. rewrite (percall_object m) in Hr by done.
  apply fmap_Some in Hr as (props' & Hmap' & ->).
  apply mapM_entries_Some in Hmap' as [Hkeys Hall].
  destruct (Hall k x Hin) as (json & Hjson & Hin'). simpl in Hjson.
  rewrite Hm in Hjson. exists props', json.
  assert (NoDup props'.*1) by (by rewrite Hkeys).
  split_and!; [done..|]. by apply assoc_NoDup.
Qed.

(** Reading a shape check. *)
Lemma shaped_with_fields ok pm kind name fields v :
  shaped_with ok pm (GFields kind name fields) v = true →
  ∃ props,
    v = JObj props ∧ NoDup props.*1
    ∧ ∀ e, e ∈ props →
           match pm !! getKey name e.1 with
           | Some table => ok table e.2 = true
           | None => ∃ ft, assoc e.1 fields = Some ft
                           ∧ shaped_with ok pm ft e.2 = true
           end.
Proof.
  simpl. destruct v as [| | | | | |props]; try done.
  intros [Hnd Hall]%andb_true_iff. exists props. split_and!; [done|..].
  - by apply bool_decide_eq_true_1 in Hnd.
  - intros e He. rewrite forallb_forall in Hall.
    specialize (Hall e (proj1 (list_elem_of_In _ _) He)).
    destruct (pm !! getKey name e.1); [done|].
    rewrite with_field_assoc in Hall.
    destruct (assoc e.1 fields) as [ft|]; [eauto | done].
Qed.

Lemma shaped_with_list ok pm ofType items :
  shaped_with ok pm (GList ofType) (JArr items) = true →
  Forall (λ x, shaped_with ok pm ofType x = true) items.
Proof.
  simpl. rewrite forallb_forall, Forall_forall.
  intros H x Hx. by apply H, list_elem_of_In.
Qed.

Lemma well_shaped_walk_shaped pm type : ∀ v,
  well_shaped pm type v = true → walk_shaped pm type v = true.
Proof.
  unfold well_shaped, walk_shaped.
  induction type as [ofType IH|ofType IH|kind name fields IH|name]
    using GqlType_induction; intros v.
  - destruct v; try done. simpl. rewrite !forallb_forall. auto.
  - apply IH.
  - intros (props & -> & Hnd & Hall)%shaped_with_fields. simpl.
    apply andb_true_iff. split; [by apply bool_decide_eq_true_2|].
    apply forallb_forall. intros e He%list_elem_of_In.
    specialize (Hall e He).
    destruct (pm !! getKey name e.1); [done|].
    destruct Hall as (ft & Hft & Hshape). rewrite with_field_assoc, Hft.
    rewrite Forall_forall in IH.
    apply (IH (e.1, ft)); [|done]. by apply assoc_elem_of.
  - done.
Qed.
End Walks.

Section Agreement.
Context (build : Build).

(** When [patchMap] holds, for each object-like type of the graph, what
    the per-call plugin finds for that type, the two rewrites agree on
    objects with declared keys. *)
Lemma transforms_agree pm type : ∀ v,
  (∀ kind name, (kind, name) ∈ obj_names type →
     ∃ m : gmap string (option PgClass),
       PerCall.patchArgAndTableMap build kind name = Some m
       ∧ ∀ arg, pm !! getKey name arg = m !! arg) →
  walk_shaped pm type v = true →
  Precomputed.transform build pm type v = PerCall.transform build type v.
Proof.
  unfold walk_shaped.
  induction type as [ofType IH|ofType IH|kind name fields IH|name]
    using GqlType_induction; intros v Hagree Hshape.
  - destruct v as [| | | | |items|]; try done.
    apply shaped_with_list in Hshape. simpl. f_equal.
    apply Forall_mapM_ext. eapply Forall_impl; [exact Hshape|].
    intros x Hx. by apply IH.
  - by apply IH.
  - apply shaped_with_fields in Hshape as (props & -> & Hnd & Hall).
    destruct (Hagree kind name) as (m & Hm & Hlookup); [left|].
    rewrite precomputed_object, (percall_object _ m) by done. f_equal.
    apply Forall_mapM_ext, Forall_forall. intros e He.
    specialize (Hall e He). rewrite Hlookup in Hall |- *.
    destruct (m !! e.1); [done|].
    destruct Hall as (ft & Hft & Hshape). rewrite !with_field_assoc, Hft.
    rewrite Forall_forall in IH.
    rewrite (IH (e.1, ft)); [done|by apply assoc_elem_of| |done].
    intros k n Hin. apply Hagree. by eapply obj_names_field.
  - done.
Qed.

(** Without any entry for the types of the graph, the per-call rewrite
    returns the value it was given. *)
Lemma percall_identity type : ∀ v,
  (∀ kind name, (kind, name) ∈ obj_names type →
                PerCall.patchArgAndTableMap build kind name = Some ∅) →
  walk_shaped ∅ type v = true →
  PerCall.transform build type v = Some v.
Proof.
  unfold walk_shaped.
  induction type as [ofType IH|ofType IH|kind name fields IH|name]
    using GqlType_induction; intros v Hempty Hshape.
  - destruct v as [| | | | |items|]; try done.
    apply shaped_with_list in Hshape. simpl. apply fmap_Some.
    exists items. split; [|done]. apply mapM_Some.
    apply Forall2_same_length_lookup. split; [done|].
    intros i x y Hx Hy. simplify_eq. apply IH; [done|].
    rewrite Forall_forall in Hshape.
    by eapply Hshape, list_elem_of_lookup_2.
  - by apply IH.
  - apply shaped_with_fields in Hshape as (props & -> & Hnd & Hall).
    rewrite (percall_object _ ∅) by (done || apply Hempty; left).
    rewrite mapM_entries_id; [done|]. intros e He.
    specialize (Hall e He). rewrite lookup_empty in Hall |- *.
    destruct Hall as (ft & Hft & Hshape). rewrite with_field_assoc, Hft.
    rewrite Forall_forall in IH.
    apply (IH (e.1, ft)); [by apply assoc_elem_of| |done].
    intros k n Hin. apply Hempty. by eapply obj_names_field.
  - done.
Qed.

(** On a well-shaped value the precomputing rewrite returns. *)
Lemma precomputed_total pm type : ∀ v,
  well_shaped pm type v = true →
  is_Some (Precomputed.transform build pm type v).
Proof.
  unfold well_shaped.
  induction type as [ofType IH|ofType IH|kind name fields IH|name]
    using GqlType_induction; intros v Hshape.
  - destruct v as [| | | | |items|]; try done.
    apply shaped_with_list in Hshape. simpl. apply fmap_is_Some.
    apply mapM_is_Some. eapply Forall_impl; [exact Hshape|].
    intros x Hx. by apply IH.
  - by apply IH.
  - apply shaped_with_fields in Hshape as (props & -> & Hnd & Hall).
    rewrite precomputed_object by done. apply fmap_is_Some, mapM_is_Some.
    apply Forall_forall. intros e He. specialize (Hall e He). simpl.
    destruct (pm !! getKey name e.1) as [[T|]|]; [| done |].
    + destruct e.2 as [| | | | | |v] eqn:Hv; try done.
      destruct (newJson_object build T v) as (out & -> & _). done.
    + destruct Hall as (ft & Hft & Hshape). rewrite with_field_assoc, Hft.
      rewrite Forall_forall in IH.
      destruct (IH (e.1, ft) (assoc_elem_of _ _ _ Hft) e.2 Hshape) as [x Hx].
      simpl in Hx. by rewrite Hx.
  - done.
Qed.

(** The rewrite of an absent [input] leaves it absent. *)
Lemma precomputed_undefined pm type r :
  Precomputed.transform build pm type JUndefined = Some r → r = JUndefined.
Proof.
  induction type as [ofType IH|ofType IH|kind name fields IH|name]
    using GqlType_induction; simpl; [by intros [= <-] | done | done |].
  by intros [= <-].
Qed.
End Agreement.

(** ** [populatePatchMap] against the per-call maps *)

Section Populate.
Context (build : Build).

Lemma store_tags_kmap name items :
  ∀ (m0 pm0 : gmap string (option PgClass)),
    reduce (Precomputed.store_tag build name)
           (kmap (getKey name) m0 ∪ pm0) items
    = (λ m, kmap (getKey name) m ∪ pm0)
        <$> reduce (PerCall.store_tag build) m0 items.
Proof.
  induction items as [|item items IH]; intros m0 pm0; [done|].
  rewrite !reduce_cons.
  destruct (parse_tag build item) as [[arg table]|] eqn:Hparse.
  - replace (Precomputed.store_tag build name
               (kmap (getKey name) m0 ∪ pm0) item)
      with (Some (kmap (getKey name)
                    (<[argument (inflection build) arg := table]> m0)
                  ∪ pm0))
      by (unfold Precomputed.store_tag; rewrite Hparse; simpl;
          rewrite kmap_insert by apply _; by rewrite insert_union_l).
    replace (PerCall.store_tag build m0 item)
      with (Some (<[argument (inflection build) arg := table]> m0))
      by (unfold PerCall.store_tag; by rewrite Hparse).
    apply IH.
  - replace (Precomputed.store_tag build name
               (kmap (getKey name) m0 ∪ pm0) item)
      with (@None (gmap string (option PgClass)))
      by (unfold Precomputed.store_tag; by rewrite Hparse).
    replace (PerCall.store_tag build m0 item)
      with (@None (gmap string (option PgClass)))
      by (unfold PerCall.store_tag; by rewrite Hparse).
    done.
Qed.

(** Unless the tag is bare, the block that stores the tags of a type adds
    to [patchMap] the per-call map of that type under the keys of the
    type. *)
Lemma store_patch_tags_percall name (pm0 : gmap string (option PgClass)) :
  patchTags_of build name ≠ Some TagTrue →
  Precomputed.store_patch_tags build name pm0
  = (λ m, kmap (getKey name) m ∪ pm0)
      <$> PerCall.patchArgAndTableMap build KInputObject name.
Proof.
  intros Hbare.
  assert (pm0 = kmap (getKey name) (∅ : gmap string (option PgClass)) ∪ pm0)
    as Hpm0 by (by rewrite kmap_empty, (left_id_L ∅ (∪))).
  unfold Precomputed.store_patch_tags, PerCall.patchArgAndTableMap.
  cbn [isInputObjectType].
  destruct (patchTags_of build name) as [[|s|l]|] eqn:E; [done| | |].
  - destruct (truthy (Some (TagString s))); cbn [andb string_or_object].
    + rewrite Hpm0 at 1. apply store_tags_kmap.
    + rewrite Hpm0 at 1. reflexivity.
  - cbn [truthy andb string_or_object].
    rewrite Hpm0 at 1. apply store_tags_kmap.
  - rewrite Hpm0 at 1. reflexivity.
Qed.

(** [inv V pm]: [pm] holds exactly the per-call maps of the input objects
    named in [V]. *)
Let inv (V : list string) (pm : gmap string (option PgClass)) : Prop :=
  ∀ N, pipe_free N = true →
    (N ∈ V → ∃ m : gmap string (option PgClass),
               PerCall.patchArgAndTableMap build KInputObject N = Some m
               ∧ ∀ a, pm !! getKey N a = m !! a)
    ∧ (N ∉ V → ∀ a, pm !! getKey N a = None).

Lemma inv_store name V pm0 pm :
  pipe_free name = true →
  patchTags_of build name ≠ Some TagTrue →
  Precomputed.store_patch_tags build name pm0 = Some pm →
  inv V pm0 → inv (name :: V) pm.
Proof.
  intros Hname Hbare Hstore Hinv.
  rewrite store_patch_tags_percall in Hstore by done.
  apply fmap_Some in Hstore as (m & Hm & ->).
  assert (∀ N a, pipe_free N = true → N ≠ name →
            (kmap (getKey name) m ∪ pm0) !! getKey N a
            = pm0 !! getKey N a) as Hother.
  { intros N a HN Hne. rewrite lookup_union.
    assert (kmap (M2:=gmap string) (getKey name) m !! getKey N a = None)
      as ->; [|by rewrite (left_id_L None _)].
    apply lookup_kmap_None; [apply _|].
    intros i Heq. apply getKey_inj in Heq as [? _]; done. }
  intros N HN. split.
  - intros HV. destruct (decide (N = name)) as [->|Hne].
    + exists m. split; [done|]. intros a.
      rewrite lookup_union.
      rewrite (lookup_kmap (M2:=gmap string) (getKey name) m a).
      destruct (m !! a) as [x|] eqn:Ema.
      { by rewrite union_Some_l. }
      rewrite (left_id_L None _).
      destruct (decide (name ∈ V)) as [Hin|Hnin].
      * destruct (Hinv name Hname) as [Hsome _].
        destruct (Hsome Hin) as (m' & Hm' & Hlookup).
        rewrite Hlookup. congruence.
      * destruct (Hinv name Hname) as [_ Hnone]. by apply Hnone.
    + apply elem_of_cons in HV as [?|HV]; [done|].
      destruct (Hinv N HN) as [Hsome _].
      destruct (Hsome HV) as (m' & Hm' & Hlookup).
      exists m'. split; [done|]. intros a. by rewrite Hother.
  - intros [Hne HV]%not_elem_of_cons a. rewrite Hother by done.
    destruct (Hinv N HN) as [_ Hnone]. by apply Hnone.
Qed.

Lemma inv_populate type : ∀ V pm0 pm,
  (∀ a, a ∈ obj_names type → pipe_free a.2 = true) →
  (∀ name, (KInputObject, name) ∈ obj_names type →
           patchTags_of build name ≠ Some TagTrue) →
  Precomputed.populatePatchMap build type pm0 = Some pm →
  inv V pm0 →
  ∃ V', (∀ N, N ∈ V' ↔ N ∈ V ∨ (KInputObject, N) ∈ obj_names type)
        ∧ inv V' pm.
Proof.
  induction type as [ofType IH|ofType IH|kind name fields IH|name]
    using GqlType_induction; intros V pm0 pm Hpipe Hbare Hpop Hinv.
  - by apply (IH V pm0).
  - by apply (IH V pm0).
  - simpl in Hpop. apply bind_Some in Hpop as (stored & Hstore & Hfields).
    assert (∃ V1, (∀ N, N ∈ V1 ↔ N ∈ V ∨ (KInputObject, N) = (kind, name))
                  ∧ inv V1 stored) as (V1 & HV1 & Hinv1).
    { destruct kind; simpl in Hstore.
      - exists (name :: V). split.
        + intros N. rewrite elem_of_cons. naive_solver.
        + eapply inv_store; [|by apply Hbare; left|done|done].
          apply (Hpipe (KInputObject, name)). left.
      - injection Hstore as <-. exists V. split; [naive_solver|done].
      - injection Hstore as <-. exists V. split; [naive_solver|done]. }
    assert (∃ V', (∀ N, N ∈ V' ↔
                        N ∈ V1 ∨ (KInputObject, N)
                                 ∈ flat_map (λ f, obj_names f.2) fields)
                  ∧ inv V' pm) as (V' & HV' & Hinv').
    { assert (∀ a, a ∈ flat_map (λ f, obj_names f.2) fields
                   → pipe_free a.2 = true) as Hpipe'
        by (intros a Ha; apply Hpipe; by right).
      assert (∀ n, (KInputObject, n) ∈ flat_map (λ f, obj_names f.2) fields
                   → patchTags_of build n ≠ Some TagTrue) as Hbare'
        by (intros n Hn; apply Hbare; by right).
      clear Hstore HV1 Hpipe Hbare Hinv.
      revert V1 stored Hfields Hinv1.
      induction IH as [|[n ft] fields IHft _ IHfields];
        intros V1 stored Hfields Hinv1.
      - injection Hfields as <-. exists V1. split; [|done].
        intros N. simpl. rewrite elem_of_nil. naive_solver.
      - rewrite reduce_cons in Hfields.
        apply bind_Some in Hfields as (pm1 & Hft & Hrest). simpl in Hft.
        destruct (IHft V1 stored pm1) as (V2 & HV2 & Hinv2); [..|done|done|].
        { intros a Ha. apply Hpipe'. simpl. apply elem_of_app. by left. }
        { intros a Ha. apply Hbare'. simpl. apply elem_of_app. by left. }
        destruct (IHfields) with (V1 := V2) (stored := pm1)
          as (V3 & HV3 & Hinv3); [..|done|done|].
        { intros a Ha. apply Hpipe'. simpl. apply elem_of_app. by right. }
        { intros a Ha. apply Hbare'. simpl. apply elem_of_app. by right. }
        exists V3. split; [|done]. intros N. rewrite HV3, HV2. simpl.
        rewrite elem_of_app. naive_solver. }
    exists V'. split; [|done]. intros N. rewrite HV', HV1. simpl.
    rewrite elem_of_cons. naive_solver.
  - injection Hpop as <-. exists V. split; [|done].
    intros N. simpl. rewrite elem_of_nil. naive_solver.
Qed.

(** On a graph with consistent names and no bare tag, the map that
    [populatePatchMap] builds from the empty map holds, for each
    object-like type of the graph, the per-call map of that type. *)
Lemma populate_agrees type pm :
  consistent_names type = true →
  no_bare_tag build type = true →
  Precomputed.populatePatchMap build type ∅ = Some pm →
  ∀ kind name, (kind, name) ∈ obj_names type →
    ∃ m : gmap string (option PgClass),
      PerCall.patchArgAndTableMap build kind name = Some m
      ∧ ∀ arg, pm !! getKey name arg = m !! arg.
Proof.
  intros [Hpipe Hkinds]%andb_true_iff Hbare Hpop kind name Hin.
  unfold no_bare_tag in Hbare.
  rewrite forallb_forall in Hpipe, Hkinds, Hbare.
  destruct (inv_populate type [] ∅ pm) as (V & HV & Hinv); [..|done| |].
  { intros a Ha. by apply Hpipe, list_elem_of_In. }
  { intros n Hn E. specialize (Hbare _ (proj1 (list_elem_of_In _ _) Hn)).
    simpl in Hbare. by rewrite E in Hbare. }
  { intros N HN. split; [by intros ?%elem_of_nil|].
    intros _ a. apply lookup_empty. }
  assert (pipe_free name = true) as Hname
    by apply (Hpipe (kind, name)), list_elem_of_In, Hin.
  destruct (Hinv name Hname) as [Hsome Hnone].
  destruct (decide (kind = KInputObject)) as [->|Hkind].
  - apply Hsome, HV. by right.
  - exists ∅. split; [by destruct kind|].
    intros arg. rewrite lookup_empty. apply Hnone. rewrite HV.
    intros [?%elem_of_nil|Hinput]; [done|].
    specialize (Hkinds _ (proj1 (list_elem_of_In _ _) Hin)).
    rewrite forallb_forall in Hkinds.
    specialize (Hkinds _ (proj1 (list_elem_of_In _ _) Hinput)).
    simpl in Hkinds. rewrite String.eqb_refl in Hkinds. simpl in Hkinds.
    by destruct kind.
Qed.


End Populate.

(** ** The rewrite in place *)

Lemma JsValue_induction (P : JsValue → Prop)
    (Hundefined : P JUndefined) (Hnull : P JNull)
    (Hbool : ∀ b, P (JBool b)) (Hnum : ∀ n, P (JNum n))
    (Hstr : ∀ s, P (JStr s))
    (Harr : ∀ items, Forall P items → P (JArr items))
    (Hobj : ∀ props, Forall (λ p, P p.2) props → P (JObj props)) :
  ∀ v, P v.
Proof.
  fix IH 1.
  intros [| |b|n|s|items|props];
    [exact Hundefined|exact Hnull|apply Hbool|apply Hnum|apply Hstr|..].
  - apply Harr. induction items as [|x items IHi]; constructor.
    + apply IH.
    + apply IHi.
  - apply Hobj. induction props as [|[k x] props IHp]; constructor.
    + apply IH.
    + apply IHp.
Qed.

Lemma assoc_app {A} k (l1 l2 : list (string * A)) :
  assoc k (l1 ++ l2)
  = match assoc k l1 with Some x => Some x | None => assoc k l2 end.
Proof.
  induction l1 as [|[k' y] l1 IH]; simpl; [done|].
  by destruct (String.eqb k' k).
Qed.

Lemma assoc_Forall2 {A B} (Q : A → B → Prop) (l1 : list (string * A))
    (l2 : list (string * B)) k :
  Forall2 (λ p q, p.1 = q.1 ∧ Q p.2 q.2) l1 l2 →
  option_Forall2 Q (assoc k l1) (assoc k l2).
Proof.
  induction 1 as [|[k1 x] [k2 y] l1 l2 [Hk HQ] _ IH]; simpl; [constructor|].
  simpl in Hk, HQ. subst k2.
  destruct (String.eqb k1 k); [by constructor|done].
Qed.

Section Stores.

Local Abbreviation Val := InPlace.Val.
Local Abbreviation Heap := InPlace.Heap.
Local Abbreviation VUndefined := InPlace.VUndefined.
Local Abbreviation VNull := InPlace.VNull.
Local Abbreviation VBool := InPlace.VBool.
Local Abbreviation VNum := InPlace.VNum.
Local Abbreviation VStr := InPlace.VStr.
Local Abbreviation VRef := InPlace.VRef.
Local Abbreviation VBuiltin := InPlace.VBuiltin.
Local Abbreviation CArr := InPlace.CArr.
Local Abbreviation CObj := InPlace.CObj.
Local Abbreviation cover := InPlace.cover.
Local Abbreviation cover_list := InPlace.cover_list.
Local Abbreviation entry_cover := InPlace.entry_cover.
Local Abbreviation covers := InPlace.covers.
Local Abbreviation covers_entries := InPlace.covers_entries.
Local Abbreviation in_place_post := InPlace.post.

Implicit Types (h : Heap) (t : JsValue) (v : Val) (ls : list nat).

Lemma cover_list_cons {A B} (f : A → B → option (list nat)) x xs y ys :
  cover_list f (x :: xs) (y :: ys)
  = a ← f x y; b ← cover_list f xs ys; Some (a ++ b).
Proof. done. Qed.

Lemma cover_list_Forall2 {A B} (f : A → B → option (list nat))
    (P : nat → Prop) (xs : list A) (ys : list B) :
  (∃ ls, cover_list f xs ys = Some ls ∧ ∀ l, l ∈ ls → P l)
  ↔ Forall2 (λ x y, ∃ ls, f x y = Some ls ∧ ∀ l, l ∈ ls → P l) xs ys.
Proof.
  revert ys. induction xs as [|x xs IH]; intros [|y ys]; simpl.
  - split; [constructor|]. intros _. exists []. split; [done|].
    by intros l ?%elem_of_nil.
  - split; [by intros (? & ? & _)|inversion 1].
  - split; [by intros (? & ? & _)|inversion 1].
  - split.
    + intros (ls & Hls & HP).
      destruct (f x y) as [a|] eqn:Ha; [|done]. simpl in Hls.
      destruct (cover_list f xs ys) as [b|] eqn:Hb; [|done].
      injection Hls as <-. constructor.
      * exists a. split; [done|]. intros l Hl. apply HP, elem_of_app. by left.
      * apply IH. exists b. split; [done|].
        intros l Hl. apply HP, elem_of_app. by right.
    + inversion 1 as [|? ? ? ? (a & Ha & HPa) Hrest]; subst.
      apply IH in Hrest as (b & Hb & HPb). exists (a ++ b).
      rewrite Ha. simpl. rewrite Hb. split; [done|].
      intros l [?|?]%elem_of_app; auto.
Qed.

Lemma cover_list_length {A B} (f : A → B → option (list nat))
    (xs : list A) (ys : list B) ls :
  cover_list f xs ys = Some ls → length xs = length ys.
Proof.
  revert ys ls. induction xs as [|x xs IH]; intros [|y ys] ls; simpl;
    try done.
  destruct (f x y); [|done]. simpl.
  destruct (cover_list f xs ys) eqn:E; [|done]. intros _.
  f_equal. by eapply IH.
Qed.

(** The object case of [cover]. *)
Lemma cover_object h tprops l ls :
  cover h (JObj tprops) (VRef l) = Some ls
  ↔ ∃ props ls0,
      h !! l = Some (CObj props) ∧ NoDup props.*1
      ∧ cover_list (entry_cover (cover h)) tprops props = Some ls0
      ∧ ls = l :: ls0.
Proof.
  simpl. split.
  - destruct (h !! l) as [[items|props]|]; try done.
    case_bool_decide as Hnd; [|done].
    destruct (cover_list (entry_cover (cover h)) tprops props) as [ls0|] eqn:E;
      [|done].
    intros [= <-]. by exists props, ls0.
  - intros (props & ls0 & -> & Hnd & Hcov & ->).
    rewrite bool_decide_eq_true_2 by done.
    by rewrite Hcov.
Qed.

Lemma cover_array h titems l ls :
  cover h (JArr titems) (VRef l) = Some ls
  ↔ ∃ items ls0,
      h !! l = Some (CArr items)
      ∧ cover_list (cover h) titems items = Some ls0
      ∧ ls = l :: ls0.
Proof.
  simpl. split.
  - destruct (h !! l) as [[items|props]|]; try done.
    destruct (cover_list (cover h) titems items) as [ls0|] eqn:E; [|done].
    intros [= <-]. by exists items, ls0.
  - intros (items & ls0 & -> & Hcov & ->). by rewrite Hcov.
Qed.

Lemma entry_cover_cons f k x tprops k' y props :
  cover_list (entry_cover f) ((k, x) :: tprops) ((k', y) :: props)
  = if String.eqb k k'
    then a ← f x y; b ← cover_list (entry_cover f) tprops props;
         Some (a ++ b)
    else None.
Proof.
  rewrite cover_list_cons.
  change (entry_cover f (k, x) (k', y))
    with (if String.eqb k k' then f x y else None).
  by destruct (String.eqb k k').
Qed.

Lemma entry_cover_keys f tprops props ls :
  cover_list (entry_cover f) tprops props = Some ls → tprops.*1 = props.*1.
Proof.
  revert props ls. induction tprops as [|[k x] tprops IH];
    intros [|[k' y] props] ls; try done.
  rewrite entry_cover_cons.
  destruct (String.eqb k k') eqn:Hk; [|done].
  apply String.eqb_eq in Hk as ->.
  destruct (f x y); [|done]. simpl.
  destruct (cover_list (entry_cover f) tprops props) eqn:E; [|done].
  intros _. f_equal. by eapply IH.
Qed.

(** The addresses of a value are cells of the store. *)
Lemma cover_lt h t : ∀ v ls,
  cover h t v = Some ls → ∀ l, l ∈ ls → (l < length h)%nat.
Proof.
  induction t as [| | | | |titems IH|tprops IH] using JsValue_induction;
    intros v ls Hcov l Hl.
  - destruct v; try done. injection Hcov as <-. by apply elem_of_nil in Hl.
  - destruct v; try done. injection Hcov as <-. by apply elem_of_nil in Hl.
  - destruct v; try done. simpl in Hcov. case_bool_decide; [|done].
    injection Hcov as <-. by apply elem_of_nil in Hl.
  - destruct v; try done. simpl in Hcov. case_bool_decide; [|done].
    injection Hcov as <-. by apply elem_of_nil in Hl.
  - destruct v; try done. simpl in Hcov. case_bool_decide; [|done].
    injection Hcov as <-. by apply elem_of_nil in Hl.
  - destruct v as [| | | | |l0|]; try done.
    apply cover_array in Hcov as (items & ls0 & Hcell & Hcov & ->).
    apply elem_of_cons in Hl as [->|Hl].
    { by eapply lookup_lt_Some. }
    clear Hcell. revert items ls0 Hcov Hl.
    induction IH as [|x titems IHx _ IHrest]; intros [|y items] ls0; try done.
    { intros [= <-] ?%elem_of_nil. done. }
    rewrite cover_list_cons.
    destruct (cover h x y) as [a|] eqn:Ha; [|done]. simpl.
    destruct (cover_list (cover h) titems items) as [b|] eqn:Hb; [|done].
    intros [= <-] [?|?]%elem_of_app; [by eapply IHx|by eapply IHrest].
  - destruct v as [| | | | |l0|]; try done.
    + apply cover_object in Hcov as (props & ls0 & Hcell & _ & Hcov & ->).
      apply elem_of_cons in Hl as [->|Hl].
      { by eapply lookup_lt_Some. }
      clear Hcell. revert props ls0 Hcov Hl.
      induction IH as [|[k x] tprops IHx _ IHrest];
        intros [|[k' y] props] ls0; try done.
      { intros [= <-] ?%elem_of_nil. done. }
      rewrite entry_cover_cons.
      destruct (String.eqb k k'); [|done].
      destruct (cover h x y) as [a|] eqn:Ha; [|done]. simpl.
      destruct (cover_list _ tprops props) as [b|] eqn:Hb; [|done].
      intros [= <-] [?|?]%elem_of_app; [by eapply IHx|by eapply IHrest].
    + simpl in Hcov. destruct tprops; [|done]. injection Hcov as <-.
      by apply elem_of_nil in Hl.
Qed.

(** A value unfolds as before in a store that kept its cells. *)
Lemma cover_frame h h' t : ∀ v ls,
  cover h t v = Some ls → (∀ l, l ∈ ls → h' !! l = h !! l) →
  cover h' t v = Some ls.
Proof.
  induction t as [| | | | |titems IH|tprops IH] using JsValue_induction;
    intros v ls Hcov Hsame; try done.
  - destruct v as [| | | | |l0|]; try done.
    apply cover_array in Hcov as (items & ls0 & Hcell & Hcov & ->).
    apply cover_array. exists items, ls0.
    split_and!; [by rewrite Hsame by left| |done].
    assert (∀ l, l ∈ ls0 → h' !! l = h !! l) as Hsame0
      by (intros; apply Hsame; by right).
    clear Hcell Hsame. revert items ls0 Hcov Hsame0.
    induction IH as [|x titems IHx _ IHrest]; intros [|y items] ls0; try done.
    rewrite !cover_list_cons.
    destruct (cover h x y) as [a|] eqn:Ha; [|done]. simpl.
    destruct (cover_list (cover h) titems items) as [b|] eqn:Hb; [|done].
    intros [= <-] Hsame.
    rewrite (IHx y a Ha) by (intros; apply Hsame, elem_of_app; by left).
    simpl.
    rewrite (IHrest items b Hb)
      by (intros; apply Hsame, elem_of_app; by right).
    done.
  - destruct v as [| | | | |l0|]; try done.
    apply cover_object in Hcov as (props & ls0 & Hcell & Hnd & Hcov & ->).
    apply cover_object. exists props, ls0.
    split_and!; [by rewrite Hsame by left|done| |done].
    assert (∀ l, l ∈ ls0 → h' !! l = h !! l) as Hsame0
      by (intros; apply Hsame; by right).
    clear Hcell Hsame Hnd. revert props ls0 Hcov Hsame0.
    induction IH as [|[k x] tprops IHx _ IHrest];
      intros [|[k' y] props] ls0; try done.
    rewrite !entry_cover_cons. simpl in IHx.
    destruct (String.eqb k k'); [|done].
    destruct (cover h x y) as [a|] eqn:Ha; [|done]. simpl.
    destruct (cover_list _ tprops props) as [b|] eqn:Hb; [|done].
    intros [= <-] Hsame.
    rewrite (IHx y a Ha) by (intros; apply Hsame, elem_of_app; by left).
    simpl.
    rewrite (IHrest props b Hb)
      by (intros; apply Hsame, elem_of_app; by right).
    done.
Qed.

Lemma covers_mono h t v (P Q : nat → Prop) :
  (∀ l, P l → Q l) → covers h t v P → covers h t v Q.
Proof. intros HPQ (ls & Hcov & HP). exists ls. split; [done|]. auto. Qed.

Lemma covers_frame h h' t v (P : nat → Prop) :
  covers h t v P →
  (∀ l, P l → (l < length h)%nat → h' !! l = h !! l) →
  covers h' t v P.
Proof.
  intros (ls & Hcov & HP) Hsame. exists ls. split; [|done].
  apply (cover_frame h); [done|].
  intros l Hl. apply Hsame; [by apply HP|]. by eapply cover_lt.
Qed.

Lemma covers_entries_cover h P tprops props :
  (∃ ls, cover_list (entry_cover (cover h)) tprops props = Some ls
         ∧ ∀ l, l ∈ ls → P l)
  ↔ covers_entries h tprops props P.
Proof.
  rewrite cover_list_Forall2. unfold covers_entries.
  split; intros H; eapply Forall2_impl; [exact H| |exact H|].
  - intros [k x] [k' y] (ls & Hcov & HP). unfold entry_cover in Hcov.
    simpl in *. destruct (String.eqb_spec k k'); [|done].
    split; [done|]. by exists ls.
  - intros [k x] [k' y] [Hk (ls & Hcov & HP)]. simpl in *. subst k'.
    exists ls. unfold entry_cover. simpl. by rewrite String.eqb_refl.
Qed.

Lemma covers_items_cover h P titems items :
  (∃ ls, cover_list (cover h) titems items = Some ls ∧ ∀ l, l ∈ ls → P l)
  ↔ Forall2 (λ t v, covers h t v P) titems items.
Proof. apply cover_list_Forall2. Qed.

Lemma covers_entries_keys h P tprops props :
  covers_entries h tprops props P → tprops.*1 = props.*1.
Proof.
  induction 1 as [|[k x] [k' y] tprops props [Hk _] _ IH]; [done|].
  simpl in *. by f_equal.
Qed.

Lemma covers_object h tprops l (P : nat → Prop) :
  covers h (JObj tprops) (VRef l) P
  ↔ ∃ props,
      h !! l = Some (CObj props) ∧ NoDup props.*1 ∧ P l
      ∧ covers_entries h tprops props P.
Proof.
  split.
  - intros (ls & (props & ls0 & Hcell & Hnd & Hcov & ->)%cover_object & HP).
    exists props. split_and!; [done|done|apply HP; left|].
    apply covers_entries_cover. exists ls0. split; [done|].
    intros l' Hl'. apply HP. by right.
  - intros (props & Hcell & Hnd & Hl & (ls0 & Hcov & HP)%covers_entries_cover).
    exists (l :: ls0). split.
    + apply cover_object. by exists props, ls0.
    + intros l' [->|?]%elem_of_cons; auto.
Qed.

Lemma covers_array h titems l (P : nat → Prop) :
  covers h (JArr titems) (VRef l) P
  ↔ ∃ items,
      h !! l = Some (CArr items) ∧ P l
      ∧ Forall2 (λ t v, covers h t v P) titems items.
Proof.
  split.
  - intros (ls & (items & ls0 & Hcell & Hcov & ->)%cover_array & HP).
    exists items. split_and!; [done|apply HP; left|].
    apply covers_items_cover. exists ls0. split; [done|].
    intros l' Hl'. apply HP. by right.
  - intros (items & Hcell & Hl & (ls0 & Hcov & HP)%covers_items_cover).
    exists (l :: ls0). split.
    + apply cover_array. by exists items, ls0.
    + intros l' [->|?]%elem_of_cons; auto.
Qed.

Lemma covers_builtin h P : covers h builtin VBuiltin P.
Proof. exists []. split; [done|]. by intros l ?%elem_of_nil. Qed.

Lemma covers_undefined h P : covers h JUndefined VUndefined P.
Proof. exists []. split; [done|]. by intros l ?%elem_of_nil. Qed.

Lemma covers_entries_obj_set h P tobj obj k x y :
  covers_entries h tobj obj P → covers h x y P →
  covers_entries h (obj_set k x tobj) (obj_set k y obj) P.
Proof.
  intros Hobj Hxy.
  induction Hobj as [|[k1 x1] [k2 y1] tobj obj [Hk H1] Hrest IH]; simpl.
  - constructor; [by split|constructor].
  - simpl in Hk, H1. subst k2. destruct (String.eqb k1 k).
    + constructor; [by split|done].
    + constructor; [by split|done].
Qed.

Lemma covers_entries_inherited h P names :
  covers_entries h (inherited names) (InPlace.inherited names) P.
Proof.
  induction names as [|k names IH]; [constructor|].
  constructor; [|done]. split; [done|]. apply covers_builtin.
Qed.

Lemma has_key_covers h P tprops props k :
  covers_entries h tprops props P → has_key k tprops = has_key k props.
Proof.
  intros H. unfold has_key.
  by destruct (assoc_Forall2 (λ x y, covers h x y P) _ _ k H).
Qed.

Lemma assoc_covers h P tprops props k :
  covers_entries h tprops props P →
  covers h (default JUndefined (assoc k tprops))
           (default VUndefined (assoc k props)) P.
Proof.
  intros H.
  destruct (assoc_Forall2 (λ x y, covers h x y P) _ _ k H); simpl; [done|].
  apply covers_undefined.
Qed.

Lemma Forall2_imap {A B} (R : A → B → Prop) xs ys : ∀ g : nat → string,
  Forall2 R xs ys →
  Forall2 (λ p q, p.1 = q.1 ∧ R p.2 q.2)
          (imap (λ i x, (g i, x)) xs) (imap (λ i y, (g i, y)) ys).
Proof.
  intros g H. revert g.
  induction H as [|x y xs ys Hxy _ IH]; intros g; simpl; constructor.
  - by split.
  - apply (IH (g ∘ S)).
Qed.

Lemma covers_entries_app h P tps1 tps2 ps1 ps2 :
  covers_entries h tps1 ps1 P → covers_entries h tps2 ps2 P →
  covers_entries h (tps1 ++ tps2) (ps1 ++ ps2) P.
Proof. apply Forall2_app. Qed.

Lemma covers_properties h P (R : Realm) tprops props :
  covers_entries h tprops props P →
  covers_entries h (properties R tprops) (InPlace.properties R props) P.
Proof.
  intros H. apply covers_entries_app; [done|].
  apply covers_entries_inherited.
Qed.

Lemma covers_array_properties h P (R : Realm) titems items :
  Forall2 (λ t v, covers h t v P) titems items →
  covers_entries h (array_properties R titems)
                 (InPlace.array_properties R items) P.
Proof.
  intros H. apply covers_entries_app.
  - by apply (Forall2_imap (λ t v, covers h t v P)).
  - apply covers_entries_inherited.
Qed.

(** [in] and the property read see the same in the store and in the
    tree. *)
Lemma js_in_covers (R : Realm) h P k t v :
  covers h t v P → js_in R k t = InPlace.js_in R h k v.
Proof.
  intros Hcov. destruct t as [| |b|n|s|titems|tprops].
  - destruct Hcov as (ls & Hcov & _). by destruct v.
  - destruct Hcov as (ls & Hcov & _). by destruct v.
  - destruct Hcov as (ls & Hcov & _). by destruct v.
  - destruct Hcov as (ls & Hcov & _). by destruct v.
  - destruct Hcov as (ls & Hcov & _). by destruct v.
  - destruct v as [| | | | |l|]; try by destruct Hcov as (ls & ? & _).
    apply covers_array in Hcov as (items & Hcell & _ & Hitems).
    simpl. rewrite Hcell. do 2 f_equal.
    by apply (has_key_covers h P), covers_array_properties.
  - destruct v as [| | | | |l|]; try by destruct Hcov as (ls & ? & _).
    + apply covers_object in Hcov as (props & Hcell & _ & _ & Hprops).
      simpl. rewrite Hcell. f_equal.
      by apply (has_key_covers h P), covers_properties.
    + destruct Hcov as (ls & Hcov & _). simpl in Hcov.
      destruct tprops; [|done]. simpl. f_equal.
      apply (has_key_covers h P), covers_properties. constructor.
Qed.

Lemma js_get_covers (R : Realm) h P k t v :
  covers h t v P → covers h (js_get R t k) (InPlace.js_get R h v k) P.
Proof.
  intros Hcov. destruct t as [| |b|n|s|titems|tprops].
  - destruct Hcov as (ls & Hcov & _). destruct v; try done.
    apply covers_undefined.
  - destruct Hcov as (ls & Hcov & _). destruct v; try done.
    apply covers_undefined.
  - destruct Hcov as (ls & Hcov & _). destruct v; try done.
    apply covers_undefined.
  - destruct Hcov as (ls & Hcov & _). destruct v; try done.
    apply covers_undefined.
  - destruct Hcov as (ls & Hcov & _). destruct v; try done.
    apply covers_undefined.
  - destruct v as [| | | | |l|]; try by destruct Hcov as (ls & ? & _).
    apply covers_array in Hcov as (items & Hcell & _ & Hitems).
    simpl. rewrite Hcell. rewrite (Forall2_length _ _ _ Hitems).
    destruct (String.eqb k "length").
    + exists []. simpl. rewrite bool_decide_eq_true_2 by done.
      split; [done|]. by intros l' ?%elem_of_nil.
    + by apply assoc_covers, covers_array_properties.
  - destruct v as [| | | | |l|]; try by destruct Hcov as (ls & ? & _).
    + apply covers_object in Hcov as (props & Hcell & _ & _ & Hprops).
      simpl. rewrite Hcell. by apply assoc_covers, covers_properties.
    + destruct Hcov as (ls & Hcov & _). simpl in Hcov.
      destruct tprops; [|done]. simpl.
      apply (assoc_covers h P (properties R []) (InPlace.properties R [])).
      apply covers_properties. constructor.
Qed.

Section NewJsonInPlace.
Context (build : Build).

Lemma add_column_covers h P tval val attr tobj obj :
  covers h tval val P → covers_entries h tobj obj P → NoDup obj.*1 →
  match add_column build tval tobj attr with
  | Some tobj' =>
      ∃ obj',
        InPlace.add_column build val h obj attr = Some obj'
        ∧ covers_entries h tobj' obj' P ∧ NoDup obj'.*1
  | None => InPlace.add_column build val h obj attr = None
  end.
Proof.
  intros Hval Hobj Hnd. unfold add_column, InPlace.add_column.
  rewrite <- (js_in_covers (realm build) h P _ tval val Hval).
  destruct (js_in (realm build) (column (inflection build) attr) tval)
    as [present|]; simpl; [|done].
  eexists. split; [done|]. destruct present; [|done]. split.
  - apply covers_entries_obj_set; [done|]. by apply js_get_covers.
  - by apply NoDup_obj_set.
Qed.

Lemma add_columns_covers h P tval val attrs :
  covers h tval val P →
  ∀ tobj obj,
    covers_entries h tobj obj P → NoDup obj.*1 →
    match reduce (add_column build tval) tobj attrs with
    | Some tobj' =>
        ∃ obj',
          reduce (InPlace.add_column build val h) obj attrs = Some obj'
          ∧ covers_entries h tobj' obj' P ∧ NoDup obj'.*1
    | None => reduce (InPlace.add_column build val h) obj attrs = None
    end.
Proof.
  intros Hval. induction attrs as [|attr attrs IH]; intros tobj obj Hobj Hnd.
  { simpl. by exists obj. }
  rewrite !reduce_cons.
  pose proof (add_column_covers h P tval val attr tobj obj Hval Hobj Hnd)
    as Hstep.
  destruct (add_column build tval tobj attr) as [tobj'|].
  - destruct Hstep as (obj' & -> & Hobj' & Hnd'). simpl. by apply IH.
  - by rewrite Hstep.
Qed.

(** [newJson] builds in the store the object it builds as a tree. *)
Lemma newJson_covers h P table tval val :
  covers h tval val P →
  match newJson build table tval with
  | Some json =>
      ∃ jt jh,
        json = JObj jt ∧ InPlace.newJson build table val h = Some jh
        ∧ covers_entries h jt jh P ∧ NoDup jh.*1
  | None => InPlace.newJson build table val h = None
  end.
Proof.
  intros Hval. unfold newJson, InPlace.newJson.
  destruct table as [T|]; simpl; [|done].
  pose proof (add_columns_covers h P tval val (attributes T) Hval [] []
                ltac:(constructor) ltac:(constructor)) as H.
  destruct (reduce (add_column build tval) [] (attributes T)) as [jt|];
    simpl; [|done].
  destruct H as (jh & Hjh & Hcov & Hnd). by exists jt, jh.
Qed.
End NewJsonInPlace.

Lemma cover_list_transfer {A B} (f g : A → B → option (list nat))
    (xs : list A) (ys : list B) ls :
  cover_list f xs ys = Some ls →
  (∀ x y a, f x y = Some a → (∀ l, l ∈ a → l ∈ ls) → g x y = Some a) →
  cover_list g xs ys = Some ls.
Proof.
  revert ys ls. induction xs as [|x xs IH]; intros [|y ys] ls; try done.
  rewrite !cover_list_cons.
  destruct (f x y) as [a|] eqn:Ha; [|done]. simpl.
  destruct (cover_list f xs ys) as [b|] eqn:Hb; [|done].
  intros [= <-] Hfg.
  rewrite (Hfg x y a Ha) by (intros; apply elem_of_app; by left). simpl.
  rewrite (IH ys b Hb); [done|].
  intros x' y' a' Hf Hsub. apply Hfg; [done|].
  intros l Hl. apply elem_of_app. right. by apply Hsub.
Qed.

Lemma cover_list_all {A B} (f : A → B → option (list nat)) (Q : nat → Prop)
    (xs : list A) (ys : list B) ls :
  cover_list f xs ys = Some ls →
  (∀ x y a, f x y = Some a → ∀ l, l ∈ a → Q l) →
  ∀ l, l ∈ ls → Q l.
Proof.
  revert ys ls. induction xs as [|x xs IH]; intros [|y ys] ls; try done.
  { intros [= <-] _ l ?%elem_of_nil. done. }
  rewrite cover_list_cons.
  destruct (f x y) as [a|] eqn:Ha; [|done]. simpl.
  destruct (cover_list f xs ys) as [b|] eqn:Hb; [|done].
  intros [= <-] Hf l [?|?]%elem_of_app; [by eapply Hf|by eapply IH].
Qed.

Lemma cover_items_frame h h' titems items ls :
  cover_list (cover h) titems items = Some ls →
  (∀ l, l ∈ ls → h' !! l = h !! l) →
  cover_list (cover h') titems items = Some ls.
Proof.
  intros Hcov Hsame. apply (cover_list_transfer (cover h)); [done|].
  intros t v a Ha Hsub. apply (cover_frame h); [done|]. auto.
Qed.

Lemma cover_items_lt h titems items ls :
  cover_list (cover h) titems items = Some ls →
  ∀ l, l ∈ ls → (l < length h)%nat.
Proof.
  intros Hcov. apply (cover_list_all (cover h) _ _ _ _ Hcov).
  intros t v a Ha. by apply (cover_lt h t v).
Qed.

Lemma cover_entries_frame h h' tprops props ls :
  cover_list (entry_cover (cover h)) tprops props = Some ls →
  (∀ l, l ∈ ls → h' !! l = h !! l) →
  cover_list (entry_cover (cover h')) tprops props = Some ls.
Proof.
  intros Hcov Hsame.
  apply (cover_list_transfer (entry_cover (cover h))); [done|].
  intros [k x] [k' y] a Ha Hsub. unfold entry_cover in *. simpl in *.
  destruct (String.eqb k k'); [|done].
  apply (cover_frame h); [done|]. auto.
Qed.

Lemma cover_entries_lt h tprops props ls :
  cover_list (entry_cover (cover h)) tprops props = Some ls →
  ∀ l, l ∈ ls → (l < length h)%nat.
Proof.
  intros Hcov. apply (cover_list_all (entry_cover (cover h)) _ _ _ _ Hcov).
  intros [k x] [k' y] a Ha. unfold entry_cover in Ha. simpl in Ha.
  destruct (String.eqb k k'); [|done]. by apply (cover_lt h x y).
Qed.

Section InPlaceUnshared.
Context (build : Build) (pm : gmap string (option PgClass)).

Local Abbreviation simulates := (InPlace.simulates build pm).

Lemma in_place_list_loop ofType :
  simulates ofType →
  ∀ titems items h ls,
    cover_list (cover h) titems items = Some ls → NoDup ls →
    match mapM (Precomputed.transform build pm ofType) titems with
    | Some titems' =>
        ∃ h',
          reduce (λ h x, InPlace.transform build pm ofType x h) h items
          = Some h'
          ∧ (length h ≤ length h')%nat
          ∧ (∀ l, (l < length h)%nat → l ∉ ls → h' !! l = h !! l)
          ∧ Forall2 (λ t v, covers h' t v
                              (λ l', l' ∈ ls ∨ (length h ≤ l')%nat))
                    titems' items
    | None =>
        reduce (λ h x, InPlace.transform build pm ofType x h) h items = None
    end.
Proof.
  intros Hsim. induction titems as [|t titems IH];
    intros [|v items] h ls Hcov Hnd; try done.
  { simpl. exists h. split_and!; [done|done|done|constructor]. }
  rewrite cover_list_cons in Hcov.
  destruct (cover h t v) as [a|] eqn:Ha; [|done]. simpl in Hcov.
  destruct (cover_list (cover h) titems items) as [b|] eqn:Hb; [|done].
  injection Hcov as <-.
  apply NoDup_app in Hnd as (Hnda & Hdisj & Hndb).
  rewrite reduce_cons. cbn [mapM].
  pose proof (Hsim t v h a Ha Hnda) as Hstep.
  destruct (Precomputed.transform build pm ofType t) as [t'|];
    [|by rewrite Hstep].
  destruct Hstep as (h1 & -> & Hlen1 & Hframe1 & Hcov1).
  cbn [mbind option_bind].
  assert (∀ l, l ∈ b → (l < length h)%nat) as Hblt
    by (by apply (cover_items_lt h titems items)).
  assert (cover_list (cover h1) titems items = Some b) as Hb1.
  { apply (cover_items_frame h); [done|]. intros l Hl.
    apply Hframe1; [by apply Hblt|]. intros Hla. by apply (Hdisj l). }
  specialize (IH items h1 b Hb1 Hndb).
  destruct (mapM (Precomputed.transform build pm ofType) titems)
    as [titems'|]; [|done].
  destruct IH as (h2 & Hred & Hlen2 & Hframe2 & Hcov2).
  simpl. exists h2. split_and!; [done|lia| |].
  - intros l Hl Hnin. rewrite elem_of_app in Hnin.
    rewrite Hframe2 by (first [lia|tauto]). apply Hframe1; [done|tauto].
  - constructor.
    + eapply covers_mono; [|eapply covers_frame; [exact Hcov1|]].
      * intros l [?|?]; [left; apply elem_of_app; by left|by right].
      * intros l Hl Hlt. apply Hframe2; [done|].
        intros Hlb. destruct Hl as [Hla|Hge].
        -- by apply (Hdisj l).
        -- apply Hblt in Hlb. lia.
    + eapply Forall2_impl; [exact Hcov2|]. intros t0 v0 Hc. simpl in Hc.
      eapply covers_mono; [|exact Hc].
      intros l [?|?]; [left; apply elem_of_app; by right|right; lia].
Qed.

Lemma precomputed_fields_eq kind name fields t :
  Precomputed.transform build pm (GFields kind name fields) t
  = if Array_isArray t then Some t
    else entries ← Object_entries t;
         reduce (Precomputed.transform_entry build pm name fields
                   (Precomputed.transform build pm))
                t entries.
Proof. done. Qed.

Lemma in_place_fields_eq kind name fields v h :
  InPlace.transform build pm (GFields kind name fields) v h
  = if InPlace.Array_isArray h v then Some h
    else entries ← InPlace.Object_entries h v;
         reduce (InPlace.transform_entry build pm name fields
                   (InPlace.transform build pm) v)
                h entries.
Proof. done. Qed.

Lemma app_snoc_cons {A} (front : list A) x rest :
  (front ++ [x]) ++ rest = front ++ x :: rest.
Proof. by rewrite <- app_assoc. Qed.

Lemma in_place_object_loop name fields l :
  Forall (λ f, simulates f.2) fields →
  ∀ todo_t todo_h front_t front_h h ls,
    h !! l = Some (CObj (front_h ++ todo_h)) →
    front_t.*1 = front_h.*1 →
    NoDup (front_h ++ todo_h).*1 →
    cover_list (entry_cover (cover h)) todo_t todo_h = Some ls →
    NoDup ls → l ∉ ls →
    match reduce (Precomputed.transform_entry build pm name fields
                    (Precomputed.transform build pm))
                 (JObj (front_t ++ todo_t)) todo_t with
    | Some r =>
        ∃ todo_t' todo_h' h',
          r = JObj (front_t ++ todo_t')
          ∧ reduce (InPlace.transform_entry build pm name fields
                      (InPlace.transform build pm) (VRef l))
                   h todo_h = Some h'
          ∧ (length h ≤ length h')%nat
          ∧ (∀ l', (l' < length h)%nat → l' ≠ l → l' ∉ ls →
                   h' !! l' = h !! l')
          ∧ h' !! l = Some (CObj (front_h ++ todo_h'))
          ∧ todo_h'.*1 = todo_h.*1
          ∧ covers_entries h' todo_t' todo_h'
              (λ l', l' ∈ ls ∨ (length h ≤ l')%nat)
    | None =>
        reduce (InPlace.transform_entry build pm name fields
                  (InPlace.transform build pm) (VRef l))
               h todo_h = None
    end.
Proof.
  intros Hfields.
  induction todo_t as [|[k xt] todo_t IH];
    intros [|[k' xh] todo_h] front_t front_h h ls Hcell Hkeys Hnd Hcov
           Hndls Hl; try done.
  { simpl. exists [], [], h. split_and!; try done. constructor. }
  rewrite entry_cover_cons in Hcov.
  destruct (String.eqb k k') eqn:Hk; [|done].
  apply String.eqb_eq in Hk as <-.
  destruct (cover h xt xh) as [a|] eqn:Ha; [|done]. simpl in Hcov.
  destruct (cover_list (entry_cover (cover h)) todo_t todo_h) as [b|] eqn:Hb;
    [|done].
  injection Hcov as <-.
  apply NoDup_app in Hndls as (Hnda & Hdisj & Hndb).
  rewrite elem_of_app in Hl.
  assert (k ∉ front_h.*1) as Hkfront.
  { rewrite fmap_app in Hnd. apply NoDup_app in Hnd as (_ & Hfresh & _).
    intros Hin. apply (Hfresh k Hin). left. }
  assert ((l < length h)%nat) as Hllt by (by eapply lookup_lt_Some).
  assert (∀ l', l' ∈ a → (l' < length h)%nat) as Halt
    by (by apply (cover_lt h xt xh)).
  assert (∀ l', l' ∈ b → (l' < length h)%nat) as Hblt
    by (by apply (cover_entries_lt h todo_t todo_h)).
  set (g := match pm !! getKey name k with
            | Some table => newJson build table xt
            | None =>
                with_field k (λ ft, Precomputed.transform build pm ft xt)
                           None fields
            end).
  assert (match g with
          | Some xt' =>
              ∃ hs yh,
                InPlace.transform_entry build pm name fields
                  (InPlace.transform build pm) (VRef l) h (k, xh) = Some hs
                ∧ (length h ≤ length hs)%nat
                ∧ (∀ l', (l' < length h)%nat → l' ≠ l → l' ∉ a →
                         hs !! l' = h !! l')
                ∧ hs !! l = Some (CObj (front_h ++ (k, yh) :: todo_h))
                ∧ covers hs xt' yh (λ l', l' ∈ a ∨ (length h ≤ l')%nat)
          | None =>
              InPlace.transform_entry build pm name fields
                (InPlace.transform build pm) (VRef l) h (k, xh) = None
          end) as Hstep.
  { subst g. unfold InPlace.transform_entry.
    destruct (pm !! getKey name k) as [table|].
    - pose proof (newJson_covers build h (λ l', l' ∈ a) table xt xh
                    (ex_intro _ a (conj Ha (λ l' H, H)))) as HJ.
      destruct (newJson build table xt) as [json|]; [|by rewrite HJ].
      destruct HJ as (jt & jh & -> & -> & Hjcov & Hjnd). simpl.
      unfold InPlace.assign. rewrite lookup_app_l by done. rewrite Hcell.
      rewrite obj_set_middle by done.
      eexists _, (VRef (length h)). split; [done|]. split_and!.
      + rewrite length_insert, length_app. simpl. lia.
      + intros l' Hl' Hne _. rewrite list_lookup_insert_ne by done.
        by rewrite lookup_app_l.
      + apply list_lookup_insert_eq. rewrite length_app. simpl. lia.
      + apply covers_object. exists jh. split_and!; [|done|right; lia|].
        * rewrite list_lookup_insert_ne by lia.
          by apply list_lookup_middle.
        * eapply Forall2_impl; [exact Hjcov|]. intros p q [Hpq Hc].
          split; [done|].
          apply (covers_mono _ _ _ (λ l', l' ∈ a)); [by left|].
          eapply covers_frame; [exact Hc|]. intros l' Hl' Hlt. simpl in Hl'.
          rewrite list_lookup_insert_ne by (intros ->; tauto).
          by rewrite lookup_app_l.
    - rewrite !with_field_assoc.
      destruct (assoc k fields) as [ft|] eqn:Hft; [|done].
      assert (simulates ft) as Hsim.
      { rewrite Forall_forall in Hfields. apply (Hfields (k, ft)).
        by apply assoc_elem_of. }
      pose proof (Hsim xt xh h a Ha Hnda) as Hs.
      destruct (Precomputed.transform build pm ft xt) as [xt'|]; [|done].
      destruct Hs as (h1 & Hh1 & Hlen & Hframe & Hc).
      exists h1, xh. split_and!; [done|done| | |done].
      + intros l' Hl' _ Hnin. by apply Hframe.
      + rewrite Hframe by tauto. done. }
  rewrite !reduce_cons.
  assert (Precomputed.transform_entry build pm name fields
            (Precomputed.transform build pm)
            (JObj (front_t ++ (k, xt) :: todo_t)) (k, xt)
          = x ← g; Some (JObj (front_t ++ (k, x) :: todo_t))) as ->.
  { subst g. unfold Precomputed.transform_entry.
    destruct (pm !! getKey name k) as [table|].
    - destruct (newJson build table xt); simpl; [|done].
      rewrite obj_set_middle; [done|by rewrite Hkeys].
    - destruct (with_field k _ None fields); simpl; [|done].
      rewrite obj_set_middle; [done|by rewrite Hkeys]. }
  destruct g as [xt'|]; cbn [mbind option_bind]; [|by rewrite Hstep].
  destruct Hstep as (hs & yh & -> & Hlens & Hframes & Hcells & Hcovs).
  cbn [mbind option_bind].
  pose proof (IH todo_h (front_t ++ [(k, xt')]) (front_h ++ [(k, yh)]) hs b)
    as IH'.
  rewrite !app_snoc_cons in IH'.
  assert (∀ l', l' ∈ b → hs !! l' = h !! l') as Hsameb.
  { intros l' Hl'. apply Hframes; [by apply Hblt| |].
    - intros ->. tauto.
    - intros Hla. by apply (Hdisj l'). }
  assert (match
            reduce (Precomputed.transform_entry build pm name fields
                      (Precomputed.transform build pm))
                   (JObj (front_t ++ (k, xt') :: todo_t)) todo_t
          with
          | Some r =>
              ∃ todo_t' todo_h' h',
                r = JObj (front_t ++ (k, xt') :: todo_t')
                ∧ reduce (InPlace.transform_entry build pm name fields
                            (InPlace.transform build pm) (VRef l))
                         hs todo_h = Some h'
                ∧ (length hs ≤ length h')%nat
                ∧ (∀ l', (l' < length hs)%nat → l' ≠ l → l' ∉ b →
                         h' !! l' = hs !! l')
                ∧ h' !! l = Some (CObj (front_h ++ (k, yh) :: todo_h'))
                ∧ todo_h'.*1 = todo_h.*1
                ∧ covers_entries h' todo_t' todo_h'
                    (λ l', l' ∈ b ∨ (length hs ≤ l')%nat)
          | None =>
              reduce (InPlace.transform_entry build pm name fields
                        (InPlace.transform build pm) (VRef l))
                     hs todo_h = None
          end) as Hrest.
  { specialize (IH' Hcells).
    destruct (reduce _ (JObj (front_t ++ (k, xt') :: todo_t)) todo_t).
    - destruct IH' as (todo_t' & todo_h' & h' & Hr & Hred & Hlen' & Hframe'
                       & Hcell' & Hrest).
      + by rewrite !fmap_app, Hkeys.
      + by rewrite fmap_app in Hnd |- *.
      + by apply (cover_entries_frame h).
      + done.
      + tauto.
      + rewrite app_snoc_cons in Hr. rewrite app_snoc_cons in Hcell'.
        by exists todo_t', todo_h', h'.
    - apply IH'.
      + by rewrite !fmap_app, Hkeys.
      + by rewrite fmap_app in Hnd |- *.
      + by apply (cover_entries_frame h).
      + done.
      + tauto. }
  clear IH IH'.
  destruct (reduce _ (JObj (front_t ++ (k, xt') :: todo_t)) todo_t);
    [|done].
  destruct Hrest as (todo_t' & todo_h' & h' & -> & Hred & Hlen' & Hframe'
                     & Hcell' & Hkeys' & Hcov').
  exists ((k, xt') :: todo_t'), ((k, yh) :: todo_h'), h'.
  split_and!; [done|done|lia| |done|by simpl; f_equal|].
  - intros l' Hl' Hne Hnin. rewrite elem_of_app in Hnin.
    rewrite Hframe' by (first [lia|tauto]). apply Hframes; [done|done|tauto].
  - constructor.
    + split; [done|]. simpl.
      eapply covers_mono; [|eapply covers_frame; [exact Hcovs|]].
      * intros l' [?|?]; [left; apply elem_of_app; by left|by right].
      * intros l' Hl' Hlt. apply Hframe'; [done| |].
        -- intros ->. destruct Hl' as [?|?]; [tauto|lia].
        -- intros Hlb. destruct Hl' as [Hla|Hge].
           ++ by apply (Hdisj l').
           ++ apply Hblt in Hlb. lia.
    + eapply Forall2_impl; [exact Hcov'|]. intros p q [Hpq Hc].
      split; [done|]. eapply covers_mono; [|exact Hc].
      intros l' [?|?]; [left; apply elem_of_app; by right|right; lia].
Qed.

Lemma in_place_string_loop name fields s :
  Forall (λ f, simulates f.2) fields →
  ∀ (cs : list (string * string)) h,
    match reduce (Precomputed.transform_entry build pm name fields
                    (Precomputed.transform build pm))
                 (JStr s) ((λ e, (e.1, JStr e.2)) <$> cs) with
    | Some r =>
        r = JStr s
        ∧ ∃ h',
            reduce (InPlace.transform_entry build pm name fields
                      (InPlace.transform build pm) (VStr s))
                   h ((λ e, (e.1, VStr e.2)) <$> cs) = Some h'
            ∧ (length h ≤ length h')%nat
            ∧ ∀ l, (l < length h)%nat → h' !! l = h !! l
    | None =>
        reduce (InPlace.transform_entry build pm name fields
                  (InPlace.transform build pm) (VStr s))
               h ((λ e, (e.1, VStr e.2)) <$> cs) = None
    end.
Proof.
  intros Hfields. induction cs as [|[k c] cs IH]; intros h.
  { simpl. split; [done|]. by exists h. }
  rewrite !fmap_cons, !reduce_cons. cbn [fst snd].
  assert (Precomputed.transform_entry build pm name fields
            (Precomputed.transform build pm) (JStr s) (k, JStr c)
          = match pm !! getKey name k with
            | Some _ => None
            | None =>
                x ← with_field k
                      (λ ft, Precomputed.transform build pm ft (JStr c))
                      None fields;
                Some (JStr s)
            end) as ->.
  { unfold Precomputed.transform_entry.
    destruct (pm !! getKey name k) as [table|]; [|done].
    by destruct (newJson build table (JStr c)). }
  assert (InPlace.transform_entry build pm name fields
            (InPlace.transform build pm) (VStr s) h (k, VStr c)
          = match pm !! getKey name k with
            | Some _ => None
            | None =>
                with_field k
                  (λ ft, InPlace.transform build pm ft (VStr c) h)
                  None fields
            end) as ->.
  { unfold InPlace.transform_entry.
    destruct (pm !! getKey name k) as [table|]; [|done].
    by destruct (InPlace.newJson build table (VStr c) h). }
  destruct (pm !! getKey name k) as [table|]; [done|].
  rewrite !with_field_assoc.
  destruct (assoc k fields) as [ft|] eqn:Hft; [|done].
  assert (simulates ft) as Hsim.
  { rewrite Forall_forall in Hfields. apply (Hfields (k, ft)).
    by apply assoc_elem_of. }
  assert (cover h (JStr c) (VStr c) = Some []) as Hc
    by (simpl; by rewrite bool_decide_eq_true_2).
  pose proof (Hsim (JStr c) (VStr c) h [] Hc (NoDup_nil_2)) as Hs.
  destruct (Precomputed.transform build pm ft (JStr c)) as [x|];
    cbn [mbind option_bind]; [|by rewrite Hs].
  destruct Hs as (h1 & -> & Hlen1 & Hframe1 & _).
  cbn [mbind option_bind].
  specialize (IH h1).
  destruct (reduce _ (JStr s) ((λ e, (e.1, JStr e.2)) <$> cs)); [|done].
  destruct IH as (-> & h2 & Hred & Hlen2 & Hframe2).
  split; [done|]. exists h2. split_and!; [done|lia|].
  intros l Hl. rewrite Hframe2 by lia. apply Hframe1; [done|].
  apply not_elem_of_nil.
Qed.

Lemma string_entries s :
  ∃ cs : list (string * string),
    indexed (chars s) = (λ e, (e.1, JStr e.2)) <$> cs
    ∧ indexed (InPlace.chars s) = (λ e, (e.1, VStr e.2)) <$> cs.
Proof.
  exists (indexed ((λ c, String c EmptyString) <$> list_ascii_of_string s)).
  unfold indexed, chars, InPlace.chars.
  rewrite !imap_fmap, !fmap_imap. done.
Qed.

(** The rewrite in place of a value without shared object. *)
Lemma in_place_transform type : simulates type.
Proof.
  induction type as [ofType IH|ofType IH|kind name fields IH|name]
    using GqlType_induction; intros t v h ls Hcov Hnd.
  - (* a list type *)
    assert (in_place_post h ls h t v) as Hsame.
    { split_and!; [done|done|]. exists ls. split; [done|]. by left. }
    destruct t as [| |b|n|s|titems|tprops].
    1-5: destruct v; try done; simpl; by exists h.
    + destruct v as [| | | | |l|]; try done.
      apply cover_array in Hcov as (items & ls0 & Hcell & Hcov & ->).
      apply NoDup_cons in Hnd as [Hl Hnd0].
      simpl. rewrite Hcell.
      pose proof (in_place_list_loop ofType IH titems items h ls0 Hcov Hnd0)
        as Hloop.
      destruct (mapM (Precomputed.transform build pm ofType) titems)
        as [titems'|]; simpl; [|done].
      destruct Hloop as (h' & Hred & Hlen & Hframe & Hitems).
      exists h'. split; [done|]. split_and!; [done| |].
      * intros l' Hl' Hnin. apply Hframe; [done|].
        intros ?. apply Hnin. by right.
      * apply covers_array. exists items. split_and!.
        -- rewrite Hframe; [done|by eapply lookup_lt_Some|done].
        -- left. left.
        -- eapply Forall2_impl; [exact Hitems|]. intros t0 v0 Hc.
           eapply covers_mono; [|exact Hc].
           intros l' [?|?]; [left; by right|by right].
    + destruct v as [| | | | |l|]; try done.
      * apply cover_object in Hcov as Hobj.
        destruct Hobj as (props & ls0 & Hcell & _). simpl. rewrite Hcell.
        by exists h.
      * simpl. by exists h.
  - (* a non-null type *)
    by apply IH.
  - (* a type with fields *)
    rewrite precomputed_fields_eq, in_place_fields_eq.
    assert (in_place_post h ls h t v) as Hsame.
    { split_and!; [done|done|]. exists ls. split; [done|]. by left. }
    destruct t as [| |b|n|s|titems|tprops].
    + by destruct v.
    + by destruct v.
    + destruct v; try done. simpl. by exists h.
    + destruct v; try done. simpl. by exists h.
    + destruct v as [| | | |s'| |]; try done.
      simpl in Hcov. case_bool_decide as Hs; [|done]. subst s'.
      cbn [Array_isArray InPlace.Array_isArray Object_entries
           InPlace.Object_entries mbind option_bind].
      destruct (string_entries s) as (cs & -> & ->).
      pose proof (in_place_string_loop name fields s IH cs h) as Hloop.
      destruct (reduce _ (JStr s) _); [|done].
      destruct Hloop as (-> & h' & Hred & Hlen & Hframe).
      exists h'. split; [done|]. split_and!; [done|by auto|].
      exists []. split; [|by intros l ?%elem_of_nil].
      simpl. by rewrite bool_decide_eq_true_2.
    + destruct v as [| | | | |l|]; try done.
      apply cover_array in Hcov as Harr.
      destruct Harr as (items & ls0 & Hcell & _).
      unfold InPlace.Array_isArray. rewrite Hcell. simpl. by exists h.
    + destruct v as [| | | | |l|]; try done.
      * apply cover_object in Hcov as (props & ls0 & Hcell & Hkeys & Hcov & ->).
        apply NoDup_cons in Hnd as [Hl Hnd0].
        unfold InPlace.Array_isArray, InPlace.Object_entries.
        rewrite Hcell.
        cbn [Array_isArray Object_entries mbind option_bind].
        pose proof (in_place_object_loop name fields l IH tprops props [] []
                      h ls0 Hcell eq_refl Hkeys Hcov Hnd0 Hl) as Hloop.
        cbn [app] in Hloop.
        destruct (reduce _ (JObj tprops) tprops); [|done].
        destruct Hloop as (tprops' & props' & h' & -> & Hred & Hlen & Hframe
                           & Hcell' & Hkeys' & Hcov').
        exists h'. split; [done|]. split_and!; [done| |].
        -- intros l' Hl' Hnin. apply Hframe; [done| |].
           ++ intros ->. apply Hnin. left.
           ++ intros ?. apply Hnin. by right.
        -- apply covers_object. exists props'. split_and!.
           ++ done.
           ++ by rewrite Hkeys'.
           ++ left. left.
           ++ eapply Forall2_impl; [exact Hcov'|]. intros p q [Hpq Hc].
              split; [done|]. eapply covers_mono; [|exact Hc].
              intros l' [?|?]; [left; by right|by right].
      * simpl in Hcov. destruct tprops; [|done]. simpl. by exists h.
  - (* a leaf *)
    simpl. exists h. split; [done|]. split_and!; [done|done|].
    exists ls. split; [done|]. by left.
Qed.

End InPlaceUnshared.

(** The entry of a key among the entries of an object. *)
Lemma cover_entries_split f (tprops : list (string * JsValue))
    (props : list (string * Val)) ls k y :
  cover_list (entry_cover f) tprops props = Some ls →
  NoDup props.*1 → assoc k props = Some y →
  ∃ x a before after tps1 tps2 ps1 ps2,
    tprops = tps1 ++ (k, x) :: tps2 ∧ props = ps1 ++ (k, y) :: ps2
    ∧ f x y = Some a
    ∧ cover_list (entry_cover f) tps1 ps1 = Some before
    ∧ cover_list (entry_cover f) tps2 ps2 = Some after
    ∧ ls = before ++ a ++ after
    ∧ k ∉ ps1.*1.
Proof.
  revert props ls. induction tprops as [|[k1 x1] tprops IH];
    intros [|[k2 y1] props] ls Hcov Hnd Hk; try done.
  rewrite entry_cover_cons in Hcov.
  destruct (String.eqb k1 k2) eqn:Hk12; [|done].
  apply String.eqb_eq in Hk12 as <-.
  destruct (f x1 y1) as [a1|] eqn:Ha1; [|done]. simpl in Hcov.
  destruct (cover_list (entry_cover f) tprops props) as [b|] eqn:Hb; [|done].
  injection Hcov as <-. simpl in Hk, Hnd.
  apply NoDup_cons in Hnd as [Hk1 Hnd].
  destruct (String.eqb_spec k1 k) as [->|Hne].
  - injection Hk as ->.
    exists x1, a1, [], b, [], tprops, [], props.
    split_and!; try done. apply not_elem_of_nil.
  - destruct (IH props b Hb Hnd Hk)
      as (x & a & before & after & tps1 & tps2 & ps1 & ps2
          & -> & -> & Ha & Hbefore & Hafter & -> & Hfresh).
    exists x, a, (a1 ++ before), after, ((k1, x1) :: tps1), tps2,
           ((k1, y1) :: ps1), ps2.
    split_and!; try done.
    + rewrite entry_cover_cons, String.eqb_refl, Ha1. simpl.
      by rewrite Hbefore.
    + by rewrite <- app_assoc.
    + simpl. rewrite not_elem_of_cons. done.
Qed.

Section ResolverInPlace.
Context (build : Build).

(** The rewrite in place of a value without shared object. *)
Lemma in_place_unshared_value pm type h v t :
  InPlace.unshared h v t →
  match Precomputed.transform build pm type t with
  | Some t' =>
      ∃ h', InPlace.transform build pm type v h = Some h'
            ∧ InPlace.unfolds h' v t'
  | None => InPlace.transform build pm type v h = None
  end.
Proof.
  unfold InPlace.unshared. intros Hun.
  destruct (cover h t v) as [ls|] eqn:Hcov; [|done].
  pose proof (in_place_transform build pm type t v h ls Hcov Hun) as H.
  destruct (Precomputed.transform build pm type t) as [t'|]; [|done].
  destruct H as (h' & Hh' & _ & _ & ls' & Hcov' & _).
  exists h'. split; [done|]. unfold InPlace.unfolds. by rewrite Hcov'.
Qed.

(** The wrapped resolver on arguments without shared object. *)
Lemma in_place_unshared_args scope field h a args :
  InPlace.unshared h (VRef a) (JObj args) →
  match Precomputed.ResolvePatchFieldsPlugin build scope field args with
  | Some out =>
      ∃ h',
        InPlace.ResolvePatchFieldsPlugin build scope field (VRef a) h
        = Some h'
        ∧ InPlace.unfolds h' (VRef a) (JObj out)
  | None =>
      InPlace.ResolvePatchFieldsPlugin build scope field (VRef a) h = None
  end.
Proof.
  unfold InPlace.unshared. intros Hun.
  destruct (cover h (JObj args) (VRef a)) as [ls|] eqn:Hcov; [|done].
  unfold Precomputed.ResolvePatchFieldsPlugin,
    InPlace.ResolvePatchFieldsPlugin.
  destruct (Precomputed.filter build scope field) as [[pm|]|]; [| |done].
  2:{ exists h. split; [done|]. unfold InPlace.unfolds. by rewrite Hcov. }
  unfold Precomputed.resolver, InPlace.resolver.
  destruct (args_input field) as [inputType|]; [|done].
  cbn [mbind option_bind].
  apply cover_object in Hcov as Hobj.
  destruct Hobj as (hargs & ls0 & Hcell & Hkeys & Hentries & ->).
  apply NoDup_cons in Hun as [Ha Hnd0].
  assert (InPlace.args_input_value h (VRef a)
          = default VUndefined (assoc "input" hargs)) as ->
    by (unfold InPlace.args_input_value; by rewrite Hcell).
  unfold args_input_value.
  assert ((a < length h)%nat) as Halt by (by eapply lookup_lt_Some).
  destruct (assoc "input" hargs) as [y|] eqn:Hy.
  - destruct (cover_entries_split _ _ _ _ _ _ Hentries Hkeys Hy)
      as (x & la & before & after & tps1 & tps2 & ps1 & ps2
          & -> & -> & Hxy & Hbefore & Hafter & -> & Hfresh).
    assert ("input" ∉ tps1.*1) as Hfresh'
      by (by rewrite (entry_cover_keys _ _ _ _ Hbefore)).
    assert (assoc "input" (tps1 ++ ("input", x) :: tps2) = Some x) as Hx.
    { rewrite assoc_app. apply assoc_None in Hfresh' as ->. simpl. done. }
    rewrite Hx. simpl.
    apply NoDup_app in Hnd0 as (Hndb & Hdisj1 & Hnd1).
    apply NoDup_app in Hnd1 as (Hnda & Hdisj2 & Hndaf).
    pose proof (in_place_transform build pm inputType x y h la Hxy Hnda)
      as H.
    destruct (Precomputed.transform build pm inputType x) as [x'|]; [|done].
    destruct H as (h' & Hh' & Hlen & Hframe & Hcov').
    exists h'. split; [done|]. simpl.
    assert (has_key "input" (tps1 ++ ("input", x) :: tps2) = true) as ->
      by (unfold has_key; by rewrite Hx).
    rewrite obj_set_middle by done.
    assert (∀ l, l ∈ before ++ la ++ after → (l < length h)%nat) as Hlt
      by (by apply (cover_entries_lt h _ _ _ Hentries)).
    assert (InPlace.covers h' (JObj (tps1 ++ ("input", x') :: tps2)) (VRef a)
              (λ _, True)) as (ls' & Hls' & _).
    { apply covers_object. exists (ps1 ++ ("input", y) :: ps2).
      split_and!; [|done|done|].
      - rewrite Hframe; [done|done|].
        intros Hin. apply Ha. rewrite !elem_of_app. tauto.
      - apply Forall2_app; [|constructor].
        + apply covers_entries_cover. exists before. split; [|done].
          apply (cover_entries_frame h); [done|].
          intros l Hl. apply Hframe.
          * apply Hlt. rewrite elem_of_app. tauto.
          * intros Hla. apply (Hdisj1 l Hl). rewrite elem_of_app. tauto.
        + split; [done|]. simpl. eapply covers_mono; [|exact Hcov']. done.
        + apply covers_entries_cover. exists after. split; [|done].
          apply (cover_entries_frame h); [done|].
          intros l Hl. apply Hframe.
          * apply Hlt. rewrite !elem_of_app. tauto.
          * intros Hla. by apply (Hdisj2 l). }
    unfold InPlace.unfolds. by rewrite Hls'.
  - assert (assoc "input" args = None) as Hx.
    { apply assoc_None. rewrite (entry_cover_keys _ _ _ _ Hentries).
      by apply assoc_None. }
    rewrite Hx. simpl.
    pose proof (in_place_transform build pm inputType JUndefined VUndefined
                  h [] eq_refl (NoDup_nil_2)) as H.
    destruct (Precomputed.transform build pm inputType JUndefined)
      as [x'|] eqn:Hx'; [|done].
    destruct H as (h' & Hh' & Hlen & Hframe & Hcov').
    exists h'. split; [done|]. simpl.
    assert (has_key "input" args = false) as ->
      by (unfold has_key; by rewrite Hx).
    assert (cover h' (JObj args) (VRef a) = Some (a :: ls0)) as Hsame.
    { apply (cover_frame h).
      - apply cover_object. by exists hargs, ls0.
      - intros l Hl. apply Hframe; [|apply not_elem_of_nil].
        apply elem_of_cons in Hl as [->|Hl]; [done|].
        by apply (cover_entries_lt h _ _ _ Hentries). }
    unfold InPlace.unfolds. by rewrite Hsame.
Qed.

(** Read the other way: what the rewrite in place returned. *)
Lemma in_place_returned pm type h v t h' :
  InPlace.unshared h v t →
  InPlace.transform build pm type v h = Some h' →
  ∃ t', Precomputed.transform build pm type t = Some t'
        ∧ InPlace.unfolds h' v t'.
Proof.
  intros Hun Hh'.
  pose proof (in_place_unshared_value pm type h v t Hun) as H.
  destruct (Precomputed.transform build pm type t) as [t'|]; [|congruence].
  destruct H as (h'' & Hh'' & Hunf). exists t'. split; [done|]. congruence.
Qed.

Lemma unshared_object_keys h l tprops :
  InPlace.unshared h (VRef l) (JObj tprops) → NoDup tprops.*1.
Proof.
  unfold InPlace.unshared. intros Hun.
  destruct (cover h (JObj tprops) (VRef l)) as [ls|] eqn:Hcov; [|done].
  apply cover_object in Hcov as (props & ls0 & _ & Hnd & Hentries & _).
  by rewrite (entry_cover_keys _ _ _ _ Hentries).
Qed.

(** What the rewrite in place leaves under a key that is in the map. *)
Lemma in_place_object_matched pm kind name fields h l props h' k x table :
  InPlace.unshared h (VRef l) (JObj props) →
  InPlace.transform build pm (GFields kind name fields) (VRef l) h = Some h' →
  (k, x) ∈ props →
  pm !! getKey name k = Some table →
  ∃ props' json,
    InPlace.unfolds h' (VRef l) (JObj props')
    ∧ props'.*1 = props.*1
    ∧ newJson build table x = Some json
    ∧ assoc k props' = Some json.
Proof.
  intros Hun Hh' Hin Hpm.
  destruct (in_place_returned pm _ h _ _ h' Hun Hh') as (r & Hr & Hunf).
  pose proof (unshared_object_keys h l props Hun) as Hnd.
  rewrite precomputed_object in Hr by done.
  apply fmap_Some in Hr as (props' & Hmap & ->).
  apply mapM_entries_Some in Hmap as [Hkeys Hall].
  destruct (Hall k x Hin) as (json & Hjson & Hin'). simpl in Hjson.
  rewrite Hpm in Hjson. exists props', json.
  split_and!; [done..|]. apply assoc_NoDup; [by rewrite Hkeys|done].
Qed.

(** The callback in place on an entry that is in the map: the new object
    goes last in the store, and the entry is set to its address. *)
Lemma in_place_entry_matched pm name fields recurse h l props arg val tval
    table :
  pm !! getKey name arg = Some table →
  h !! l = Some (CObj props) →
  InPlace.unfolds h val tval →
  match newJson build table tval with
  | Some json =>
      ∃ jt jh,
        json = JObj jt
        ∧ InPlace.transform_entry build pm name fields recurse (VRef l) h
                                  (arg, val)
          = Some (<[l := CObj (obj_set arg (VRef (length h)) props)]>
                    (h ++ [CObj jh]))
        ∧ Forall2 (λ p q, p.1 = q.1 ∧ InPlace.unfolds h q.2 p.2) jt jh
  | None =>
      InPlace.transform_entry build pm name fields recurse (VRef l) h
                              (arg, val) = None
  end.
Proof.
  intros Hpm Hcell [ls Hls].
  assert (covers h tval val (λ _, True)) as Hcov by (by exists ls).
  pose proof (newJson_covers build h (λ _, True) table tval val Hcov) as H.
  unfold InPlace.transform_entry. rewrite Hpm.
  destruct (newJson build table tval) as [json|]; [|by rewrite H].
  destruct H as (jt & jh & -> & -> & Hentries & _).
  exists jt, jh. split_and!; [done| |].
  - simpl. unfold InPlace.assign.
    rewrite lookup_app_l by (by eapply lookup_lt_Some).
    by rewrite Hcell.
  - eapply Forall2_impl; [exact Hentries|].
    intros p q [Hk (ls' & Hls' & _)]. split; [done|]. by exists ls'.
Qed.



(** The value under a key of an object without shared object. *)
Lemma unshared_entry h l tprops k x :
  InPlace.unshared h (VRef l) (JObj tprops) →
  (k, x) ∈ tprops →
  ∃ props val,
    h !! l = Some (CObj props) ∧ assoc k props = Some val
    ∧ InPlace.unshared h val x.
Proof.
  intros Hun Hin.
  pose proof (unshared_object_keys h l tprops Hun) as Hndt.
  unfold InPlace.unshared in Hun.
  destruct (cover h (JObj tprops) (VRef l)) as [ls|] eqn:Hcov; [|done].
  apply cover_object in Hcov as (props & ls0 & Hcell & Hnd & Hentries & ->).
  apply NoDup_cons in Hun as [_ Hnd0].
  assert (k ∈ props.*1) as Hk.
  { rewrite <- (entry_cover_keys _ _ _ _ Hentries).
    apply list_elem_of_fmap. by exists (k, x). }
  destruct (assoc k props) as [val|] eqn:Hval;
    [|by apply assoc_None in Hval].
  destruct (cover_entries_split _ _ _ _ _ _ Hentries Hnd Hval)
    as (x0 & a & before & after & tps1 & tps2 & ps1 & ps2
        & -> & -> & Hxy & _ & _ & -> & _).
  assert (x0 = x) as ->.
  { pose proof (assoc_NoDup k _ x Hndt Hin) as H1.
    rewrite (assoc_NoDup k _ x0 Hndt) in H1; [by injection H1|].
    apply elem_of_app. right. left. }
  exists (ps1 ++ (k, val) :: ps2), val. split_and!; [done..|].
  unfold InPlace.unshared. rewrite Hxy.
  apply NoDup_app in Hnd0 as (_ & _ & Hnd1).
  by apply NoDup_app in Hnd1 as (Hnda & _).
Qed.
End ResolverInPlace.

End Stores.

(** ** [populatePatchMap] on a type graph *)

Section TypeGraphs.
Context (build : Build) (schema : Schema).

(** On a graph that unfolds within the call depth, the walk over the type
    objects is the walk over the tree; where the unfolding does not end
    within the depth, the walk runs out of stack (or has thrown before). *)
Lemma populate_in_unfold depth : ∀ t (pm : gmap string (option PgClass)),
  Precomputed.populate_in build schema depth t pm
  = type ← unfold_type schema depth t;
    Precomputed.populatePatchMap build type pm.
Proof.
  induction depth as [|depth IH]; intros t pm; [done|].
  destruct t as [ofType|ofType|name]; simpl.
  - rewrite IH. by destruct (unfold_type schema depth ofType).
  - rewrite IH. by destruct (unfold_type schema depth ofType).
  - destruct (schema name) as [kind fields|]; [|done].
    destruct (if isInputObjectType kind
              then Precomputed.store_patch_tags build name pm
              else Some pm) as [stored|] eqn:Hstored.
    2:{ simpl.
        destruct (mapM _ fields) as [tfields|]; simpl; [|done].
        by rewrite Hstored. }
    cbn [mbind option_bind].
    assert (reduce (λ pm0 field,
                      Precomputed.populate_in build schema depth field.2 pm0)
                   stored fields
            = tfields ← mapM (λ f, pair f.1 <$> unfold_type schema depth f.2)
                             fields;
              reduce (λ pm0 field,
                        Precomputed.populatePatchMap build field.2 pm0)
                     stored tfields) as ->.
    { clear Hstored. revert stored.
      induction fields as [|[n ft] fields IHfields]; intros stored; [done|].
      rewrite reduce_cons. cbn [snd fst mapM]. rewrite IH.
      destruct (unfold_type schema depth ft) as [T|]; simpl; [|done].
      destruct (Precomputed.populatePatchMap build T stored) as [acc|] eqn:HT;
        simpl.
      - rewrite IHfields.
        destruct (mapM _ fields) as [tfields|]; simpl; [|done].
        by rewrite HT.
      - destruct (mapM _ fields) as [tfields|]; simpl; [|done].
        by rewrite HT. }
    destruct (mapM _ fields) as [tfields|]; simpl; [|done].
    by rewrite Hstored.
Qed.

(** A deeper stack unfolds what a shallower one does. *)
Lemma unfold_type_mono depth : ∀ depth' t type,
  (depth ≤ depth')%nat →
  unfold_type schema depth t = Some type →
  unfold_type schema depth' t = Some type.
Proof.
  induction depth as [|depth IH]; intros [|depth'] t type Hle Ht;
    [done|done|lia|].
  assert (depth ≤ depth')%nat as Hle' by lia.
  destruct t as [ofType|ofType|name]; simpl in *.
  - apply fmap_Some in Ht as (T & HT & ->).
    by rewrite (IH depth' ofType T Hle' HT).
  - apply fmap_Some in Ht as (T & HT & ->).
    by rewrite (IH depth' ofType T Hle' HT).
  - destruct (schema name) as [kind fields|]; [|done].
    apply fmap_Some in Ht as (tfields & Hfields & ->).
    assert (mapM (λ f, pair f.1 <$> unfold_type schema depth' f.2) fields
            = Some tfields) as ->; [|done].
    apply mapM_Some. apply mapM_Some in Hfields.
    eapply Forall2_impl; [exact Hfields|].
    intros [n ft] tf Hf. simpl in *.
    apply fmap_Some in Hf as (T & HT & ->).
    by rewrite (IH depth' ft T Hle' HT).
Qed.

(** The walk of a type that returns has walked, with less stack, every
    type it refers to. *)
Lemma populate_in_wrappers depth : ∀ t (pm : gmap string (option PgClass)),
  is_Some (Precomputed.populate_in build schema depth t pm) →
  ∃ depth', (depth' ≤ depth)%nat
            ∧ is_Some (Precomputed.populate_in build schema depth'
                         (RNamed (named_of t)) pm).
Proof.
  induction depth as [|depth IH]; intros t pm [r Hr]; [done|].
  destruct t as [ofType|ofType|name].
  - destruct (IH ofType pm) as (d & Hd & Hsome); [by exists r|].
    exists d. split; [lia|done].
  - destruct (IH ofType pm) as (d & Hd & Hsome); [by exists r|].
    exists d. split; [lia|done].
  - exists (S depth). split; [done|]. by exists r.
Qed.

Lemma populate_in_refers depth a b (pm : gmap string (option PgClass)) :
  refers schema a b →
  is_Some (Precomputed.populate_in build schema depth (RNamed a) pm) →
  ∃ depth' pm', (depth' < depth)%nat
                ∧ is_Some (Precomputed.populate_in build schema depth'
                             (RNamed b) pm').
Proof.
  unfold refers. intros Hab [r Hr].
  destruct depth as [|depth]; [done|]. simpl in Hr.
  destruct (schema a) as [kind fields|]; [|done].
  apply bind_Some in Hr as (stored & _ & Hfields).
  apply list_elem_of_fmap in Hab as ([n ft] & -> & Hin). simpl.
  assert (∃ pm1, is_Some (Precomputed.populate_in build schema depth ft pm1))
    as (pm1 & Hft).
  { clear -Hfields Hin. revert stored Hfields.
    induction fields as [|f fields IH]; intros stored Hfields;
      [by apply elem_of_nil in Hin|].
    rewrite reduce_cons in Hfields.
    apply bind_Some in Hfields as (acc & Hf & Hrest).
    apply elem_of_cons in Hin as [<-|Hin].
    - exists stored. by exists acc.
    - by apply (IH Hin acc). }
  destruct (populate_in_wrappers depth ft pm1 Hft) as (d & Hd & Hsome).
  exists d, pm1. split; [lia|done].
Qed.

Lemma populate_in_tc depth a b (pm : gmap string (option PgClass)) :
  tc (refers schema) a b →
  is_Some (Precomputed.populate_in build schema depth (RNamed a) pm) →
  ∃ depth' pm', (depth' < depth)%nat
                ∧ is_Some (Precomputed.populate_in build schema depth'
                             (RNamed b) pm').
Proof.
  intros Hab. revert depth pm.
  induction Hab as [a b Hab|a c b Hac _ IH]; intros depth pm Hsome.
  - by apply (populate_in_refers depth a b pm).
  - destruct (populate_in_refers depth a c pm Hac Hsome)
      as (d & pm' & Hd & Hsome').
    destruct (IH d pm' Hsome') as (d' & pm'' & Hd' & Hsome'').
    exists d', pm''. split; [lia|done].
Qed.

(** No stack is deep enough for a type that refers to itself. *)
Lemma populate_in_cycle a :
  tc (refers schema) a a →
  ∀ depth (pm : gmap string (option PgClass)),
    Precomputed.populate_in build schema depth (RNamed a) pm = None.
Proof.
  intros Hcycle depth.
  induction depth as [depth IH] using lt_wf_ind. intros pm.
  destruct (Precomputed.populate_in build schema depth (RNamed a) pm)
    as [r|] eqn:Hr; [|done].
  destruct (populate_in_tc depth a a pm Hcycle) as (d & pm' & Hd & [r' Hr']);
    [by exists r|].
  by rewrite (IH d Hd pm') in Hr'.
Qed.

Lemma populate_in_reaches_cycle t a :
  rtc (refers schema) (named_of t) a →
  tc (refers schema) a a →
  ∀ depth (pm : gmap string (option PgClass)),
    Precomputed.populate_in build schema depth t pm = None.
Proof.
  intros Hreach Hcycle depth pm.
  destruct (Precomputed.populate_in build schema depth t pm) as [r|] eqn:Hr;
    [|done].
  destruct (populate_in_wrappers depth t pm) as (d & _ & Hsome);
    [by exists r|].
  assert (∃ d' pm', is_Some (Precomputed.populate_in build schema d'
                               (RNamed a) pm')) as (d' & pm' & [r' Hr']).
  { clear Hr. revert d pm Hsome.
    induction Hreach as [a|x y a Hxy _ IH]; intros d pm Hsome.
    - by exists d, pm.
    - destruct (populate_in_refers d x y pm Hxy Hsome)
        as (d1 & pm1 & _ & Hsome1).
      by apply (IH Hcycle d1 pm1). }
  by rewrite (populate_in_cycle a Hcycle) in Hr'.
Qed.
End TypeGraphs.

(** ** An annotation among several *)

Lemma reduce_app {A B} (f : B → A → option B) init l1 l2 :
  reduce f init (l1 ++ l2) = acc ← reduce f init l1; reduce f acc l2.
Proof.
  revert init. induction l1 as [|x l1 IH]; intros init; [done|].
  rewrite <- app_comm_cons, !reduce_cons.
  destruct (f init x) as [acc|]; [|done]. apply IH.
Qed.

Lemma size_lookup_pos {V} (m : gmap string V) k x :
  m !! k = Some x → (0 < size m)%nat.
Proof.
  intros Hk. destruct (decide (size m = 0%nat)) as [Hz|]; [|lia].
  apply map_size_empty_iff in Hz. subst m. by rewrite lookup_empty in Hk.
Qed.

Section Annotations.
Context (build : Build).

(** A tag with an item that parses is one the plugins read. *)
Lemma parsed_item_usable tags before item after :
  tag_items tags = before ++ item :: after →
  is_Some (parse_tag build item) →
  truthy (Some tags) = true ∧ string_or_object tags = true.
Proof.
  intros Hitems [p Hp]. destruct tags as [|s|l]; [| |done].
  - destruct before as [|b before]; simpl in Hitems.
    + injection Hitems as <- _. done.
    + injection Hitems as _ Hnil. by destruct before.
  - assert (item = ItemString s) as ->.
    { destruct before as [|b before]; simpl in Hitems.
      - by injection Hitems as <- _.
      - injection Hitems as _ Hnil. by destruct before. }
    split; [|done]. by destruct s.
Qed.

(** The items stored after an annotation leave its key alone when none of
    them names the same argument. *)
Lemma percall_store_frame items k :
  Forall (λ i, ∀ arg t, parse_tag build i = Some (arg, t) →
                        argument (inflection build) arg ≠ k)
         items →
  ∀ m0 m : gmap string (option PgClass),
    reduce (PerCall.store_tag build) m0 items = Some m → m !! k = m0 !! k.
Proof.
  induction 1 as [|item items Hitem _ IH]; intros m0 m Hred.
  { by injection Hred as <-. }
  rewrite reduce_cons in Hred.
  apply bind_Some in Hred as (m1 & Hstore & Hred).
  unfold PerCall.store_tag in Hstore.
  destruct (parse_tag build item) as [[arg t]|] eqn:Hparse; [|done].
  injection Hstore as <-. rewrite (IH _ _ Hred).
  apply lookup_insert_ne. by apply (Hitem arg t).
Qed.

Lemma percall_store_last before item after arg table :
  parse_tag build item = Some (arg, table) →
  Forall (λ i, ∀ arg' t,
            parse_tag build i = Some (arg', t) →
            argument (inflection build) arg' ≠ argument (inflection build) arg)
         after →
  ∀ m0 m : gmap string (option PgClass),
    reduce (PerCall.store_tag build) m0 (before ++ item :: after) = Some m →
    m !! argument (inflection build) arg = Some table.
Proof.
  intros Hparse Hlast m0 m Hred. rewrite reduce_app in Hred.
  apply bind_Some in Hred as (m1 & _ & Hred).
  rewrite reduce_cons in Hred.
  apply bind_Some in Hred as (m2 & Hstore & Hred).
  unfold PerCall.store_tag in Hstore. rewrite Hparse in Hstore.
  injection Hstore as <-.
  rewrite (percall_store_frame after _ Hlast _ _ Hred).
  apply lookup_insert_eq.
Qed.

Lemma percall_store_returns items :
  Forall (λ i, is_Some (parse_tag build i)) items →
  ∀ m0 : gmap string (option PgClass),
    is_Some (reduce (PerCall.store_tag build) m0 items).
Proof.
  induction 1 as [|item items [[arg t] Hitem] _ IH]; intros m0; [done|].
  rewrite reduce_cons. unfold PerCall.store_tag at 2. rewrite Hitem.
  apply IH.
Qed.

(** The block of an input object, for a tag that is read: the per-call map
    of the tag, under the keys of the type. *)
Lemma store_patch_tags_usable name tags (pm0 : gmap string (option PgClass)) :
  patchTags_of build name = Some tags →
  truthy (Some tags) = true → string_or_object tags = true →
  Precomputed.store_patch_tags build name pm0
  = (λ m, kmap (getKey name) m ∪ pm0)
      <$> reduce (PerCall.store_tag build) ∅ (tag_items tags).
Proof.
  intros Htags Htruthy Hobj.
  rewrite store_patch_tags_percall.
  - unfold PerCall.patchArgAndTableMap. cbn [isInputObjectType].
    by rewrite Htags, Htruthy.
  - rewrite Htags. intros [= ->]. done.
Qed.

Lemma percall_map_usable name tags :
  patchTags_of build name = Some tags →
  truthy (Some tags) = true →
  PerCall.patchArgAndTableMap build KInputObject name
  = reduce (PerCall.store_tag build) ∅ (tag_items tags).
Proof.
  intros Htags Htruthy.
  unfold PerCall.patchArgAndTableMap. cbn [isInputObjectType].
  by rewrite Htags, Htruthy.
Qed.

(** The blocks of the other types leave the keys of a type alone. *)
Lemma store_tags_frame name items k :
  (∀ a, k ≠ getKey name a) →
  ∀ pm0 pm : gmap string (option PgClass),
    reduce (Precomputed.store_tag build name) pm0 items = Some pm →
    pm !! k = pm0 !! k.
Proof.
  intros Hk. induction items as [|item items IH]; intros pm0 pm Hred.
  { by injection Hred as <-. }
  rewrite reduce_cons in Hred.
  apply bind_Some in Hred as (pm1 & Hstore & Hred).
  unfold Precomputed.store_tag in Hstore.
  destruct (parse_tag build item) as [[arg t]|]; [|done].
  injection Hstore as <-. rewrite (IH _ _ Hred).
  apply lookup_insert_ne. apply not_eq_sym, Hk.
Qed.

Lemma store_patch_tags_frame name k (pm0 pm : gmap string (option PgClass)) :
  (∀ a, k ≠ getKey name a) →
  Precomputed.store_patch_tags build name pm0 = Some pm →
  pm !! k = pm0 !! k.
Proof.
  intros Hk. unfold Precomputed.store_patch_tags.
  destruct (patchTags_of build name) as [tags|]; [|by intros [= <-]].
  destruct (truthy (Some tags) && string_or_object tags);
    [|by intros [= <-]].
  by apply store_tags_frame.
Qed.

(** What the block of the type [name] binds a key to is what the map holds
    once the whole graph is walked, the type names having no ['|']. *)
Lemma populate_keeps name k (x : option PgClass) type :
  pipe_free name = true →
  (∃ a, k = getKey name a) →
  (∀ pm0 pm, Precomputed.store_patch_tags build name pm0 = Some pm →
             pm !! k = Some x) →
  (∀ a, a ∈ obj_names type → pipe_free a.2 = true) →
  ∀ pm0 pm : gmap string (option PgClass),
    Precomputed.populatePatchMap build type pm0 = Some pm →
    pm0 !! k = Some x ∨ (KInputObject, name) ∈ obj_names type →
    pm !! k = Some x.
Proof.
  intros Hname [a0 ->] Hstore.
  induction type as [ofType IH|ofType IH|kind n fields IH|n]
    using GqlType_induction; intros Hpipe pm0 pm Hpop Hin.
  - by apply (IH Hpipe pm0).
  - by apply (IH Hpipe pm0).
  - simpl in Hpop. apply bind_Some in Hpop as (stored & Hstored & Hfields).
    assert (stored !! getKey name a0 = Some x
            ∨ (KInputObject, name) ∈ flat_map (λ f, obj_names f.2) fields)
      as Hin1.
    { destruct (decide ((kind, n) = (KInputObject, name))) as [[= -> ->]|Hne].
      { left. by apply (Hstore pm0). }
      assert (stored !! getKey name a0 = pm0 !! getKey name a0) as Hsame.
      { destruct kind; simpl in Hstored;
          [|by injection Hstored as <-..].
        apply (store_patch_tags_frame n); [|done].
        intros a Heq. apply getKey_inj in Heq as [<- _]; [done|done|].
        apply (Hpipe (KInputObject, n)). left. }
      simpl in Hin. rewrite elem_of_cons in Hin.
      destruct Hin as [Hpm0|[Heq|Hin]]; [left; by rewrite Hsame|done|by right]. }
    assert (∀ a, a ∈ flat_map (λ f, obj_names f.2) fields
                 → pipe_free a.2 = true) as Hpipe'
      by (intros a Ha; apply Hpipe; by right).
    clear Hstored Hin Hpipe. revert stored Hfields Hin1.
    induction IH as [|[fn ft] fields IHft _ IHfields];
      intros stored Hfields Hin1.
    + injection Hfields as <-. destruct Hin1 as [?|?%elem_of_nil]; done.
    + rewrite reduce_cons in Hfields.
      apply bind_Some in Hfields as (pm1 & Hft & Hrest). simpl in Hft.
      simpl in Hin1. rewrite elem_of_app in Hin1.
      apply (IHfields ltac:(intros a Ha; apply Hpipe'; simpl;
                            apply elem_of_app; by right) pm1 Hrest).
      destruct Hin1 as [Hs|[Hin|Hin]]; [left|left|by right].
      * apply (IHft ltac:(intros a Ha; apply Hpipe'; simpl;
                          apply elem_of_app; by left) stored pm1 Hft).
        by left.
      * apply (IHft ltac:(intros a Ha; apply Hpipe'; simpl;
                          apply elem_of_app; by left) stored pm1 Hft).
        by right.
  - injection Hpop as <-. destruct Hin as [?|?%elem_of_nil]; done.
Qed.
End Annotations.

(** ** Fields written one after the other *)

Lemma assoc_reverse_NoDup {A} k (l : list (string * A)) :
  NoDup l.*1 → assoc k (reverse l) = assoc k l.
Proof.
  intros Hnd. destruct (assoc k l) as [x|] eqn:E.
  - apply assoc_NoDup.
    + by rewrite fmap_reverse, reverse_Permutation.
    + apply elem_of_reverse. by apply assoc_elem_of.
  - apply assoc_None. apply assoc_None in E.
    by rewrite fmap_reverse, elem_of_reverse.
Qed.

(** A run of [{...acc, [key]: value}]: the last write of a key is what is
    read. *)
Lemma assoc_foldl_obj_set {A B} (f : B → A) (l : list (string * B)) :
  ∀ (o : list (string * A)) k,
    assoc k (foldl (λ acc p, obj_set p.1 (f p.2) acc) o l)
    = match assoc k (reverse l) with
      | Some x => Some (f x)
      | None => assoc k o
      end.
Proof.
  induction l as [|[k' x] l IH]; intros o k; [done|].
  simpl. rewrite IH, reverse_cons, assoc_app.
  destruct (assoc k (reverse l)); [done|]. simpl.
  destruct (String.eqb_spec k' k) as [->|Hne].
  - apply assoc_obj_set_eq.
  - by apply assoc_obj_set_ne.
Qed.

Lemma keys_foldl_obj_set {A B} (f : B → A) (l : list (string * B)) :
  ∀ (o : list (string * A)),
    NoDup o.*1 →
    let out := foldl (λ acc p, obj_set p.1 (f p.2) acc) o l in
    NoDup out.*1
    ∧ ∃ added, out.*1 = o.*1 ++ added
               ∧ ∀ k, k ∈ added → k ∈ l.*1 ∧ k ∉ o.*1.
Proof.
  induction l as [|[k' x] l IH]; intros o Hnd; simpl.
  { split; [done|]. exists []. split; [by rewrite app_nil_r|].
    by intros k ?%elem_of_nil. }
  destruct (IH (obj_set k' (f x) o) (NoDup_obj_set _ _ _ Hnd))
    as (Hnd' & added & Hkeys & Hadded).
  split; [done|]. rewrite keys_obj_set in Hkeys.
  destruct (has_key k' o) eqn:E.
  - exists added. split; [done|].
    intros k Hk. destruct (Hadded k Hk) as [Hin Hnin].
    rewrite elem_of_keys_obj_set in Hnin. split; [by right | naive_solver].
  - apply has_key_false in E. exists (k' :: added).
    split; [by rewrite Hkeys, <- app_assoc|].
    intros k [->|Hk]%elem_of_cons; [split; [left|done]|].
    destruct (Hadded k Hk) as [Hin Hnin]. split; [by right|].
    rewrite elem_of_keys_obj_set in Hnin. naive_solver.
Qed.

Lemma hook_fields_lookup build (inputFields : list (string * FieldSpec))
    (pairs : list (string * string)) k :
  assoc k (obj_spread inputFields (foldl (add_patch_field build) [] pairs))
  = match assoc k (reverse pairs) with
    | Some patchTypeName =>
        Some {| field_type := getTypeByName build patchTypeName;
                field_description := None |}
    | None => assoc k inputFields
    end.
Proof.
  set (spec := λ patchTypeName,
         {| field_type := getTypeByName build patchTypeName;
            field_description := None |}).
  set (patchFields := foldl (add_patch_field build) [] pairs).
  assert (patchFields = foldl (λ acc p, obj_set p.1 (spec p.2) acc) [] pairs)
    as Hdef by reflexivity.
  assert (obj_spread inputFields patchFields
          = foldl (λ acc p, obj_set p.1 (id p.2) acc) inputFields patchFields)
    as Hspread by reflexivity.
  destruct (keys_foldl_obj_set spec pairs [] (NoDup_nil_2)) as (Hndpf & _).
  rewrite <- Hdef in Hndpf.
  rewrite Hspread, (assoc_foldl_obj_set id patchFields inputFields k).
  rewrite assoc_reverse_NoDup by done.
  rewrite Hdef, (assoc_foldl_obj_set spec pairs [] k).
  by destruct (assoc k (reverse pairs)).
Qed.

(** ** The schema hook on one annotation among several *)

Lemma hook_annotation build tags before item after arg table context
    (inputFields : list (string * FieldSpec)) :
  hook_patchTags build context = Some tags →
  tag_items tags = before ++ item :: after →
  parse_tag build item = Some (arg, table) →
  Forall (λ i, ∀ arg' t,
            parse_tag build i = Some (arg', t) →
            argument (inflection build) arg' ≠ argument (inflection build) arg)
         after →
  match tableType (inflection build) table with
  | Some tableTypeName =>
      is_Some (mapM (patch_pair build) (before ++ after)) →
      ∃ out,
        ReplaceTypeWithPatchPlugin build inputFields context = Some out
        ∧ assoc (argument (inflection build) arg) out
          = Some {| field_type :=
                      getTypeByName build
                        (patchType (inflection build) tableTypeName);
                    field_description := None |}
  | None => ReplaceTypeWithPatchPlugin build inputFields context = None
  end.
Proof.
  intros Htags Hitems Hparse Hlast.
  destruct (parsed_item_usable build tags before item after Hitems)
    as [Htruthy Hobj]; [by rewrite Hparse|].
  unfold ReplaceTypeWithPatchPlugin. rewrite Htags, Htruthy, Hobj, Hitems.
  cbn [andb].
  destruct (tableType (inflection build) table) as [tableTypeName|] eqn:Htype.
  - intros [pairs Hpairs]. apply mapM_Some in Hpairs.
    apply Forall2_app_inv_l in Hpairs as (pb & pa & Hpb & Hpa & ->).
    set (field := argument (inflection build) arg).
    set (pt := patchType (inflection build) tableTypeName).
    assert (mapM (patch_pair build) (before ++ item :: after)
            = Some (pb ++ (field, pt) :: pa)) as ->.
    { apply mapM_Some. apply Forall2_app; [done|]. constructor; [|done].
      unfold patch_pair. rewrite Hparse. simpl. by rewrite Htype. }
    eexists. split; [done|]. rewrite hook_fields_lookup.
    rewrite reverse_app, reverse_cons, <- app_assoc, assoc_app.
    assert (assoc field (reverse pa) = None) as ->.
    { apply assoc_None. rewrite fmap_reverse, elem_of_reverse.
      intros Hin. apply list_elem_of_fmap in Hin as ([k y] & Hk & Hin).
      simpl in Hk. subst k.
      clear -Hpa Hlast Hin. induction Hpa as [|i p after pa Hi _ IH];
        [by apply elem_of_nil in Hin|].
      apply Forall_cons in Hlast as [Hlast1 Hlast2].
      apply elem_of_cons in Hin as [<-|Hin]; [|by apply IH].
      unfold patch_pair in Hi.
      destruct (parse_tag build i) as [[arg' t]|] eqn:Hp; [|done].
      simpl in Hi. destruct (tableType (inflection build) t); [|done].
      injection Hi as Hi _. by apply (Hlast1 arg' t). }
    simpl. by rewrite String.eqb_refl.
  - assert (mapM (patch_pair build) (before ++ item :: after) = None) as ->;
      [|done].
    apply mapM_None. apply Exists_app. right. left.
    unfold patch_pair. rewrite Hparse. simpl. by rewrite Htype.
Qed.

(** ** The two plugins on value trees *)

(** On a type graph with consistent names and no bare tag, and an input
    whose objects have distinct keys that are in the map or declared, the
    rewrite of the tree by the precomputing plugin and the rewrite by the
    per-call plugin give the resolver the same input. *)
Lemma plugins_agree_on_trees build scope field (inputType : GqlType) pm
    (args : list (string * JsValue)) :
  args_input field = Some inputType →
  consistent_names inputType = true →
  no_bare_tag build inputType = true →
  Precomputed.populatePatchMap build inputType ∅ = Some pm →
  walk_shaped pm inputType (args_input_value args) = true →
  args_input_value
    <$> Precomputed.ResolvePatchFieldsPlugin build scope field args
  = args_input_value
      <$> PerCall.ResolvePatchFieldsPlugin build scope field args.
Proof.
  intros Hfield Hnames Hbare Hpop Hshape.
  pose proof (populate_agrees build inputType pm Hnames Hbare Hpop) as Hagree.
  unfold Precomputed.ResolvePatchFieldsPlugin, Precomputed.filter,
    PerCall.ResolvePatchFieldsPlugin, PerCall.filter, PerCall.resolver.
  destruct (procedure_mutation scope); [|done].
  rewrite Hfield, Hpop. cbn [mbind option_bind].
  destruct (0 <? size pm)%nat eqn:Hsize.
  - unfold Precomputed.resolver. rewrite Hfield. cbn [mbind option_bind].
    rewrite <- (transforms_agree build pm inputType _ Hagree Hshape).
    destruct (Precomputed.transform build pm inputType _) as [input|] eqn:Hin;
      [|done].
    simpl. f_equal. unfold args_input_value in *.
    destruct (has_key "input" args) eqn:Hkey.
    + by rewrite assoc_obj_set_eq.
    + unfold has_key in Hkey. destruct (assoc "input" args); [done|].
      simpl in *. symmetry. by eapply precomputed_undefined.
  - apply Nat.ltb_ge in Hsize.
    assert (pm = ∅) as -> by (apply map_size_empty_iff; lia).
    rewrite percall_identity; [done| |done].
    intros kind name Hin. destruct (Hagree kind name Hin) as (m & -> & Hm).
    f_equal. apply map_eq. intros arg. by rewrite <- Hm.
Qed.
(** * The claims *)

Lemma tag_nonempty arg rest :
  truthy (Some (TagString (arg +:+ " " +:+ rest))) = true.
Proof. by destruct arg. Qed.

(** C1. A procedure whose input type [N] carries [@patch patch
    schema.entity_table], the table resolving to [T] with the attributes
    [first_column] and [second_column] inflected to [firstColumn] and
    [secondColumn]: both plugins hand the resolver exactly [{ id: "u1",
    patch: { first_column: 1, second_column: 2 } }] for the submitted
    [{ id: "u1", patch: { firstColumn: 1, secondColumn: 2 } }]. *)
Theorem single_level_annotation build scope (N P idType t1 t2 : string)
    (T : PgClass) (a1 a2 : PgAttribute) :
  procedure_mutation scope = true →
  patchTags_of build N = Some (TagString "patch schema.entity_table") →
  patchTags_of build P = None →
  find_table build "schema" (Some "entity_table") = Some T →
  argument (inflection build) "patch" = "patch" →
  attributes T = [a1; a2] →
  attr_name a1 = "first_column" → attr_name a2 = "second_column" →
  column (inflection build) a1 = "firstColumn" →
  column (inflection build) a2 = "secondColumn" →
  let patchType :=
    GFields KInputObject P
            [("firstColumn", GLeaf t1); ("secondColumn", GLeaf t2)] in
  let field :=
    {| args_input :=
         Some (GNonNull (GFields KInputObject N
                 [("id", GLeaf idType); ("patch", patchType)])) |} in
  Precomputed.ResolvePatchFieldsPlugin build scope field
    [("input", Example.submitted)] = Some [("input", Example.rewritten)]
  ∧ PerCall.ResolvePatchFieldsPlugin build scope field
      [("input", Example.submitted)] = Some [("input", Example.rewritten)].
Proof.
  intros Hscope HN HP Htable Harg Hattrs Hn1 Hn2 Hc1 Hc2 patchType field.
  assert (∀ val, newJson build (Some T) val =
                 JObj <$> (obj ← add_column build val [] a1;
                           obj ← add_column build val obj a2; Some obj))
    as Hjson.
  { intros val. unfold newJson. simpl. rewrite Hattrs. simpl.
    destruct (add_column build val [] a1); simpl; [|done].
    by destruct (add_column build val _ a2). }
  assert (getKey N "patch" ≠ getKey N "id") as Hne
    by (intros ?%getKey_inj_arg; discriminate).
  split.
  - unfold Precomputed.ResolvePatchFieldsPlugin, Precomputed.filter.
    rewrite Hscope. simpl.
    unfold Precomputed.store_patch_tags. rewrite HN, HP. simpl.
    unfold Precomputed.store_tag. simpl. rewrite Htable, Harg. simpl.
    rewrite insert_empty, map_size_singleton. simpl.
    unfold Precomputed.resolver. simpl.
    rewrite (lookup_singleton_ne (getKey N "patch") (getKey N "id")) by done.
    simpl.
    rewrite lookup_singleton_eq. rewrite Hjson.
    unfold add_column. rewrite Hc1, Hc2, Hn1, Hn2. done.
  - unfold PerCall.ResolvePatchFieldsPlugin, PerCall.filter.
    rewrite Hscope. unfold PerCall.resolver. simpl.
    unfold PerCall.patchArgAndTableMap. simpl.
    rewrite HN. simpl. unfold PerCall.store_tag. simpl.
    rewrite Htable, Harg. simpl.
    rewrite (lookup_insert_ne _ "patch" "id") by discriminate.
    rewrite lookup_empty. simpl.
    rewrite lookup_insert_eq. rewrite Hjson.
    unfold add_column. rewrite Hc1, Hc2, Hn1, Hn2. done.
Qed.

Lemma single_level_annotation_witness :
  (patchTags_of Example.example_build "UpdateEntityInput"
   = Some (TagString "patch schema.entity_table")
   ∧ find_table Example.example_build "schema" (Some "entity_table")
     = Some Example.entity_table
   ∧ column (inflection Example.example_build) Example.first_column
     = "firstColumn"
   ∧ column (inflection Example.example_build) Example.second_column
     = "secondColumn")
  ∧ Precomputed.ResolvePatchFieldsPlugin Example.example_build
      Example.mutation_scope
      {| args_input :=
           Some (GNonNull (GFields KInputObject "UpdateEntityInput"
                   [("id", GLeaf "UUID");
                    ("patch",
                     GFields KInputObject "EntityTablePatch"
                       [("firstColumn", GLeaf "Int");
                        ("secondColumn", GLeaf "Int")])])) |}
      [("input", Example.submitted)] = Some [("input", Example.rewritten)]
  ∧ PerCall.ResolvePatchFieldsPlugin Example.example_build
      Example.mutation_scope
      {| args_input :=
           Some (GNonNull (GFields KInputObject "UpdateEntityInput"
                   [("id", GLeaf "UUID");
                    ("patch",
                     GFields KInputObject "EntityTablePatch"
                       [("firstColumn", GLeaf "Int");
                        ("secondColumn", GLeaf "Int")])])) |}
      [("input", Example.submitted)] = Some [("input", Example.rewritten)].
Proof.
  split; [by split_and!|].
  apply (single_level_annotation Example.example_build Example.mutation_scope
           "UpdateEntityInput" "EntityTablePatch" "UUID" "Int" "Int"
           Example.entity_table Example.first_column Example.second_column);
    reflexivity.
Defined.

(** C2 (amended). An annotation whose table does not resolve, and whose
    argument no later annotation of the same declaration names again, is
    stored in the rewrite map all the same, bound to [undefined]: once the
    walk of the type graph returns (type names holding no ['|']) the map is
    not empty, so the mutation is wrapped, and rewriting an object that has
    the annotated field throws in both plugins.  At schema build the hook
    hands the missing table to [inflection.tableType]: it throws when that
    inflector does, and otherwise gives the field the type registered under
    the name the inflector made up. *)
Theorem unresolved_table_throws build (name arg : string) (tags : SmartTag)
    (before after : list TagItem) (item : TagItem) :
  tag_items tags = before ++ item :: after →
  parse_tag build item = Some (arg, None) →
  Forall (λ i, ∀ arg' t,
            parse_tag build i = Some (arg', t) →
            argument (inflection build) arg' ≠ argument (inflection build) arg)
         after →
  let field := argument (inflection build) arg in
  (patchTags_of build name = Some tags →
   (Forall (λ i, is_Some (parse_tag build i)) (before ++ after) →
    ∀ pm0, ∃ pm,
      Precomputed.store_patch_tags build name pm0 = Some pm
      ∧ pm !! getKey name field = Some None
      ∧ (0 < size pm)%nat)
   ∧ (∀ scope fld inputType pm,
        (∀ a, a ∈ obj_names inputType → pipe_free a.2 = true) →
        (KInputObject, name) ∈ obj_names inputType →
        Precomputed.populatePatchMap build inputType ∅ = Some pm →
        pm !! getKey name field = Some None
        ∧ (0 < size pm)%nat
        ∧ (procedure_mutation scope = true →
           args_input fld = Some inputType →
           Precomputed.filter build scope fld = Some (Some pm)))
   ∧ (∀ fields props,
        field ∈ props.*1 →
        PerCall.transform build (GFields KInputObject name fields) (JObj props)
        = None))
  ∧ (∀ pm kind fields,
       pm !! getKey name field = Some None →
       (∀ props,
          field ∈ props.*1 →
          Precomputed.transform build pm (GFields kind name fields)
                                (JObj props) = None)
       ∧ (∀ h l props,
            h !! l = Some (InPlace.CObj props) →
            field ∈ props.*1 →
            InPlace.transform build pm (GFields kind name fields)
                              (InPlace.VRef l) h = None))
  ∧ (∀ inputFields context,
       hook_patchTags build context = Some tags →
       match tableType (inflection build) None with
       | Some tableTypeName =>
           is_Some (mapM (patch_pair build) (before ++ after)) →
           ∃ out,
             ReplaceTypeWithPatchPlugin build inputFields context = Some out
             ∧ assoc field out
               = Some {| field_type :=
                           getTypeByName build
                             (patchType (inflection build) tableTypeName);
                         field_description := None |}
       | None => ReplaceTypeWithPatchPlugin build inputFields context = None
       end).
Proof.
  intros Hitems Hparse Hlast field.
  destruct (parsed_item_usable build tags before item after Hitems)
    as [Htruthy Hobj]; [by rewrite Hparse|].
  split_and!.
  - intros Htags.
    assert (∀ pm0 pm,
              Precomputed.store_patch_tags build name pm0 = Some pm →
              pm !! getKey name field = Some None) as Hstored.
    { intros pm0 pm.
      rewrite (store_patch_tags_usable build name tags) by done.
      intros (m & Hm & ->)%fmap_Some. rewrite Hitems in Hm.
      apply lookup_union_Some_l.
      rewrite (lookup_kmap (M2:=gmap string) (getKey name) m field).
      by apply (percall_store_last build before item after arg None
                  Hparse Hlast ∅). }
    split_and!.
    + intros Hall pm0.
      destruct (percall_store_returns build (tag_items tags)) with
        (m0 := (∅ : gmap string (option PgClass))) as [m Hm].
      { rewrite Hitems. apply Forall_app in Hall as [Hb Ha].
        apply Forall_app. split; [done|]. constructor; [|done].
        by rewrite Hparse. }
      exists (kmap (getKey name) m ∪ pm0).
      assert (Precomputed.store_patch_tags build name pm0
              = Some (kmap (getKey name) m ∪ pm0)) as Hstore
        by (by rewrite (store_patch_tags_usable build name tags), Hm).
      split_and!; [done|by apply (Hstored pm0)|].
      apply (size_lookup_pos _ (getKey name field) None).
      by apply (Hstored pm0).
    + intros scope fld inputType pm Hpipe Hin Hpop.
      assert (pm !! getKey name field = Some None) as Hfield.
      { apply (populate_keeps build name (getKey name field) None inputType)
          with (pm0 := ∅); [|by eexists|done|done|done|by right].
        apply (Hpipe (KInputObject, name) Hin). }
      pose proof (size_lookup_pos _ _ _ Hfield) as Hsize.
      split_and!; [done|done|].
      intros Hscope Hfld. unfold Precomputed.filter.
      rewrite Hscope, Hfld, Hpop. simpl.
      by apply Nat.ltb_lt in Hsize as ->.
    + intros fields props [[k val] [Hk Hin]]%list_elem_of_fmap.
      simpl in Hk. subst k. simpl.
      rewrite (percall_map_usable build name tags) by done.
      destruct (reduce (PerCall.store_tag build) ∅ (tag_items tags))
        as [m|] eqn:Hm; [|done].
      simpl. rewrite fmap_None.
      apply (reduce_None_elem _ _ _ (field, val)); [done|].
      intros acc. unfold PerCall.transform_entry.
      rewrite Hitems in Hm.
      pose proof (percall_store_last build before item after arg None
                    Hparse Hlast ∅ m Hm) as Hfield.
      fold field in Hfield. by rewrite Hfield.
  - intros pm kind fields Hpm. split.
    + intros props [[k val] [Hk Hin]]%list_elem_of_fmap.
      simpl in Hk. subst k. simpl.
      apply (reduce_None_elem _ _ _ (field, val)); [done|].
      intros acc. unfold Precomputed.transform_entry. by rewrite Hpm.
    + intros h l props Hcell [[k val] [Hk Hin]]%list_elem_of_fmap.
      simpl in Hk. subst k. simpl. rewrite Hcell. simpl.
      apply (reduce_None_elem _ _ _ (field, val)); [done|].
      intros acc. unfold InPlace.transform_entry. by rewrite Hpm.
  - intros inputFields context Htags.
    apply (hook_annotation build tags before item after arg None context
             inputFields Htags Hitems Hparse Hlast).
Qed.

(** Two annotations of the argument [patch], the second naming a table
    that does not exist: the second decides, the mutation is wrapped, and
    both plugins throw on the call of the plugin's comments. *)
Lemma unresolved_table_throws_witness :
  let build :=
    {| inflection := Example.example_inflection;
       pgIntrospectionResultsByKind :=
         {| procedure :=
              [ {| proc_name := "update_entity";
                   proc_tags_patch :=
                     Some (TagArray ["patch schema.entity_table";
                                     "patch schema.ghost_table"]) |} ];
            type := []; class := [Example.entity_table] |};
       getTypeByName := λ _, None;
       realm := Example.node_realm |} in
  (patchTags_of build "UpdateEntityInput"
   = Some (TagArray ["patch schema.entity_table"; "patch schema.ghost_table"])
   ∧ parse_tag build (ItemString "patch schema.ghost_table")
     = Some ("patch", None))
  ∧ Precomputed.filter build Example.mutation_scope Example.updateEntity
    = Some (Some {[ "UpdateEntityInput|patch" := None ]})
  ∧ InPlace.transform build {[ "UpdateEntityInput|patch" := None ]}
      Example.UpdateEntityInput (InPlace.VRef 1) Example.entity_store
    = None
  ∧ PerCall.transform build Example.UpdateEntityInput Example.submitted
    = None.
Proof.
  intros build. split; [by split|].
  destruct (unresolved_table_throws build "UpdateEntityInput" "patch"
              (TagArray ["patch schema.entity_table";
                         "patch schema.ghost_table"])
              [ItemString "patch schema.entity_table"] []
              (ItemString "patch schema.ghost_table")
              eq_refl eq_refl (Forall_nil_2 _))
    as (HA & HB & _).
  destruct (HA eq_refl) as (_ & Hpop & Hpercall).
  destruct (Hpop Example.mutation_scope Example.updateEntity
              (GNonNull Example.UpdateEntityInput)
              {[ "UpdateEntityInput|patch" := None ]})
    as (Hkey & _ & Hfilter).
  { intros a Ha. simpl in Ha.
    repeat (apply elem_of_cons in Ha as [->|Ha]; [reflexivity|]).
    by apply elem_of_nil in Ha. }
  { left. }
  { reflexivity. }
  split_and!.
  - by apply Hfilter.
  - apply (proj2 (HB _ KInputObject _ Hkey) _ 1%nat
             [("id", InPlace.VStr "u1"); ("patch", InPlace.VRef 2)]);
      [reflexivity|right; left].
  - apply Hpercall. right. left.
Defined.

(** [update_ghost] names a table that does not exist: its pairing is in the
    map, and both the schema hook and the resolution of a call throw. *)
Lemma unresolved_table_not_silent :
  (map_to_list <$>
     Precomputed.populatePatchMap Example.example_build
       (GNonNull Example.UpdateGhostInput) ∅)
  = Some [("UpdateGhostInput|patch", None)]
  ∧ Precomputed.ResolvePatchFieldsPlugin Example.example_build
      Example.mutation_scope Example.updateGhost
      [("input", Example.submitted)] = None
  ∧ PerCall.ResolvePatchFieldsPlugin Example.example_build
      Example.mutation_scope Example.updateGhost
      [("input", Example.submitted)] = None
  ∧ ReplaceTypeWithPatchPlugin Example.example_build
      [("patch", {| field_type := Some (GLeaf "JSON");
                    field_description := None |})]
      {| isMutationInput := true;
         pgIntrospection_type_tags_patch := None;
         GraphQLInputObjectType_name := "UpdateGhostInput" |} = None.
Proof. split_and!; by vm_compute. Qed.

(** C3 (amended). For a well-formed annotation ["arg ns.tbl"] whose table
    resolves, the hook returns the field list in which the field named
    [inflection.argument(arg)] is a fresh field whose type is the looked-up
    patch type, every field of another name being unchanged; when the list
    has no field of that name the hook appends one, so the annotation is
    not inert. *)
Theorem annotated_field_replaced build
    (inputFields : list (string * FieldSpec)) (context : HookContext)
    (arg ns tbl tableTypeName : string) (T : PgClass) :
  char_free " " arg = true → char_free " " ns = true →
  char_free "." ns = true → char_free " " tbl = true →
  char_free "." tbl = true →
  hook_patchTags build context
    = Some (TagString (arg +:+ " " +:+ ns +:+ "." +:+ tbl)) →
  find_table build ns (Some tbl) = Some T →
  tableType (inflection build) (Some T) = Some tableTypeName →
  let field := argument (inflection build) arg in
  let patch :=
    {| field_type :=
         getTypeByName build (patchType (inflection build) tableTypeName);
       field_description := None |} in
  ∃ out,
    ReplaceTypeWithPatchPlugin build inputFields context = Some out
    ∧ assoc field out = Some patch
    ∧ (∀ k, k ≠ field → assoc k out = assoc k inputFields)
    ∧ out.*1 = if has_key field inputFields then inputFields.*1
               else inputFields.*1 ++ [field].
Proof.
  intros Harg Hns1 Hns2 Htbl1 Htbl2 Htags Htable Htype field patch.
  exists (obj_set field patch inputFields). split_and!.
  - unfold ReplaceTypeWithPatchPlugin. rewrite Htags, tag_nonempty.
    cbn [string_or_object andb tag_items mapM]. unfold patch_pair.
    rewrite parse_tag_well_formed by done. simpl.
    rewrite Htable, Htype. done.
  - apply assoc_obj_set_eq.
  - intros k Hk. by apply assoc_obj_set_ne.
  - apply keys_obj_set.
Qed.

Lemma annotated_field_replaced_witness :
  let inputFields :=
    [("id", {| field_type := Some (GLeaf "UUID");
               field_description := None |});
     ("patch", {| field_type := Some (GLeaf "JSON");
                  field_description := Some "The patch." |})] in
  let context :=
    {| isMutationInput := true;
       pgIntrospection_type_tags_patch := None;
       GraphQLInputObjectType_name := "UpdateEntityInput" |} in
  (hook_patchTags Example.example_build context
   = Some (TagString "patch schema.entity_table")
   ∧ find_table Example.example_build "schema" (Some "entity_table")
     = Some Example.entity_table
   ∧ tableType (inflection Example.example_build) (Some Example.entity_table)
     = Some "EntityTable")
  ∧ ∃ out,
      ReplaceTypeWithPatchPlugin Example.example_build inputFields context
      = Some out
      ∧ assoc "patch" out
        = Some {| field_type := Some Example.EntityTablePatch;
                  field_description := None |}
      ∧ assoc "id" out = assoc "id" inputFields
      ∧ out.*1 = ["id"; "patch"].
Proof.
  intros inputFields context. split; [by split_and!|].
  destruct (annotated_field_replaced Example.example_build inputFields context
              "patch" "schema" "entity_table" "EntityTable"
              Example.entity_table
              eq_refl eq_refl eq_refl eq_refl eq_refl eq_refl eq_refl eq_refl)
    as (out & Hout & Hfield & Hother & Hkeys).
  exists out. split_and!; [exact Hout | exact Hfield | | exact Hkeys].
  apply Hother. discriminate.
Defined.

(** An input type without a [patch] field gains one from the annotation of
    [update_entity]. *)
Lemma unmatched_annotation_adds_field :
  has_key "patch"
    [("id", {| field_type := Some (GLeaf "UUID");
               field_description := None |})] = false
  ∧ ReplaceTypeWithPatchPlugin Example.example_build
      [("id", {| field_type := Some (GLeaf "UUID");
                 field_description := None |})]
      {| isMutationInput := true;
         pgIntrospection_type_tags_patch := None;
         GraphQLInputObjectType_name := "UpdateEntityInput" |}
    = Some [("id", {| field_type := Some (GLeaf "UUID");
                      field_description := None |});
            ("patch", {| field_type := Some Example.EntityTablePatch;
                         field_description := None |})].
Proof. split; reflexivity. Qed.

(** The precomputing plugin hands [resolve] the [args] object it received:
    same keys, and every argument but [input] with the value it had. *)
Lemma precomputed_keeps_siblings build scope field args out :
  Precomputed.ResolvePatchFieldsPlugin build scope field args = Some out →
  out.*1 = args.*1 ∧ ∀ k, k ≠ "input" → assoc k out = assoc k args.
Proof.
  unfold Precomputed.ResolvePatchFieldsPlugin.
  destruct (Precomputed.filter build scope field) as [[pm|]|]; [| |done].
  - unfold Precomputed.resolver.
    destruct (args_input field) as [inputType|]; simpl; [|done].
    destruct (Precomputed.transform _ _ _ _) as [input|]; simpl; [|done].
    intros [= <-]. destruct (has_key "input" args) eqn:E; [|done]. split.
    + by rewrite keys_obj_set, E.
    + intros k Hk. by apply assoc_obj_set_ne.
  - by intros [= <-].
Qed.

(** C4. Every argument beside [input] should reach the resolver with its
    submitted value.  The per-call plugin calls [resolve] with the fresh
    object [{ input: ... }]: at the call of [updateEntity] with [input] and
    a second argument [dryRun], the resolver receives [input] alone, whereas
    the precomputing plugin passes [dryRun] on (see
    [precomputed_keeps_siblings]). *)
Theorem percall_drops_siblings :
  PerCall.ResolvePatchFieldsPlugin Example.example_build
    Example.mutation_scope Example.updateEntity
    [("input", Example.submitted); ("dryRun", JBool true)]
  = Some [("input", Example.rewritten)]
  ∧ Precomputed.ResolvePatchFieldsPlugin Example.example_build
      Example.mutation_scope Example.updateEntity
      [("input", Example.submitted); ("dryRun", JBool true)]
    = Some [("input", Example.rewritten); ("dryRun", JBool true)].
Proof. split; by vm_compute. Qed.







(** C7 (amended). A field matched by an annotation whose table [T]
    resolved, holding an object [v], is replaced by an object [out] whose
    keys are exactly the raw names of the attributes of [T] whose inflected
    column name is a property of [v], its own or one it inherits from
    [Object.prototype], each bound to the value [v] has under that
    inflected name.  When no inflected column name of [T] is the name of an
    inherited property these are the attributes whose inflected name is a
    key of [v]: attributes missing from [v] are left out and keys of [v]
    that are no inflected column name are dropped.  Both plugins do so in
    the callback that visits the field, and the object they leave for the
    enclosing object holds [out] under the field (for the precomputing
    plugin, on a store in which no object of the value occurs twice). *)
Theorem matched_field_rewritten build (T : PgClass)
    (v : list (string * JsValue)) (arg : string) :
  NoDup (attr_name <$> attributes T) →
  ∃ out,
    newJson build (Some T) (JObj v) = Some (JObj out)
    ∧ (∀ k, k ∈ out.*1 ↔
          ∃ attr, attr ∈ attributes T ∧ attr_name attr = k
                  ∧ (column (inflection build) attr ∈ v.*1
                     ∨ column (inflection build) attr
                       ∈ Object_prototype (realm build)))
    ∧ NoDup out.*1
    ∧ (∀ attr, attr ∈ attributes T →
               column (inflection build) attr ∈ v.*1 →
               assoc (attr_name attr) out
               = assoc (column (inflection build) attr) v)
    ∧ (∀ attr, attr ∈ attributes T →
               column (inflection build) attr ∉ v.*1 →
               column (inflection build) attr
               ∈ Object_prototype (realm build) →
               assoc (attr_name attr) out = Some builtin)
    ∧ ((∀ attr, attr ∈ attributes T →
                column (inflection build) attr
                ∉ Object_prototype (realm build)) →
       ∀ k, k ∈ out.*1 ↔
            ∃ attr, attr ∈ attributes T ∧ attr_name attr = k
                    ∧ column (inflection build) attr ∈ v.*1)
    ∧ (∀ (m : gmap string (option PgClass)) fields recurse res,
         m !! arg = Some (Some T) →
         PerCall.transform_entry build m fields recurse res (arg, JObj v)
         = Some (obj_set arg (JObj out) res))
    ∧ (∀ (m : gmap string (option PgClass)) kind name fields props r,
         PerCall.patchArgAndTableMap build kind name = Some m →
         m !! arg = Some (Some T) →
         NoDup props.*1 → (arg, JObj v) ∈ props →
         PerCall.transform build (GFields kind name fields) (JObj props)
         = Some r →
         ∃ props', r = JObj props' ∧ assoc arg props' = Some (JObj out))
    ∧ (∀ pm name fields recurse h l props val,
         pm !! getKey name arg = Some (Some T) →
         h !! l = Some (InPlace.CObj props) →
         InPlace.unfolds h val (JObj v) →
         ∃ cell,
           InPlace.transform_entry build pm name fields recurse
                                   (InPlace.VRef l) h (arg, val)
           = Some (<[l := InPlace.CObj
                            (obj_set arg (InPlace.VRef (length h)) props)]>
                     (h ++ [InPlace.CObj cell]))
           ∧ Forall2 (λ p q, p.1 = q.1 ∧ InPlace.unfolds h q.2 p.2) out cell)
    ∧ (∀ pm kind name fields h l props h',
         pm !! getKey name arg = Some (Some T) →
         (arg, JObj v) ∈ props →
         InPlace.unshared h (InPlace.VRef l) (JObj props) →
         InPlace.transform build pm (GFields kind name fields)
                           (InPlace.VRef l) h = Some h' →
         ∃ props', InPlace.unfolds h' (InPlace.VRef l) (JObj props')
                   ∧ props'.*1 = props.*1
                   ∧ assoc arg props' = Some (JObj out)).
Proof.
  intros Hnames.
  destruct (newJson_object build T v) as (out & Hjson & Hnd & Hkeys & Hval).
  assert (∀ k, k ∈ out.*1 ↔
               ∃ attr, attr ∈ attributes T ∧ attr_name attr = k
                       ∧ (column (inflection build) attr ∈ v.*1
                          ∨ column (inflection build) attr
                            ∈ Object_prototype (realm build))) as Hkeys'.
  { intros k. rewrite Hkeys. by setoid_rewrite properties_keys. }
  exists out. split_and!; [done|done|done|..].
  - intros attr Hattr Hin. rewrite (Hval Hnames attr Hattr).
    + unfold properties. rewrite assoc_app.
      destruct (assoc _ v) eqn:E; [done|]. by apply assoc_None in E.
    + apply properties_keys. by left.
  - intros attr Hattr Hnin Hin. rewrite (Hval Hnames attr Hattr).
    + unfold properties. rewrite assoc_app.
      apply assoc_None in Hnin as ->. unfold inherited.
      clear -Hin. induction (Object_prototype (realm build)) as [|n ns IH];
        [by apply elem_of_nil in Hin|].
      simpl. destruct (String.eqb_spec n (column (inflection build) attr))
        as [_|Hne]; [done|].
      apply elem_of_cons in Hin as [?|Hin]; [done|by apply IH].
    + apply properties_keys. by right.
  - intros Hown k. rewrite Hkeys'. split.
    + intros (attr & Hattr & Hk & [Hin|Hin]); [by exists attr|].
      by destruct (Hown attr Hattr).
    + intros (attr & Hattr & Hk & Hin). exists attr.
      split_and!; [done..|by left].
  - intros m fields recurse res Hm.
    rewrite (percall_entry_matched _ _ _ _ _ _ _ _ Hm). by rewrite Hjson.
  - intros m kind name fields props r Hmap Hm Hprops Hin Hr.
    destruct (percall_object_matched build m kind name fields props r
                arg (JObj v) (Some T) Hmap Hprops Hr Hin Hm)
      as (props' & json & -> & _ & Hj & _ & Hassoc).
    rewrite Hjson in Hj. injection Hj as <-. by exists props'.
  - intros pm name fields recurse h l props val Hpm Hcell Hunf.
    pose proof (in_place_entry_matched build pm name fields recurse h l props
                  arg val (JObj v) (Some T) Hpm Hcell Hunf) as H.
    rewrite Hjson in H. destruct H as (jt & jh & [= <-] & Hentry & Hjh).
    by exists jh.
  - intros pm kind name fields h l props h' Hpm Hin Hun Hh'.
    destruct (in_place_object_matched build pm kind name fields h l props h'
                arg (JObj v) (Some T) Hun Hh' Hin Hpm)
      as (props' & json & Hunf & Hk & Hj & Hassoc).
    rewrite Hjson in Hj. injection Hj as <-. by exists props'.
Qed.

(** The partial patch [{ firstColumn: 1 }] against [entity_table]: the
    rewritten field has the single key [first_column]. *)
Lemma matched_field_rewritten_witness :
  NoDup (attr_name <$> attributes Example.entity_table)
  ∧ ∃ out,
      newJson Example.example_build (Some Example.entity_table)
        (JObj [("firstColumn", JNum 1)]) = Some (JObj out)
      ∧ (∀ k, k ∈ out.*1 ↔ k = "first_column")
      ∧ assoc "first_column" out = Some (JNum 1).
Proof.
  assert (NoDup (attr_name <$> attributes Example.entity_table)) as Hnd.
  { simpl. apply NoDup_cons. split; [|apply NoDup_singleton].
    rewrite list_elem_of_singleton. discriminate. }
  split; [exact Hnd|].
  destruct (matched_field_rewritten Example.example_build Example.entity_table
              [("firstColumn", JNum 1)] "patch" Hnd)
    as (out & Hout & _ & _ & Hval & _ & Hkeys & _).
  exists out. split_and!; [exact Hout| |].
  - intros k. rewrite Hkeys.
    + split.
      * intros (attr & Hin & <- & Hcol). simpl in Hin.
        apply elem_of_cons in Hin as [->|Hin]; [done|].
        apply list_elem_of_singleton in Hin as ->.
        vm_compute in Hcol. apply list_elem_of_singleton in Hcol.
        discriminate.
      * intros ->. exists Example.first_column.
        split_and!; [left | done | left].
    + intros a Ha. simpl in Ha.
      apply elem_of_cons in Ha as [->|Ha];
        [|apply list_elem_of_singleton in Ha as ->];
        intros Hin; simpl in Hin;
        repeat (apply elem_of_cons in Hin as [Hin|Hin]; [discriminate|]);
        by apply elem_of_nil in Hin.
  - apply (Hval Example.first_column); left.
Defined.

(** A table with a column [constructor], and the empty patch [{}]: the
    column is no key of the patch, yet ['constructor' in {}] holds and the
    rewritten field has the key. *)
Lemma inherited_column_kept :
  column (inflection Example.example_build) Example.constructor_column
  = "constructor"
  ∧ has_key "constructor" ([] : list (string * JsValue)) = false
  ∧ newJson Example.example_build (Some Example.part_table) (JObj [])
    = Some (JObj [("constructor", builtin)])
  ∧ PerCall.transform_entry Example.example_build
      {[ "patch" := Some Example.part_table ]} [] (λ _ _, None) []
      ("patch", JObj [])
    = Some [("patch", JObj [("constructor", builtin)])]
  ∧ InPlace.transform_entry Example.example_build
      {[ "UpdateEntityInput|patch" := Some Example.part_table ]}
      "UpdateEntityInput" [] (λ _ _ _, None) (InPlace.VRef 0)
      [InPlace.CObj [("patch", InPlace.VRef 1)]; InPlace.CObj []]
      ("patch", InPlace.VRef 1)
    = Some [InPlace.CObj [("patch", InPlace.VRef 2)]; InPlace.CObj [];
            InPlace.CObj [("constructor", InPlace.VBuiltin)]].
Proof. by split_and!. Qed.




(** C9 (amended). On a type graph with consistent names and no bare tag,
    for which [populatePatchMap] returns, and for submitted arguments in
    which no object occurs twice and every object-like type the walk
    reaches holds an object with distinct keys that are each in [patchMap]
    or declared, the two plugins hand the resolver the same input, or both
    throw: the arguments that the precomputing plugin has rewritten in
    place hold, under [input], the input that the per-call plugin
    builds. *)
Theorem strategies_agree build scope field (inputType : GqlType) pm
    (args : list (string * JsValue)) h a :
  args_input field = Some inputType →
  consistent_names inputType = true →
  no_bare_tag build inputType = true →
  Precomputed.populatePatchMap build inputType ∅ = Some pm →
  walk_shaped pm inputType (args_input_value args) = true →
  InPlace.unshared h (InPlace.VRef a) (JObj args) →
  match PerCall.ResolvePatchFieldsPlugin build scope field args with
  | Some out =>
      ∃ h' args',
        InPlace.ResolvePatchFieldsPlugin build scope field (InPlace.VRef a) h
        = Some h'
        ∧ InPlace.unfolds h' (InPlace.VRef a) (JObj args')
        ∧ args_input_value args' = args_input_value out
  | None =>
      InPlace.ResolvePatchFieldsPlugin build scope field (InPlace.VRef a) h
      = None
  end.
Proof.
  intros Hfield Hnames Hbare Hpop Hshape Hun.
  pose proof (plugins_agree_on_trees build scope field inputType pm args
                Hfield Hnames Hbare Hpop Hshape) as Htrees.
  pose proof (in_place_unshared_args build scope field h a args Hun) as Hin.
  destruct (Precomputed.ResolvePatchFieldsPlugin build scope field args)
    as [args'|];
    destruct (PerCall.ResolvePatchFieldsPlugin build scope field args)
      as [out|]; try done.
  destruct Hin as (h' & Hh' & Hunf). exists h', args'.
  split_and!; [done..|]. by injection Htrees.
Qed.

Lemma strategies_agree_witness :
  (consistent_names (GNonNull Example.UpdateEntityInput) = true
   ∧ no_bare_tag Example.example_build (GNonNull Example.UpdateEntityInput)
     = true
   ∧ Precomputed.populatePatchMap Example.example_build
       (GNonNull Example.UpdateEntityInput) ∅
     = Some {[ "UpdateEntityInput|patch" := Some Example.entity_table ]}
   ∧ walk_shaped
       {[ "UpdateEntityInput|patch" := Some Example.entity_table ]}
       (GNonNull Example.UpdateEntityInput) Example.submitted = true
   ∧ InPlace.unshared Example.entity_store (InPlace.VRef 0)
       (JObj [("input", Example.submitted)]))
  ∧ PerCall.ResolvePatchFieldsPlugin Example.example_build
      Example.mutation_scope Example.updateEntity
      [("input", Example.submitted)]
    = Some [("input", Example.rewritten)]
  ∧ ∃ h' args',
      InPlace.ResolvePatchFieldsPlugin Example.example_build
        Example.mutation_scope Example.updateEntity (InPlace.VRef 0)
        Example.entity_store = Some h'
      ∧ InPlace.unfolds h' (InPlace.VRef 0) (JObj args')
      ∧ args_input_value args' = Example.rewritten.
Proof.
  assert (InPlace.unshared Example.entity_store (InPlace.VRef 0)
            (JObj [("input", Example.submitted)])) as Hun.
  { vm_compute. repeat (constructor; [set_solver|]). constructor. }
  split; [by split_and!|]. split; [reflexivity|].
  apply (strategies_agree Example.example_build Example.mutation_scope
           Example.updateEntity (GNonNull Example.UpdateEntityInput)
           {[ "UpdateEntityInput|patch" := Some Example.entity_table ]}
           [("input", Example.submitted)] Example.entity_store 0%nat);
    [reflexivity..|exact Hun].
Defined.

(** [renameEntity] with an explicit [null] for its nested input: the
    precomputing plugin, having found no tag, passes the arguments on, the
    store untouched; the per-call plugin throws on [Object.entries(null)].
    And [updateFamily] with one object for both children: the precomputing
    plugin leaves [childPatch] empty, the per-call plugin does not. *)
Lemma strategies_differ_on_null :
  Precomputed.ResolvePatchFieldsPlugin Example.example_build
    Example.mutation_scope Example.renameEntity
    [("input", JObj [("id", JStr "u1"); ("name", JNull)])]
  = Some [("input", JObj [("id", JStr "u1"); ("name", JNull)])]
  ∧ InPlace.ResolvePatchFieldsPlugin Example.example_build
      Example.mutation_scope Example.renameEntity (InPlace.VRef 0)
      [InPlace.CObj [("input", InPlace.VRef 1)];
       InPlace.CObj [("id", InPlace.VStr "u1"); ("name", InPlace.VNull)]]
    = Some [InPlace.CObj [("input", InPlace.VRef 1)];
            InPlace.CObj [("id", InPlace.VStr "u1");
                          ("name", InPlace.VNull)]]
  ∧ PerCall.ResolvePatchFieldsPlugin Example.example_build
      Example.mutation_scope Example.renameEntity
      [("input", JObj [("id", JStr "u1"); ("name", JNull)])]
    = None
  ∧ (∃ h',
       InPlace.ResolvePatchFieldsPlugin Example.example_build
         Example.mutation_scope Example.updateFamily (InPlace.VRef 0)
         Example.shared_child_store = Some h'
       ∧ InPlace.unfolds h' (InPlace.VRef 0)
           (JObj [("input",
                   JObj [("id", JStr "u1");
                         ("children",
                          JArr [JObj [("childId", JStr "c1");
                                      ("childPatch", JObj [])];
                                JObj [("childId", JStr "c1");
                                      ("childPatch", JObj [])]])])]))
  ∧ PerCall.ResolvePatchFieldsPlugin Example.example_build
      Example.mutation_scope Example.updateFamily
      [("input",
        JObj [("id", JStr "u1");
              ("children", JArr [Example.first_child; Example.first_child])])]
    = Some
        [("input",
          JObj [("id", JStr "u1");
                ("children",
                 JArr [JObj [("childId", JStr "c1");
                             ("childPatch", JObj [("first_column", JNum 1)])];
                       JObj [("childId", JStr "c1");
                             ("childPatch",
                              JObj [("first_column", JNum 1)])]])])].
Proof.
  split_and!; [reflexivity..| |reflexivity].
  eexists. split; [reflexivity|]. by eexists.
Qed.

(** A bare [@patch] on [touch_entity]: the precomputing plugin skips the
    tag, which is neither a string nor an object, and does not wrap; the
    per-call plugin throws on [true.split]. *)
Example strategies_differ_on_bare_tag :
  Precomputed.ResolvePatchFieldsPlugin Example.example_build
    Example.mutation_scope Example.touchEntity
    [("input", JObj [("id", JStr "u1")])]
  = Some [("input", JObj [("id", JStr "u1")])]
  ∧ PerCall.ResolvePatchFieldsPlugin Example.example_build
      Example.mutation_scope Example.touchEntity
      [("input", JObj [("id", JStr "u1")])]
    = None.
Proof. split; reflexivity. Qed.

(** C10 (amended). The rewrite returns for every submitted value in which
    every object-like type the walk reaches holds an object (not [null])
    with distinct keys, each key being either in [patchMap] with a resolved
    table and an object for value, or a declared field whose value is
    shaped likewise: the rewrite in place of the precomputing plugin on
    every store that holds such a value without an object occurring twice,
    and the per-call plugin on a type graph with consistent names and no
    bare tag for which [patchMap] is the map built.  The keys being
    declared is not enough. *)
Theorem rewrite_total build (inputType : GqlType) pm (v : JsValue) :
  well_shaped pm inputType v = true →
  (∀ h val,
     InPlace.unshared h val v →
     is_Some (InPlace.transform build pm inputType val h))
  ∧ (consistent_names inputType = true →
     no_bare_tag build inputType = true →
     Precomputed.populatePatchMap build inputType ∅ = Some pm →
     is_Some (PerCall.transform build inputType v)).
Proof.
  intros Hshape.
  destruct (precomputed_total build pm inputType v Hshape) as [r Hr].
  split.
  - intros h val Hun.
    pose proof (in_place_unshared_value build pm inputType h val v Hun) as H.
    rewrite Hr in H. destruct H as (h' & Hh' & _). by exists h'.
  - intros Hnames Hbare Hpop. exists r.
    rewrite <- (transforms_agree build pm inputType v); [done|..].
    + by apply populate_agrees.
    + by apply well_shaped_walk_shaped.
Qed.

Lemma rewrite_total_witness :
  well_shaped
    {[ "UpdateEntityInput|patch" := Some Example.entity_table ]}
    (GNonNull Example.UpdateEntityInput) Example.submitted = true
  ∧ is_Some
      (InPlace.transform Example.example_build
         {[ "UpdateEntityInput|patch" := Some Example.entity_table ]}
         (GNonNull Example.UpdateEntityInput) (InPlace.VRef 1)
         Example.entity_store)
  ∧ is_Some
      (PerCall.transform Example.example_build
         (GNonNull Example.UpdateEntityInput) Example.submitted).
Proof.
  assert (well_shaped
            {[ "UpdateEntityInput|patch" := Some Example.entity_table ]}
            (GNonNull Example.UpdateEntityInput) Example.submitted = true)
    as Hshape by reflexivity.
  split; [exact Hshape|].
  destruct (rewrite_total Example.example_build
              (GNonNull Example.UpdateEntityInput)
              {[ "UpdateEntityInput|patch" := Some Example.entity_table ]}
              Example.submitted Hshape) as [HA HB].
  split.
  - apply HA. vm_compute. repeat (constructor; [set_solver|]). constructor.
  - by apply HB.
Defined.

(** [{ patch: null }] has only declared keys, and the rewrite throws on
    it in both plugins: [fieldName in null] is a TypeError. *)
Lemma declared_keys_not_enough :
  keys_declared (GNonNull Example.UpdateEntityInput)
                (JObj [("id", JStr "u1"); ("patch", JNull)]) = true
  ∧ InPlace.ResolvePatchFieldsPlugin Example.example_build
      Example.mutation_scope Example.updateEntity (InPlace.VRef 0)
      [InPlace.CObj [("input", InPlace.VRef 1)];
       InPlace.CObj [("id", InPlace.VStr "u1"); ("patch", InPlace.VNull)]]
    = None
  ∧ PerCall.ResolvePatchFieldsPlugin Example.example_build
      Example.mutation_scope Example.updateEntity
      [("input", JObj [("id", JStr "u1"); ("patch", JNull)])] = None.
Proof. split_and!; reflexivity. Qed.
(** * Further properties of the code *)

(** ** The table search and the parsing of a tag *)

Lemma find_table_no_name build ns : find_table build ns None = None.
Proof.
  unfold find_table.
  induction (class (pgIntrospectionResultsByKind build)) as [|t l IH];
    simpl; [done|].
  by rewrite andb_false_r.
Qed.

(** X1. The table of an annotation is the first introspected class whose
    namespace and name are exactly those of the identifier; a class without
    a namespace never matches, and the search yields [undefined] exactly
    when no class matches. *)
Theorem find_table_first_match build (ns tbl : string) :
  match find_table build ns (Some tbl) with
  | Some T =>
      ∃ before after,
        class (pgIntrospectionResultsByKind build) = before ++ T :: after
        ∧ class_namespaceName T = Some ns ∧ class_name T = tbl
        ∧ ∀ T', T' ∈ before →
                ¬ (class_namespaceName T' = Some ns ∧ class_name T' = tbl)
  | None =>
      ∀ T', T' ∈ class (pgIntrospectionResultsByKind build) →
            ¬ (class_namespaceName T' = Some ns ∧ class_name T' = tbl)
  end.
Proof.
  unfold find_table.
  induction (class (pgIntrospectionResultsByKind build)) as [|t l IH]; simpl.
  { by intros T' ?%elem_of_nil. }
  destruct (class_namespaceName t) as [ns'|] eqn:Hns; simpl.
  - destruct (String.eqb_spec ns' ns) as [->|Hne]; simpl.
    + destruct (String.eqb_spec (class_name t) tbl) as [Htbl|Hne].
      * exists [], l. split_and!; [done..|]. by intros T' ?%elem_of_nil.
      * destruct (find _ l) as [T|].
        -- destruct IH as (before & after & -> & ? & ? & Hbefore).
           exists (t :: before), after. split_and!; [done..|].
           intros T' [->|?]%elem_of_cons; [|by apply Hbefore].
           by intros [_ ?].
        -- intros T' [->|?]%elem_of_cons; [|by apply IH]. by intros [_ ?].
    + destruct (find _ l) as [T|].
      * destruct IH as (before & after & -> & ? & ? & Hbefore).
        exists (t :: before), after. split_and!; [done..|].
        intros T' [->|?]%elem_of_cons; [|by apply Hbefore].
        rewrite Hns. by intros [[= ?] _].
      * intros T' [->|?]%elem_of_cons; [|by apply IH].
        rewrite Hns. by intros [[= ?] _].
  - destruct (find _ l) as [T|].
    + destruct IH as (before & after & -> & ? & ? & Hbefore).
      exists (t :: before), after. split_and!; [done..|].
      intros T' [->|?]%elem_of_cons; [|by apply Hbefore].
      rewrite Hns. by intros [? _].
    + intros T' [->|?]%elem_of_cons; [|by apply IH].
      rewrite Hns. by intros [? _].
Qed.

Lemma char_free_app c s1 s2 :
  char_free c (s1 +:+ s2) = char_free c s1 && char_free c s2.
Proof.
  induction s1 as [|a s1 IH]; simpl; [done|].
  rewrite IH. by destruct (Ascii.eqb a c).
Qed.

Lemma append_assoc (s1 s2 s3 : string) :
  (s1 +:+ s2) +:+ s3 = s1 +:+ s2 +:+ s3.
Proof.
  induction s1 as [|a s1 IH]; [done|].
  change (String a ((s1 +:+ s2) +:+ s3) = String a (s1 +:+ s2 +:+ s3)).
  by f_equal.
Qed.

Lemma parse_tag_no_space build s :
  char_free " " s = true → parse_tag build (ItemString s) = None.
Proof. intros Hs. unfold parse_tag. by rewrite split_char_free. Qed.

Lemma truthy_not_bare tags item s :
  item ∈ tag_items tags → item = ItemString s →
  string_or_object tags = true.
Proof.
  destruct tags; simpl; [|done..].
  intros ->%list_elem_of_singleton. done.
Qed.

(** Storing the tags of a type throws as soon as one of them does not
    parse. *)
Lemma store_patch_tags_unparsed build name tags item pm :
  patchTags_of build name = Some tags →
  truthy (Some tags) = true → string_or_object tags = true →
  item ∈ tag_items tags → parse_tag build item = None →
  Precomputed.store_patch_tags build name pm = None.
Proof.
  intros Htags Htruthy Hobj Hin Hparse.
  unfold Precomputed.store_patch_tags. rewrite Htags, Htruthy, Hobj. simpl.
  apply (reduce_None_elem _ _ _ item); [done|].
  intros acc. unfold Precomputed.store_tag. by rewrite Hparse.
Qed.

Lemma percall_map_unparsed build name tags item :
  patchTags_of build name = Some tags →
  truthy (Some tags) = true →
  item ∈ tag_items tags → parse_tag build item = None →
  PerCall.patchArgAndTableMap build KInputObject name = None.
Proof.
  intros Htags Htruthy Hin Hparse.
  unfold PerCall.patchArgAndTableMap. cbn [isInputObjectType].
  rewrite Htags, Htruthy.
  apply (reduce_None_elem _ _ _ item); [done|].
  intros acc. unfold PerCall.store_tag. by rewrite Hparse.
Qed.

(** [populatePatchMap] throws when the block of one input object of the
    graph does. *)
Lemma populate_None build type : ∀ pm0 name,
  (KInputObject, name) ∈ obj_names type →
  (∀ pm, Precomputed.store_patch_tags build name pm = None) →
  Precomputed.populatePatchMap build type pm0 = None.
Proof.
  induction type as [ofType IH|ofType IH|kind n fields IH|n]
    using GqlType_induction; intros pm0 name Hin Hstore.
  - by apply (IH pm0 name).
  - by apply (IH pm0 name).
  - simpl in Hin. apply elem_of_cons in Hin as [[= <- <-]|Hin].
    { simpl. by rewrite Hstore. }
    simpl.
    destruct (if isInputObjectType kind then _ else _) as [stored|];
      simpl; [|done].
    apply list_elem_of_In, in_flat_map in Hin as ([fn ft] & Hft & Hin).
    apply list_elem_of_In in Hft, Hin.
    apply (reduce_None_elem _ _ _ (fn, ft)); [done|].
    intros acc. rewrite Forall_forall in IH.
    by apply (IH (fn, ft) Hft acc name).
  - by apply elem_of_nil in Hin.
Qed.

(** X2. An annotation without a space (no table identifier) makes every
    component throw: [tableId] is [undefined] and [tableId.split('.')] is a
    TypeError.  The schema hook throws; [populatePatchMap] throws for every
    graph that contains the annotated input object, however deep; the
    per-call [transform] throws on every value at that type. *)
Theorem tag_without_space_throws build (s : string) (tags : SmartTag) :
  char_free " " s = true →
  ItemString s ∈ tag_items tags →
  truthy (Some tags) = true →
  (∀ inputFields context,
     hook_patchTags build context = Some tags →
     ReplaceTypeWithPatchPlugin build inputFields context = None)
  ∧ (∀ name type pm0,
       patchTags_of build name = Some tags →
       (KInputObject, name) ∈ obj_names type →
       Precomputed.populatePatchMap build type pm0 = None)
  ∧ (∀ name fields v,
       patchTags_of build name = Some tags →
       PerCall.transform build (GFields KInputObject name fields) v = None).
Proof.
  intros Hs Hin Htruthy.
  pose proof (parse_tag_no_space build s Hs) as Hparse.
  pose proof (truthy_not_bare tags _ s Hin eq_refl) as Hobj.
  split_and!.
  - intros inputFields context Htags. unfold ReplaceTypeWithPatchPlugin.
    rewrite Htags, Htruthy, Hobj. simpl.
    assert (mapM (patch_pair build) (tag_items tags) = None) as ->; [|done].
    apply mapM_None, Exists_exists. exists (ItemString s).
    split; [done|]. unfold patch_pair. by rewrite Hparse.
  - intros name type pm0 Htags Hname. apply (populate_None _ _ _ name Hname).
    intros pm. by eapply store_patch_tags_unparsed.
  - intros name fields v Htags. simpl.
    by rewrite (percall_map_unparsed build name tags (ItemString s)).
Qed.

Lemma tag_without_space_throws_witness :
  let build :=
    {| inflection := Example.example_inflection;
       pgIntrospectionResultsByKind :=
         {| procedure :=
              [ {| proc_name := "update_entity";
                   proc_tags_patch :=
                     Some (TagArray ["patch schema.entity_table"; "patch"])
                |} ];
            type := []; class := [Example.entity_table] |};
       getTypeByName := λ _, None;
       realm := Example.node_realm |} in
  (char_free " " "patch" = true
   ∧ patchTags_of build "UpdateEntityInput"
     = Some (TagArray ["patch schema.entity_table"; "patch"]))
  ∧ Precomputed.populatePatchMap build
      (GNonNull (GFields KObject "Wrapper"
                   [("inner", GList Example.UpdateEntityInput)])) ∅ = None
  ∧ PerCall.transform build Example.UpdateEntityInput (JObj []) = None.
Proof.
  intros build. split; [by split|].
  destruct (tag_without_space_throws build "patch"
              (TagArray ["patch schema.entity_table"; "patch"]) eq_refl)
    as (_ & HA & HB); [right; left | done |].
  split.
  - apply (HA "UpdateEntityInput"); [done|]. simpl. right. left.
  - by apply (HB "UpdateEntityInput").
Defined.

(** X3. Only the first two space-separated tokens of an annotation and the
    first two dot-separated tokens of its table identifier are read:
    whatever follows is ignored. *)
Theorem tag_extra_tokens_ignored build (arg ns tbl rest : string) :
  char_free " " arg = true → char_free " " ns = true →
  char_free "." ns = true → char_free " " tbl = true →
  char_free "." tbl = true →
  parse_tag build
    (ItemString (arg +:+ " " +:+ ns +:+ "." +:+ tbl +:+ " " +:+ rest))
  = Some (arg, find_table build ns (Some tbl))
  ∧ (char_free " " rest = true →
     parse_tag build
       (ItemString (arg +:+ " " +:+ ns +:+ "." +:+ tbl +:+ "." +:+ rest))
     = Some (arg, find_table build ns (Some tbl))).
Proof.
  intros Harg Hns1 Hns2 Htbl1 Htbl2.
  assert (char_free " " (ns +:+ String "." tbl) = true) as Hid.
  { rewrite char_free_app. simpl. by rewrite Hns1, Htbl1. }
  split.
  - unfold parse_tag.
    change (arg +:+ " " +:+ ns +:+ "." +:+ tbl +:+ " " +:+ rest)
      with (arg +:+ String " " (ns +:+ String "." (tbl +:+ String " " rest))).
    rewrite (split_sep " " arg) by done.
    replace (ns +:+ String "." (tbl +:+ String " " rest))
      with ((ns +:+ String "." tbl) +:+ String " " rest).
    2:{ by rewrite append_assoc. }
    rewrite (split_sep " " (ns +:+ String "." tbl)) by done.
    rewrite (split_sep "." ns) by done.
    by rewrite split_char_free.
  - intros Hrest. unfold parse_tag.
    change (arg +:+ " " +:+ ns +:+ "." +:+ tbl +:+ "." +:+ rest)
      with (arg +:+ String " " (ns +:+ String "." (tbl +:+ String "." rest))).
    rewrite (split_sep " " arg) by done.
    rewrite split_char_free.
    2:{ rewrite char_free_app. simpl. rewrite char_free_app. simpl.
        by rewrite Hns1, Htbl1, Hrest. }
    rewrite (split_sep "." ns) by done.
    by rewrite (split_sep "." tbl).
Qed.

Lemma tag_extra_tokens_ignored_witness :
  parse_tag Example.example_build
    (ItemString "patch schema.entity_table and more")
  = Some ("patch", Some Example.entity_table)
  ∧ parse_tag Example.example_build
      (ItemString "patch schema.entity_table.first_column")
    = Some ("patch", Some Example.entity_table).
Proof.
  destruct (tag_extra_tokens_ignored Example.example_build
              "patch" "schema" "entity_table" "and more"
              eq_refl eq_refl eq_refl eq_refl eq_refl) as [H1 _].
  destruct (tag_extra_tokens_ignored Example.example_build
              "patch" "schema" "entity_table" "first_column"
              eq_refl eq_refl eq_refl eq_refl eq_refl) as [_ H2].
  split; [exact H1 | exact (H2 eq_refl)].
Defined.

(** X4. An annotation whose table identifier has no dot never finds a
    table: [tableName] is [undefined], no class has that name, and the
    pair is stored with an [undefined] table, in both plugins' maps. *)
Theorem tag_without_dot_unresolved build (arg tableId : string) :
  char_free " " arg = true → char_free " " tableId = true →
  char_free "." tableId = true →
  let item := ItemString (arg +:+ " " +:+ tableId) in
  let field := argument (inflection build) arg in
  parse_tag build item = Some (arg, None)
  ∧ (∀ name pm, Precomputed.store_tag build name pm item
                = Some (<[getKey name field := None]> pm))
  ∧ (∀ m, PerCall.store_tag build m item = Some (<[field := None]> m)).
Proof.
  intros Harg Hid1 Hid2 item field.
  assert (parse_tag build item = Some (arg, None)) as Hparse.
  { unfold item, parse_tag.
    change (arg +:+ " " +:+ tableId) with (arg +:+ String " " tableId).
    rewrite (split_sep " " arg) by done.
    rewrite (split_char_free " ") by done.
    rewrite (split_char_free ".") by done. simpl.
    by rewrite find_table_no_name. }
  split_and!; [done|..].
  - intros name pm. unfold Precomputed.store_tag. by rewrite Hparse.
  - intros m. unfold PerCall.store_tag. by rewrite Hparse.
Qed.

Lemma tag_without_dot_unresolved_witness :
  char_free "." "entity_table" = true
  ∧ parse_tag Example.example_build (ItemString "patch entity_table")
    = Some ("patch", None).
Proof.
  split; [done|].
  by destruct (tag_without_dot_unresolved Example.example_build
                 "patch" "entity_table" eq_refl eq_refl eq_refl)
    as [H _].
Defined.

(** ** Several annotations on one declaration *)

(** X5. With several annotations on one declaration the schema hook
    retypes every annotated field; for a field annotated twice the last
    annotation decides.  The fields of the type keep their order, the
    fields that did not exist are appended, and every field that no
    annotation names is returned as it was.  (The order is stated for
    argument names that do not start with a digit: JavaScript lists
    integer-like keys first.) *)
Theorem hook_last_annotation_wins build
    (inputFields : list (string * FieldSpec)) (context : HookContext)
    (tags : SmartTag) (pairs : list (string * string)) :
  NoDup inputFields.*1 →
  hook_patchTags build context = Some tags →
  truthy (Some tags) = true → string_or_object tags = true →
  mapM (patch_pair build) (tag_items tags) = Some pairs →
  Forall (λ k, digit_led k = false) pairs.*1 →
  ∃ out,
    ReplaceTypeWithPatchPlugin build inputFields context = Some out
    ∧ (∀ k,
         assoc k out
         = match assoc k (reverse pairs) with
           | Some patchTypeName =>
               Some {| field_type := getTypeByName build patchTypeName;
                       field_description := None |}
           | None => assoc k inputFields
           end)
    ∧ NoDup out.*1
    ∧ ∃ added, out.*1 = inputFields.*1 ++ added
               ∧ ∀ k, k ∈ added → k ∈ pairs.*1 ∧ k ∉ inputFields.*1.
Proof.
  intros Hnd Htags Htruthy Hobj Hpairs _.
  set (spec := λ patchTypeName,
         {| field_type := getTypeByName build patchTypeName;
            field_description := None |}).
  set (patchFields := foldl (add_patch_field build) [] pairs).
  exists (obj_spread inputFields patchFields).
  assert (patchFields = foldl (λ acc p, obj_set p.1 (spec p.2) acc) [] pairs)
    as Hdef by reflexivity.
  assert (obj_spread inputFields patchFields
          = foldl (λ acc p, obj_set p.1 (id p.2) acc) inputFields patchFields)
    as Hspread by reflexivity.
  assert (∀ k, assoc k patchFields = spec <$> assoc k (reverse pairs))
    as Hpf.
  { intros k. rewrite Hdef, (assoc_foldl_obj_set spec pairs [] k).
    by destruct (assoc k (reverse pairs)). }
  destruct (keys_foldl_obj_set spec pairs [] (NoDup_nil_2))
    as (Hndpf & addedpf & Hkeyspf & Haddedpf).
  rewrite <- Hdef in Hndpf, Hkeyspf. simpl in Hkeyspf.
  destruct (keys_foldl_obj_set id patchFields inputFields Hnd)
    as (Hndout & added & Hkeys & Hadded).
  rewrite <- Hspread in Hndout, Hkeys.
  split_and!.
  - unfold ReplaceTypeWithPatchPlugin. rewrite Htags, Htruthy, Hobj. simpl.
    by rewrite Hpairs.
  - intros k. rewrite Hspread.
    rewrite (assoc_foldl_obj_set id patchFields inputFields k).
    rewrite assoc_reverse_NoDup, Hpf by done.
    by destruct (assoc k (reverse pairs)).
  - exact Hndout.
  - exists added. split; [exact Hkeys|].
    intros k Hk. destruct (Hadded k Hk) as [Hin Hnin]. split; [|done].
    rewrite Hkeyspf in Hin. by apply Haddedpf.
Qed.

Lemma hook_last_annotation_wins_witness :
  let build :=
    {| inflection := Example.example_inflection;
       pgIntrospectionResultsByKind :=
         {| procedure :=
              [ {| proc_name := "update_entity";
                   proc_tags_patch :=
                     Some (TagArray ["patch schema.other_table";
                                     "extra schema.entity_table";
                                     "patch schema.entity_table"]) |} ];
            type := [];
            class :=
              [ Example.entity_table;
                {| class_namespaceName := Some "schema";
                   class_name := "other_table"; attributes := [] |} ] |};
       getTypeByName := λ name, Some (GLeaf name);
       realm := Example.node_realm |} in
  let inputFields :=
    [("id", {| field_type := Some (GLeaf "UUID");
               field_description := None |});
     ("patch", {| field_type := Some (GLeaf "JSON");
                  field_description := None |})] in
  let context :=
    {| isMutationInput := true;
       pgIntrospection_type_tags_patch := None;
       GraphQLInputObjectType_name := "UpdateEntityInput" |} in
  mapM (patch_pair build)
       (tag_items (TagArray ["patch schema.other_table";
                             "extra schema.entity_table";
                             "patch schema.entity_table"]))
  = Some [("patch", "OtherTablePatch"); ("extra", "EntityTablePatch");
          ("patch", "EntityTablePatch")]
  ∧ ∃ out,
      ReplaceTypeWithPatchPlugin build inputFields context = Some out
      ∧ assoc "patch" out
        = Some {| field_type := Some (GLeaf "EntityTablePatch");
                  field_description := None |}
      ∧ assoc "id" out = assoc "id" inputFields.
Proof.
  intros build inputFields context. split; [reflexivity|].
  assert (NoDup inputFields.*1) as Hnd.
  { simpl. apply NoDup_cons. split; [|apply NoDup_singleton].
    rewrite list_elem_of_singleton. discriminate. }
  destruct (hook_last_annotation_wins build inputFields context
              (TagArray ["patch schema.other_table";
                         "extra schema.entity_table";
                         "patch schema.entity_table"])
              [("patch", "OtherTablePatch"); ("extra", "EntityTablePatch");
               ("patch", "EntityTablePatch")]
              Hnd eq_refl eq_refl eq_refl eq_refl
              ltac:(by repeat constructor))
    as (out & Hout & Hlookup & _).
  exists out. split_and!; [exact Hout | apply Hlookup | apply Hlookup].
Defined.

Lemma percall_store_lookup build items :
  ∀ m0 : gmap string (option PgClass),
    match mapM (parse_tag build) items with
    | Some pairs =>
        ∃ m, reduce (PerCall.store_tag build) m0 items = Some m
             ∧ ∀ a, m !! a
                    = match assoc a (reverse
                              ((λ p, (argument (inflection build) p.1, p.2))
                                 <$> pairs)) with
                      | Some table => Some table
                      | None => m0 !! a
                      end
    | None => reduce (PerCall.store_tag build) m0 items = None
    end.
Proof.
  induction items as [|item items IH]; intros m0.
  { simpl. by exists m0. }
  rewrite reduce_cons.
  destruct (parse_tag build item) as [[arg table]|] eqn:Hparse.
  - assert (PerCall.store_tag build m0 item
            = Some (<[argument (inflection build) arg := table]> m0)) as ->
      by (unfold PerCall.store_tag; by rewrite Hparse).
    assert (mapM (parse_tag build) (item :: items)
            = (λ k, (arg, table) :: k) <$> mapM (parse_tag build) items)
      as ->.
    { cbn [mapM]. rewrite Hparse. simpl.
      by destruct (mapM (parse_tag build) items). }
    cbn [mbind option_bind].
    specialize (IH (<[argument (inflection build) arg := table]> m0)).
    destruct (mapM (parse_tag build) items) as [pairs|]; [|done].
    destruct IH as (m & Hm & Hlookup). exists m. split; [done|].
    intros a. rewrite Hlookup. cbn [fmap list_fmap fst snd].
    rewrite reverse_cons, assoc_app.
    destruct (assoc a (reverse _)); [done|]. simpl.
    destruct (String.eqb_spec (argument (inflection build) arg) a)
      as [->|Hne].
    + apply lookup_insert_eq.
    + by apply lookup_insert_ne.
  - assert (PerCall.store_tag build m0 item = None) as ->
      by (unfold PerCall.store_tag; by rewrite Hparse).
    assert (mapM (parse_tag build) (item :: items) = None) as ->
      by (cbn [mapM]; by rewrite Hparse).
    done.
Qed.

(** X6. With several annotations on one declaration each resolver plugin
    stores every pair, the last annotation of an argument deciding its
    table; keys of another argument keep what the map held.  If one of the
    annotations does not parse, nothing is stored: both throw. *)
Theorem resolver_last_annotation_wins build (name : string)
    (tags : SmartTag) :
  patchTags_of build name = Some tags →
  truthy (Some tags) = true → string_or_object tags = true →
  match mapM (parse_tag build) (tag_items tags) with
  | Some pairs =>
      let named :=
        (λ p, (argument (inflection build) p.1, p.2)) <$> pairs in
      (∃ m : gmap string (option PgClass),
         PerCall.patchArgAndTableMap build KInputObject name = Some m
         ∧ ∀ a, m !! a = assoc a (reverse named))
      ∧ ∀ pm0, ∃ pm,
          Precomputed.store_patch_tags build name pm0 = Some pm
          ∧ ∀ a, pm !! getKey name a
                 = match assoc a (reverse named) with
                   | Some table => Some table
                   | None => pm0 !! getKey name a
                   end
  | None =>
      PerCall.patchArgAndTableMap build KInputObject name = None
      ∧ ∀ pm0, Precomputed.store_patch_tags build name pm0 = None
  end.
Proof.
  intros Htags Htruthy Hobj.
  assert (patchTags_of build name ≠ Some TagTrue) as Hbare.
  { rewrite Htags. intros [= ->]. done. }
  assert (PerCall.patchArgAndTableMap build KInputObject name
          = reduce (PerCall.store_tag build) ∅ (tag_items tags)) as Hmap.
  { unfold PerCall.patchArgAndTableMap. cbn [isInputObjectType].
    by rewrite Htags, Htruthy. }
  pose proof (percall_store_lookup build (tag_items tags) ∅) as Hstore.
  destruct (mapM (parse_tag build) (tag_items tags)) as [pairs|].
  - destruct Hstore as (m & Hm & Hlookup). cbn zeta. split.
    + exists m. split; [by rewrite Hmap|].
      intros a. rewrite Hlookup, lookup_empty.
      by destruct (assoc a (reverse _)).
    + intros pm0. exists (kmap (getKey name) m ∪ pm0). split.
      * by rewrite store_patch_tags_percall, Hmap, Hm.
      * intros a. rewrite lookup_union.
        rewrite (lookup_kmap (M2:=gmap string) (getKey name) m a).
        rewrite Hlookup, lookup_empty.
        destruct (assoc a (reverse _)); simpl.
        -- by rewrite union_Some_l.
        -- by rewrite (left_id_L None _).
  - split; [by rewrite Hmap|].
    intros pm0. by rewrite store_patch_tags_percall, Hmap, Hstore.
Qed.

Lemma resolver_last_annotation_wins_witness :
  let build :=
    {| inflection := Example.example_inflection;
       pgIntrospectionResultsByKind :=
         {| procedure :=
              [ {| proc_name := "update_entity";
                   proc_tags_patch :=
                     Some (TagArray ["patch schema.ghost_table";
                                     "patch schema.entity_table"]) |} ];
            type := []; class := [Example.entity_table] |};
       getTypeByName := λ _, None;
       realm := Example.node_realm |} in
  patchTags_of build "UpdateEntityInput"
  = Some (TagArray ["patch schema.ghost_table"; "patch schema.entity_table"])
  ∧ ∃ m : gmap string (option PgClass),
      PerCall.patchArgAndTableMap build KInputObject "UpdateEntityInput"
      = Some m
      ∧ m !! "patch" = Some (Some Example.entity_table).
Proof.
  intros build. split; [reflexivity|].
  pose proof (resolver_last_annotation_wins build "UpdateEntityInput"
                (TagArray ["patch schema.ghost_table";
                           "patch schema.entity_table"])
                eq_refl eq_refl eq_refl) as H.
  change (mapM (parse_tag build)
            (tag_items (TagArray ["patch schema.ghost_table";
                                  "patch schema.entity_table"])))
    with (Some [("patch", @None PgClass);
                ("patch", Some Example.entity_table)]) in H.
  destruct H as [(m & Hm & Hlookup) _].
  exists m. split; [exact Hm|]. by rewrite Hlookup.
Defined.

(** ** The keys of [patchMap] *)

Lemma store_tags_keys build name items :
  ∀ (pm0 pm : gmap string (option PgClass)),
    reduce (Precomputed.store_tag build name) pm0 items = Some pm →
    (∀ key, is_Some (pm0 !! key) → is_Some (pm !! key))
    ∧ (∀ key, is_Some (pm !! key) →
              is_Some (pm0 !! key)
              ∨ ∃ item arg table,
                  item ∈ items ∧ parse_tag build item = Some (arg, table)
                  ∧ key = getKey name (argument (inflection build) arg))
    ∧ (∀ item, item ∈ items →
               ∃ arg table,
                 parse_tag build item = Some (arg, table)
                 ∧ is_Some (pm !! getKey name
                                   (argument (inflection build) arg))).
Proof.
  induction items as [|item items IH]; intros pm0 pm Hred.
  { injection Hred as <-. split_and!; [done|by left|].
    by intros item ?%elem_of_nil. }
  rewrite reduce_cons in Hred.
  apply bind_Some in Hred as (pm1 & Hstore & Hred).
  unfold Precomputed.store_tag in Hstore.
  destruct (parse_tag build item) as [[arg table]|] eqn:Hparse; [|done].
  simpl in Hstore. injection Hstore as <-.
  destruct (IH _ _ Hred) as (HA & HB & HC). split_and!.
  - intros key Hkey. apply HA. rewrite lookup_insert.
    case_decide; [done|]. done.
  - intros key Hkey. destruct (HB key Hkey) as [Hin|(it & a & t & ? & ? & ?)].
    + rewrite lookup_insert in Hin. case_decide as Heq; [|by left].
      right. exists item, arg, table. split_and!; [left|done|done].
    + right. exists it, a, t. split_and!; [by right|done|done].
  - intros it [->|Hin]%elem_of_cons; [|by apply HC].
    exists arg, table. split; [done|]. apply HA.
    rewrite lookup_insert_eq. done.
Qed.

Lemma annotation_key_mono build t1 t2 key :
  (∀ a, a ∈ obj_names t1 → a ∈ obj_names t2) →
  annotation_key build t1 key → annotation_key build t2 key.
Proof.
  intros Hsub (name & tags & item & arg & table & Hin & H).
  exists name, tags, item, arg, table. split; [by apply Hsub | done].
Qed.

Lemma populate_keys build type :
  ∀ (pm0 pm : gmap string (option PgClass)),
    Precomputed.populatePatchMap build type pm0 = Some pm →
    (∀ key, is_Some (pm0 !! key) → is_Some (pm !! key))
    ∧ (∀ key, is_Some (pm !! key) →
              is_Some (pm0 !! key) ∨ annotation_key build type key)
    ∧ (∀ key, annotation_key build type key → is_Some (pm !! key))
    ∧ (∀ name tags item,
         (KInputObject, name) ∈ obj_names type →
         patchTags_of build name = Some tags → usable_tags tags = true →
         item ∈ tag_items tags → is_Some (parse_tag build item)).
Proof.
  induction type as [ofType IH|ofType IH|kind name fields IH|name]
    using GqlType_induction; intros pm0 pm Hpop.
  - by apply IH.
  - by apply IH.
  - simpl in Hpop. apply bind_Some in Hpop as (stored & Hstore & Hfields).
    (* the block of the type itself *)
    assert ((∀ key, is_Some (pm0 !! key) → is_Some (stored !! key))
            ∧ (∀ key, is_Some (stored !! key) →
                 is_Some (pm0 !! key)
                 ∨ annotation_key build (GFields kind name []) key)
            ∧ (∀ key, annotation_key build (GFields kind name []) key →
                      is_Some (stored !! key))
            ∧ (∀ tags item,
                 kind = KInputObject →
                 patchTags_of build name = Some tags →
                 usable_tags tags = true →
                 item ∈ tag_items tags → is_Some (parse_tag build item)))
      as (HA1 & HB1 & HC1 & HD1).
    { destruct (decide (kind = KInputObject)) as [->|Hkind].
      - simpl in Hstore. unfold Precomputed.store_patch_tags in Hstore.
        destruct (patchTags_of build name) as [tags|] eqn:Htags.
        + fold (usable_tags tags) in Hstore.
          destruct (usable_tags tags) eqn:Husable.
          * destruct (store_tags_keys _ _ _ _ _ Hstore) as (HA & HB & HC).
            split_and!; [done| | |].
            -- intros key Hkey.
               destruct (HB key Hkey) as [?|(it & a & t & ? & ? & ?)];
                 [by left|right].
               exists name, tags, it, a, t. split_and!; [left|done..].
            -- intros key (n & tg & it & a & t & Hin & Htg & _ & Hit & Hp & ->).
               apply list_elem_of_singleton in Hin as [= <-].
               rewrite Htags in Htg. injection Htg as <-.
               destruct (HC it Hit) as (a' & t' & Hp' & Hsome).
               rewrite Hp in Hp'. by injection Hp' as <- <-.
            -- intros tg it _ [= <-] _ Hit.
               destruct (HC it Hit) as (a' & t' & -> & _). done.
          * injection Hstore as <-. split_and!; [done|by left| |].
            -- intros key (n & tg & it & a & t & Hin & Htg & Hu & _).
               apply list_elem_of_singleton in Hin as [= <-].
               rewrite Htags in Htg. injection Htg as <-. congruence.
            -- intros tg it _ [= <-] Hu. congruence.
        + injection Hstore as <-. split_and!; [done|by left| |].
          * intros key (n & tg & it & a & t & Hin & Htg & _).
            apply list_elem_of_singleton in Hin as [= <-]. congruence.
          * by intros tg it _ [=].
      - assert (stored = pm0) as ->
          by (destruct kind; [done|..]; simpl in Hstore; by injection Hstore).
        split_and!; [done|by left| |done].
        intros key (n & tg & it & a & t & Hin & _).
        apply list_elem_of_singleton in Hin as [= <- <-]. done. }
    (* then the fields *)
    assert ((∀ key, is_Some (stored !! key) → is_Some (pm !! key))
            ∧ (∀ key, is_Some (pm !! key) →
                 is_Some (stored !! key)
                 ∨ ∃ f, f ∈ fields ∧ annotation_key build f.2 key)
            ∧ (∀ f key, f ∈ fields → annotation_key build f.2 key →
                        is_Some (pm !! key))
            ∧ (∀ f n tags item,
                 f ∈ fields → (KInputObject, n) ∈ obj_names f.2 →
                 patchTags_of build n = Some tags → usable_tags tags = true →
                 item ∈ tag_items tags → is_Some (parse_tag build item)))
      as (HA2 & HB2 & HC2 & HD2).
    { clear Hstore HA1 HB1 HC1 HD1. revert stored Hfields.
      induction IH as [|[fn ft] fields IHft _ IHfields];
        intros stored Hfields.
      - injection Hfields as <-. split_and!; [done|by left|..].
        + by intros f key ?%elem_of_nil.
        + by intros f n tags item ?%elem_of_nil.
      - rewrite reduce_cons in Hfields.
        apply bind_Some in Hfields as (pm1 & Hft & Hrest). simpl in Hft.
        destruct (IHft _ _ Hft) as (HAf & HBf & HCf & HDf).
        destruct (IHfields _ Hrest) as (HAr & HBr & HCr & HDr).
        split_and!.
        + intros key Hkey. by apply HAr, HAf.
        + intros key Hkey.
          destruct (HBr key Hkey) as [Hin|(f & Hf & Hann)].
          * destruct (HBf key Hin) as [?|Hann]; [by left|right].
            exists (fn, ft). split; [left|done].
          * right. exists f. split; [by right|done].
        + intros f key [->|Hf]%elem_of_cons Hann.
          * by apply HAr, HCf.
          * by apply (HCr f).
        + intros f n tags item [->|Hf]%elem_of_cons; [apply HDf|by apply HDr]. }
    assert (∀ f, f ∈ fields →
                 ∀ a, a ∈ obj_names f.2 →
                      a ∈ obj_names (GFields kind name fields)) as Hsub.
    { intros f Hf a Ha. simpl. right.
      apply list_elem_of_In, in_flat_map. exists f.
      split; by apply list_elem_of_In. }
    split_and!.
    + intros key Hkey. by apply HA2, HA1.
    + intros key Hkey. destruct (HB2 key Hkey) as [Hin|(f & Hf & Hann)].
      * destruct (HB1 key Hin) as [?|Hann]; [by left|right].
        eapply annotation_key_mono; [|exact Hann].
        intros a ->%list_elem_of_singleton. left.
      * right. eapply annotation_key_mono; [|exact Hann]. by apply Hsub.
    + intros key (n & tg & it & a & t & Hin & Hrest).
      simpl in Hin. apply elem_of_cons in Hin as [[= <- <-]|Hin].
      * apply HA2, HC1. exists n, tg, it, a, t. split; [left|done].
      * apply list_elem_of_In, in_flat_map in Hin as (f & Hf & Hin).
        apply list_elem_of_In in Hf, Hin. apply (HC2 f); [done|].
        by exists n, tg, it, a, t.
    + intros n tags item Hin Htags Hu Hit.
      simpl in Hin. apply elem_of_cons in Hin as [[= <- <-]|Hin].
      * by apply (HD1 tags).
      * apply list_elem_of_In, in_flat_map in Hin as (f & Hf & Hin).
        apply list_elem_of_In in Hf, Hin. by apply (HD2 f n tags).
  - injection Hpop as <-. split_and!; [done|by left|..].
    + intros key (n & tg & it & a & t & Hin & _). by apply elem_of_nil in Hin.
    + intros n tags item Hin. by apply elem_of_nil in Hin.
Qed.

(** X7. [populatePatchMap] only ever adds keys, and the keys it adds are
    exactly the keys of the annotations of the graph: when it returns, a
    key is in the resulting map if and only if it was in the map passed in
    or it is [getKey] of an input object reachable from the type and of
    the inflected argument of one of the items of that object's usable tag.
    Objects that are not input objects, and tags that are [true] or an
    empty string, contribute no key. *)
Theorem patchMap_keys build type pm0 pm :
  Precomputed.populatePatchMap build type pm0 = Some pm →
  ∀ key, is_Some (pm !! key)
         ↔ is_Some (pm0 !! key) ∨ annotation_key build type key.
Proof.
  intros Hpop key. destruct (populate_keys _ _ _ _ Hpop) as (HA & HB & HC & _).
  split; [apply HB|]. intros [?|?]; [by apply HA|by apply HC].
Qed.

Lemma patchMap_keys_witness :
  Precomputed.populatePatchMap Example.example_build
    Example.UpdateFamilyInput ∅
  = Some {[ getKey "EntityChildInput" "childPatch"
            := Some Example.entity_table ]}
  ∧ ∀ key,
      is_Some (({[ getKey "EntityChildInput" "childPatch"
                   := Some Example.entity_table ]}
                : gmap string (option PgClass)) !! key)
      ↔ is_Some ((∅ : gmap string (option PgClass)) !! key)
        ∨ annotation_key Example.example_build Example.UpdateFamilyInput key.
Proof.
  assert (Precomputed.populatePatchMap Example.example_build
            Example.UpdateFamilyInput ∅
          = Some {[ getKey "EntityChildInput" "childPatch"
                    := Some Example.entity_table ]}) as Hpop
    by reflexivity.
  split; [exact Hpop|].
  exact (patchMap_keys Example.example_build Example.UpdateFamilyInput
           ∅ _ Hpop).
Defined.

(** X8. The filter of the precomputing plugin wraps the resolver of a
    procedure mutation exactly when some input object reachable from the
    type of its [input] argument carries a usable tag with at least one
    item (given that no annotation throws).  Otherwise the map is empty
    and the filter returns [null]. *)
Theorem wrapped_iff_annotated build scope field type pm :
  procedure_mutation scope = true →
  args_input field = Some type →
  Precomputed.populatePatchMap build type ∅ = Some pm →
  ((∃ name tags,
       (KInputObject, name) ∈ obj_names type
       ∧ patchTags_of build name = Some tags
       ∧ usable_tags tags = true ∧ tag_items tags ≠ []) →
   Precomputed.filter build scope field = Some (Some pm))
  ∧ (¬ (∃ name tags,
          (KInputObject, name) ∈ obj_names type
          ∧ patchTags_of build name = Some tags
          ∧ usable_tags tags = true ∧ tag_items tags ≠ []) →
     pm = ∅ ∧ Precomputed.filter build scope field = Some None).
Proof.
  intros Hscope Hinput Hpop.
  destruct (populate_keys _ _ _ _ Hpop) as (_ & HB & HC & HD).
  unfold Precomputed.filter. rewrite Hscope, Hinput, Hpop. simpl.
  split.
  - intros (name & tags & Hin & Htags & Hu & Hne).
    destruct (tag_items tags) as [|item items] eqn:Hitems; [done|].
    destruct (HD name tags item Hin Htags Hu) as [[arg table] Hparse].
    { rewrite Hitems. left. }
    assert (is_Some (pm !! getKey name (argument (inflection build) arg)))
      as [x Hx].
    { apply HC. exists name, tags, item, arg, table.
      split_and!; [done..| |done|done]. rewrite Hitems. left. }
    assert (size pm ≠ 0%nat) as Hsize.
    { intros Hz%map_size_empty_inv. subst pm. by rewrite lookup_empty in Hx. }
    destruct (size pm); [done|]. done.
  - intros Hnone.
    assert (pm = ∅) as ->.
    { apply map_empty. intros key. apply eq_None_not_Some. intros Hkey.
      destruct (HB key Hkey) as [Hin|Hann].
      - rewrite lookup_empty in Hin. by destruct Hin.
      - destruct Hann as (name & tags & item & arg & table
                          & Hin & Htags & Hu & Hit & _).
        apply Hnone. exists name, tags. split_and!; [done..|].
        intros Hnil. rewrite Hnil in Hit. by apply elem_of_nil in Hit. }
    by rewrite map_size_empty.
Qed.

Lemma wrapped_iff_annotated_witness :
  Precomputed.filter Example.example_build Example.mutation_scope
    Example.updateFamily
  = Some (Some {[ getKey "EntityChildInput" "childPatch"
                  := Some Example.entity_table ]}).
Proof.
  refine (proj1 (wrapped_iff_annotated Example.example_build
                   Example.mutation_scope Example.updateFamily
                   (GNonNull Example.UpdateFamilyInput) _
                   eq_refl eq_refl eq_refl) _).
  exists "EntityChildInput", (TagString "child_patch schema.entity_table").
  split_and!; [|reflexivity|reflexivity|discriminate].
  simpl. do 1 right. left.
Defined.

(** ** The schema hook and the resolver read the same annotations *)

(** X9. The schema hook and the per-call resolver agree on a mutation input
    whose procedure carries a usable tag: whenever the hook returns, the
    resolver's map is built without a throw, every argument the map holds
    is a field the hook typed with the patch type of the very table the
    map holds for it, and every argument the map does not hold has the
    field specification it had before the hook. *)
Theorem hook_and_resolver_agree build
    (inputFields out : list (string * FieldSpec)) (context : HookContext)
    (tags : SmartTag) :
  isMutationInput context = true →
  proc_patch_tags build (GraphQLInputObjectType_name context) = Some tags →
  usable_tags tags = true →
  ReplaceTypeWithPatchPlugin build inputFields context = Some out →
  ∃ m : gmap string (option PgClass),
    PerCall.patchArgAndTableMap build KInputObject
      (GraphQLInputObjectType_name context) = Some m
    ∧ (∀ arg table,
         m !! arg = Some table →
         ∃ tableTypeName,
           tableType (inflection build) table = Some tableTypeName
           ∧ assoc arg out
             = Some {| field_type :=
                         getTypeByName build
                           (patchType (inflection build) tableTypeName);
                       field_description := None |})
    ∧ (∀ arg, m !! arg = None → assoc arg out = assoc arg inputFields).
Proof.
  intros Hmut Hproc Husable Hhook.
  apply andb_true_iff in Husable as [Htruthy Hobj].
  assert (hook_patchTags build context = Some tags) as Hctx.
  { unfold hook_patchTags, js_or. by rewrite Hmut, Hproc, Htruthy. }
  assert (patchTags_of build (GraphQLInputObjectType_name context)
          = Some tags) as Htags.
  { unfold patchTags_of, js_or. by rewrite Hproc, Htruthy. }
  unfold ReplaceTypeWithPatchPlugin in Hhook.
  rewrite Hctx, Htruthy, Hobj in Hhook. simpl in Hhook.
  apply bind_Some in Hhook as (pairs & Hpairs & [= <-]).
  assert (∃ parsed,
            mapM (parse_tag build) (tag_items tags) = Some parsed
            ∧ Forall2 (λ p q,
                         p.1 = q.1
                         ∧ ∃ tableTypeName,
                             tableType (inflection build) p.2
                             = Some tableTypeName
                             ∧ q.2 = patchType (inflection build)
                                       tableTypeName)
                ((λ p, (argument (inflection build) p.1, p.2)) <$> parsed)
                pairs) as (parsed & Hparsed & Hrel).
  { clear Hctx Htags Htruthy Hobj Hproc.
    apply mapM_Some in Hpairs.
    induction Hpairs as [|item pair items pairs Hitem _ IH].
    - exists []. split; [done|constructor].
    - destruct IH as (parsed & Hparsed & Hrel).
      unfold patch_pair in Hitem.
      destruct (parse_tag build item) as [[arg table]|] eqn:Hparse; [|done].
      simpl in Hitem.
      destruct (tableType (inflection build) table) as [tn|] eqn:Htn;
        [|done].
      injection Hitem as <-.
      exists ((arg, table) :: parsed). split.
      + cbn [mapM]. rewrite Hparse. simpl. by rewrite Hparsed.
      + constructor; [|done]. simpl. split; [done|]. by exists tn. }
  assert (PerCall.patchArgAndTableMap build KInputObject
            (GraphQLInputObjectType_name context)
          = reduce (PerCall.store_tag build) ∅ (tag_items tags)) as Hmap.
  { unfold PerCall.patchArgAndTableMap. cbn [isInputObjectType].
    by rewrite Htags, Htruthy. }
  pose proof (percall_store_lookup build (tag_items tags) ∅) as Hstore.
  rewrite Hparsed in Hstore. destruct Hstore as (m & Hm & Hlookup).
  exists m. split; [by rewrite Hmap|].
  assert (∀ arg,
            option_Forall2
              (λ table patchTypeName,
                 ∃ tableTypeName,
                   tableType (inflection build) table = Some tableTypeName
                   ∧ patchTypeName
                     = patchType (inflection build) tableTypeName)
              (m !! arg) (assoc arg (reverse pairs))) as Hagree.
  { intros arg. rewrite Hlookup, lookup_empty.
    pose proof (assoc_Forall2
                  (λ table patchTypeName,
                     ∃ tableTypeName,
                       tableType (inflection build) table
                       = Some tableTypeName
                       ∧ patchTypeName
                         = patchType (inflection build) tableTypeName)
                  _ _ arg (Forall2_reverse _ _ _ Hrel)) as H.
    destruct H; constructor; done. }
  split.
  - intros arg table Harg. specialize (Hagree arg). rewrite Harg in Hagree.
    inversion Hagree as [? patchTypeName (tn & Htn & ->) Hx Hy|]; subst.
    exists tn. split; [done|].
    by rewrite hook_fields_lookup, <- Hy.
  - intros arg Harg. specialize (Hagree arg). rewrite Harg in Hagree.
    inversion Hagree as [|Hx Hy].
    by rewrite hook_fields_lookup, <- Hy.
Qed.

Lemma hook_and_resolver_agree_witness :
  ∃ m : gmap string (option PgClass),
    PerCall.patchArgAndTableMap Example.example_build KInputObject
      "UpdateEntityInput" = Some m
    ∧ (∀ arg table,
         m !! arg = Some table →
         ∃ tableTypeName,
           tableType (inflection Example.example_build) table
           = Some tableTypeName
           ∧ assoc arg
               [("id", {| field_type := Some (GLeaf "UUID");
                          field_description := None |});
                ("patch", {| field_type := Some Example.EntityTablePatch;
                             field_description := None |})]
             = Some {| field_type :=
                         getTypeByName Example.example_build
                           (patchType (inflection Example.example_build)
                              tableTypeName);
                       field_description := None |})
    ∧ (∀ arg,
         m !! arg = None →
         assoc arg
           [("id", {| field_type := Some (GLeaf "UUID");
                      field_description := None |});
            ("patch", {| field_type := Some Example.EntityTablePatch;
                         field_description := None |})]
         = assoc arg
             [("id", {| field_type := Some (GLeaf "UUID");
                        field_description := None |});
              ("patch", {| field_type := Some (GLeaf "JSON");
                           field_description := None |})]).
Proof.
  exact (hook_and_resolver_agree Example.example_build
           [("id", {| field_type := Some (GLeaf "UUID");
                      field_description := None |});
            ("patch", {| field_type := Some (GLeaf "JSON");
                         field_description := None |})]
           _
           {| isMutationInput := true;
              pgIntrospection_type_tags_patch := None;
              GraphQLInputObjectType_name := "UpdateEntityInput" |}
           (TagString "patch schema.entity_table")
           eq_refl eq_refl eq_refl eq_refl).
Defined.

(** ** The object built for a matched field *)

Lemma add_columns_returns build val attrs :
  (∃ present, js_in (realm build) "" val = Some present) →
  ∀ obj, is_Some (reduce (add_column build val) obj attrs).
Proof.
  intros Hval. induction attrs as [|attr attrs IH]; intros obj; [done|].
  rewrite reduce_cons.
  assert (is_Some (add_column build val obj attr)) as [acc ->].
  { unfold add_column. destruct Hval as [p Hp]. by destruct val. }
  simpl. apply IH.
Qed.

(** X10. The object of column names is built without a throw exactly when
    the annotation resolved to a table and, unless the table has no
    attribute at all, the submitted value is an object or an array: a
    [null], a number, a boolean or a string under a matched field throw at
    the first [fieldName in val]. *)
Theorem newJson_throws_iff build (table : option PgClass) (val : JsValue) :
  newJson build table val = None
  ↔ match table with
    | None => True
    | Some T =>
        attributes T ≠ []
        ∧ match val with JObj _ | JArr _ => False | _ => True end
    end.
Proof.
  destruct table as [T|]; [|done]. unfold newJson. simpl.
  rewrite fmap_None. split.
  - intros Hnone. destruct (attributes T) as [|attr attrs] eqn:Hattrs;
      [done|]. split; [done|].
    destruct val as [| | | | |items|props]; try done.
    + destruct (add_columns_returns build (JArr items) (attr :: attrs)
                  (ltac:(by eexists)) []) as [out Hout]. congruence.
    + destruct (add_columns_returns build (JObj props) (attr :: attrs)
                  (ltac:(by eexists)) []) as [out Hout]. congruence.
  - intros [Hattrs Hval].
    destruct (attributes T) as [|attr attrs]; [done|].
    rewrite reduce_cons.
    assert (add_column build val [] attr = None) as ->
      by (unfold add_column; by destruct val).
    done.
Qed.

Lemma add_columns_append build v attrs :
  ∀ obj,
    NoDup (attr_name <$> attrs) →
    (∀ attr, attr ∈ attrs → attr_name attr ∉ obj.*1) →
    reduce (add_column build (JObj v)) obj attrs
    = Some (obj
            ++ ((λ attr,
                   (attr_name attr,
                    default JUndefined
                      (assoc (column (inflection build) attr)
                             (properties (realm build) v))))
                  <$> filter (λ attr,
                                has_key (column (inflection build) attr)
                                        (properties (realm build) v))
                             attrs)).
Proof.
  induction attrs as [|attr attrs IH]; intros obj Hnd Hfresh.
  { simpl. by rewrite app_nil_r. }
  rewrite reduce_cons, add_column_object. simpl.
  rewrite fmap_cons in Hnd. apply NoDup_cons in Hnd as [Hattr Hnd].
  destruct (has_key (column (inflection build) attr)
                    (properties (realm build) v)) eqn:E.
  - rewrite filter_cons_True by (by rewrite E).
    rewrite obj_set_fresh by (apply Hfresh; left).
    rewrite IH; [by rewrite fmap_cons, <- app_assoc|done|].
    intros a Ha. rewrite fmap_app, elem_of_app. intros [Hin|Hin].
    + by apply (Hfresh a); [right|].
    + apply list_elem_of_singleton in Hin. apply Hattr.
      simpl in Hin. rewrite <- Hin. by apply list_elem_of_fmap_2.
  - rewrite filter_cons_False by (rewrite E; intros []).
    apply IH; [done|]. intros a Ha. apply Hfresh. by right.
Qed.

(** X11. The object built for a matched field lists its columns in the
    order of the table's attributes, whatever the order of the keys of the
    submitted object: it is the list of the attributes whose inflected name
    is a property of the submitted object, its own or one inherited from
    [Object.prototype], each as the pair of its raw name and the value the
    object has under the inflected name.  (Column names are distinct and,
    for the order, do not start with a digit: JavaScript lists integer-like
    keys first.) *)
Theorem newJson_in_attribute_order build (T : PgClass)
    (v : list (string * JsValue)) :
  NoDup (attr_name <$> attributes T) →
  Forall (λ attr, digit_led (attr_name attr) = false) (attributes T) →
  newJson build (Some T) (JObj v)
  = Some (JObj ((λ attr,
                   (attr_name attr,
                    default JUndefined
                      (assoc (column (inflection build) attr)
                             (properties (realm build) v))))
                  <$> filter (λ attr,
                                has_key (column (inflection build) attr)
                                        (properties (realm build) v))
                             (attributes T))).
Proof.
  intros Hnd _. unfold newJson. simpl.
  rewrite add_columns_append; [done|done|].
  intros attr _. apply not_elem_of_nil.
Qed.

(** The columns of [part_table] against a patch that names [firstColumn]
    last: [first_column] comes first, and [constructor], which the patch
    does not name, is found on the prototype. *)
Lemma newJson_in_attribute_order_witness :
  newJson Example.example_build (Some Example.part_table)
    (JObj [("other", JNull); ("firstColumn", JNum 1)])
  = Some (JObj [("first_column", JNum 1); ("constructor", builtin)]).
Proof.
  refine (newJson_in_attribute_order Example.example_build
            Example.part_table
            [("other", JNull); ("firstColumn", JNum 1)] _ _).
  - simpl. apply NoDup_cons. split; [|apply NoDup_singleton].
    rewrite list_elem_of_singleton. discriminate.
  - by repeat constructor.
Defined.

(** ** The shape of a rewritten object *)

(** X12. Whenever the rewrite of an object under an object type returns, it
    leaves an object with the same keys in the same order, and every
    submitted entry is accounted for at its key: an entry matched by an
    annotation holds the object of column names built from its value, and
    any other entry is a declared field of the type and holds the rewrite
    of its value under the field's type.  A returning rewrite therefore
    never drops, adds or moves a key, and never meets a key that is neither
    matched nor declared.  The per-call plugin behaves so, and the
    precomputing plugin does on a store in which no object of the value
    occurs twice, the rewrite of a value being its run in place on that
    value alone. *)
Theorem rewrite_keeps_keys build (pm : gmap string (option PgClass))
    kind name fields (props : list (string * JsValue)) :
  NoDup props.*1 →
  (∀ h l h',
     InPlace.unshared h (InPlace.VRef l) (JObj props) →
     InPlace.transform build pm (GFields kind name fields) (InPlace.VRef l) h
     = Some h' →
     ∃ props' cell,
       InPlace.unfolds h' (InPlace.VRef l) (JObj props')
       ∧ props'.*1 = props.*1
       ∧ h !! l = Some (InPlace.CObj cell)
       ∧ ∀ k x,
           (k, x) ∈ props →
           match pm !! getKey name k with
           | Some table =>
               ∃ json, newJson build table x = Some json
                       ∧ (k, json) ∈ props'
           | None =>
               ∃ ft x' val hk,
                 assoc k fields = Some ft
                 ∧ assoc k cell = Some val
                 ∧ InPlace.transform build pm ft val h = Some hk
                 ∧ InPlace.unfolds hk val x'
                 ∧ (k, x') ∈ props'
           end)
  ∧ (∀ r,
       PerCall.transform build (GFields kind name fields) (JObj props)
       = Some r →
       ∃ (m : gmap string (option PgClass)) props',
         PerCall.patchArgAndTableMap build kind name = Some m
         ∧ r = JObj props' ∧ props'.*1 = props.*1
         ∧ ∀ k x,
             (k, x) ∈ props →
             match m !! k with
             | Some table =>
                 ∃ json, newJson build table x = Some json
                         ∧ (k, json) ∈ props'
             | None =>
                 ∃ ft x', assoc k fields = Some ft
                          ∧ PerCall.transform build ft x = Some x'
                          ∧ (k, x') ∈ props'
             end).
Proof.
  intros Hnd. split.
  - intros h l h' Hun Hh'.
    destruct (in_place_returned build pm _ h _ _ h' Hun Hh')
      as (r & Hr & Hunf).
    rewrite precomputed_object in Hr by done.
    apply fmap_Some in Hr as (props' & Hmap & ->).
    apply mapM_entries_Some in Hmap as [Hkeys Hall].
    assert (∃ cell, h !! l = Some (InPlace.CObj cell)) as [cell Hcell].
    { unfold InPlace.unshared in Hun.
      destruct (InPlace.cover h (JObj props) (InPlace.VRef l)) as [ls|] eqn:E;
        [|done].
      apply cover_object in E as (cell & ls0 & Hcell & _). by exists cell. }
    exists props', cell. split_and!; [done..|].
    intros k x Hin. destruct (Hall k x Hin) as (y & Hy & Hin').
    simpl in Hy. destruct (pm !! getKey name k) as [table|].
    + by exists y.
    + rewrite with_field_assoc in Hy.
      destruct (assoc k fields) as [ft|]; [|done].
      destruct (unshared_entry h l props k x Hun Hin)
        as (cell' & val & Hcell' & Hval & Hunx).
      assert (cell' = cell) as -> by congruence.
      pose proof (in_place_unshared_value build pm ft h val x Hunx) as H.
      rewrite Hy in H. destruct H as (hk & Hhk & Hunfk).
      by exists ft, y, val, hk.
  - intros r Hr.
    destruct (PerCall.patchArgAndTableMap build kind name) as [m|] eqn:Hm.
    + rewrite (percall_object build m) in Hr by done.
      apply fmap_Some in Hr as (props' & Hmap & ->).
      apply mapM_entries_Some in Hmap as [Hkeys Hall].
      exists m, props'. split_and!; [done..|].
      intros k x Hin. destruct (Hall k x Hin) as (y & Hy & Hin').
      simpl in Hy. destruct (m !! k) as [table|].
      * by exists y.
      * rewrite with_field_assoc in Hy.
        destruct (assoc k fields) as [ft|]; [|done]. by exists ft, y.
    + simpl in Hr. by rewrite Hm in Hr.
Qed.

Lemma rewrite_keeps_keys_witness :
  InPlace.unshared Example.entity_store (InPlace.VRef 1) Example.submitted
  ∧ ∃ h' props',
      InPlace.transform Example.example_build
        {[ "UpdateEntityInput|patch" := Some Example.entity_table ]}
        Example.UpdateEntityInput (InPlace.VRef 1) Example.entity_store
      = Some h'
      ∧ InPlace.unfolds h' (InPlace.VRef 1) (JObj props')
      ∧ props'.*1 = ["id"; "patch"].
Proof.
  assert (NoDup ["id"; "patch"]) as Hnd.
  { apply NoDup_cons. split; [|apply NoDup_singleton].
    rewrite list_elem_of_singleton. discriminate. }
  assert (InPlace.unshared Example.entity_store (InPlace.VRef 1)
            Example.submitted) as Hun.
  { vm_compute. repeat (constructor; [set_solver|]). constructor. }
  split; [exact Hun|].
  destruct (rewrite_keeps_keys Example.example_build
              {[ "UpdateEntityInput|patch" := Some Example.entity_table ]}
              KInputObject "UpdateEntityInput"
              [("clientMutationId", GLeaf "String"); ("id", GLeaf "UUID");
               ("patch", Example.EntityTablePatch)]
              [("id", JStr "u1");
               ("patch", JObj [("firstColumn", JNum 1);
                               ("secondColumn", JNum 2)])]
              Hnd) as [Hpre _].
  eexists.
  destruct (Hpre Example.entity_store 1%nat _ Hun eq_refl)
    as (props' & cell & Hunf & Hkeys & _).
  exists props'. split_and!; [reflexivity|exact Hunf|exact Hkeys].
Defined.

(** ** When the annotations make the plugins throw *)

Lemma split_nonempty c s : split c s ≠ [].
Proof.
  destruct s as [|a s]; simpl; [done|].
  destruct (Ascii.eqb a c); [done|]. by destruct (split c s).
Qed.

Lemma split_two c s :
  char_free c s = false → ∃ a b rest, split c s = a :: b :: rest.
Proof.
  induction s as [|x s IH]; simpl; [done|].
  destruct (Ascii.eqb x c); simpl.
  - intros _. pose proof (split_nonempty c s).
    destruct (split c s) as [|b rest]; [done|]. by eexists _, _, _.
  - intros Hs. destruct (IH Hs) as (a & b & rest & ->). by eexists _, _, _.
Qed.

Lemma parse_tag_None build item :
  parse_tag build item = None
  ↔ match item with
    | ItemTrue => True
    | ItemString s => char_free " " s = true
    end.
Proof.
  destruct item as [|s]; [done|]. split.
  - intros Hnone. destruct (char_free " " s) eqn:E; [done|].
    destruct (split_two " " s E) as (a & b & rest & Hsplit).
    simpl in Hnone. rewrite Hsplit in Hnone.
    pose proof (split_nonempty "." b).
    by destruct (split "." b).
  - apply parse_tag_no_space.
Qed.

Lemma store_tags_None build name items :
  ∀ pm : gmap string (option PgClass),
    reduce (Precomputed.store_tag build name) pm items = None →
    ∃ item, item ∈ items ∧ parse_tag build item = None.
Proof.
  induction items as [|item items IH]; intros pm; [done|].
  rewrite reduce_cons. unfold Precomputed.store_tag at 2.
  destruct (parse_tag build item) as [[arg table]|] eqn:Hparse.
  - simpl. intros (it & Hin & Hit)%IH. exists it. split; [by right|done].
  - intros _. exists item. split; [left|done].
Qed.

(** On a finite tree of types, building the map throws exactly when some
    input object of the tree carries a usable tag one of whose items has no
    space in it. *)
Lemma populate_None_iff build type
    (pm0 : gmap string (option PgClass)) :
  Precomputed.populatePatchMap build type pm0 = None
  ↔ ∃ name tags s,
      (KInputObject, name) ∈ obj_names type
      ∧ patchTags_of build name = Some tags
      ∧ usable_tags tags = true
      ∧ ItemString s ∈ tag_items tags
      ∧ char_free " " s = true.
Proof.
  split.
  - revert pm0.
    induction type as [ofType IH|ofType IH|kind name fields IH|name]
      using GqlType_induction; intros pm0 Hpop.
    + by apply IH in Hpop.
    + by apply IH in Hpop.
    + simpl in Hpop. apply bind_None in Hpop as [Hstore|(pm & _ & Hfields)].
      * destruct kind; [|done..]. simpl in Hstore.
        unfold Precomputed.store_patch_tags in Hstore.
        destruct (patchTags_of build name) as [tags|] eqn:Htags; [|done].
        fold (usable_tags tags) in Hstore.
        destruct (usable_tags tags) eqn:Husable; [|done].
        apply store_tags_None in Hstore as (item & Hin & Hitem).
        apply parse_tag_None in Hitem.
        destruct item as [|s].
        { destruct tags as [|s|l]; [done|..].
          - by apply list_elem_of_singleton in Hin.
          - simpl in Hin. by apply list_elem_of_fmap in Hin as (? & ? & _). }
        exists name, tags, s. split_and!; [left|done..].
      * assert (∃ f, f ∈ fields
                     ∧ ∃ pm', Precomputed.populatePatchMap build f.2 pm'
                              = None) as (f & Hf & pm' & Hnone).
        { clear IH. revert pm Hfields.
          induction fields as [|f fields IHf]; intros pm Hfields; [done|].
          rewrite reduce_cons in Hfields.
          apply bind_None in Hfields as [Hf|(pm1 & _ & Hrest)].
          - exists f. split; [left|by exists pm].
          - destruct (IHf _ Hrest) as (f' & Hf' & Hex).
            exists f'. split; [by right|done]. }
        rewrite Forall_forall in IH.
        destruct (IH f Hf pm' Hnone) as (n & tags & s & Hin & Hrest).
        exists n, tags, s. split; [|done]. simpl. right.
        apply list_elem_of_In, in_flat_map. exists f.
        split; by apply list_elem_of_In.
    + done.
  - intros (name & tags & s & Hin & Htags & Husable & Hitem & Hs).
    apply andb_true_iff in Husable as [Htruthy Hobj].
    apply (populate_None build type pm0 name Hin).
    intros pm.
    apply (store_patch_tags_unparsed build name tags (ItemString s));
      [done..|]. by apply parse_tag_no_space.
Qed.

(** X13. [populatePatchMap] follows the fields of the types without a
    record of the types it has visited.  On a type graph that unfolds to a
    finite tree within the depth of the call stack, it throws exactly when
    some input object reachable from the type carries a usable tag one of
    whose items has no space in it (so that [tableId] is [undefined]);
    nothing else in the annotations makes it throw: a table that is not
    found, a missing dot, or superfluous words do not. *)
Theorem populate_throws_iff build schema depth t type
    (pm0 : gmap string (option PgClass)) :
  unfold_type schema depth t = Some type →
  Precomputed.populate_in build schema depth t pm0 = None
  ↔ ∃ name tags s,
      (KInputObject, name) ∈ obj_names type
      ∧ patchTags_of build name = Some tags
      ∧ usable_tags tags = true
      ∧ ItemString s ∈ tag_items tags
      ∧ char_free " " s = true.
Proof.
  intros Htype. rewrite populate_in_unfold, Htype. simpl.
  apply populate_None_iff.
Qed.

Lemma populate_throws_iff_witness :
  unfold_type Example.example_schema 3 (RNonNull (RNamed "UpdateGhostInput"))
  = Some (GNonNull Example.UpdateGhostInput)
  ∧ (Precomputed.populate_in Example.example_build Example.example_schema 3
       (RNonNull (RNamed "UpdateGhostInput")) ∅ = None
     ↔ ∃ name tags s,
         (KInputObject, name) ∈ obj_names (GNonNull Example.UpdateGhostInput)
         ∧ patchTags_of Example.example_build name = Some tags
         ∧ usable_tags tags = true
         ∧ ItemString s ∈ tag_items tags
         ∧ char_free " " s = true).
Proof.
  split; [reflexivity|].
  apply (populate_throws_iff Example.example_build Example.example_schema 3
           (RNonNull (RNamed "UpdateGhostInput"))
           (GNonNull Example.UpdateGhostInput) ∅).
  reflexivity.
Defined.

Lemma usable_items tags item :
  usable_tags tags = true → item ∈ tag_items tags → ∃ s, item = ItemString s.
Proof.
  intros [_ Hobj]%andb_true_iff Hin. destruct tags as [|s|l]; [done|..].
  - exists s. by apply list_elem_of_singleton in Hin.
  - simpl in Hin. apply list_elem_of_fmap in Hin as (s & -> & _).
    by exists s.
Qed.

(** X14. The per-call resolver throws while it builds the map of a visited
    type exactly when the type is an input object whose tag is truthy and
    either is a bare [@patch] ([true] has no [split]) or has an item with
    no space in it.  The bare tag is what it does not share with the
    precomputing plugin, which skips such a tag. *)
Theorem percall_map_throws_iff build kind name :
  PerCall.patchArgAndTableMap build kind name = None
  ↔ kind = KInputObject
    ∧ ∃ tags,
        patchTags_of build name = Some tags
        ∧ truthy (Some tags) = true
        ∧ (tags = TagTrue
           ∨ ∃ s, ItemString s ∈ tag_items tags ∧ char_free " " s = true).
Proof.
  unfold PerCall.patchArgAndTableMap.
  destruct kind; cbn [isInputObjectType]; [|by split; [|intros [? _]]..].
  cbv zeta.
  destruct (patchTags_of build name) as [tags|] eqn:Htags;
    [|split; [done|by intros (_ & ? & ? & _)]].
  destruct (truthy (Some tags)) eqn:Htruthy;
    [|split; [done|intros (_ & ? & [= <-] & ? & _); congruence]].
  pose proof (percall_store_lookup build (tag_items tags) ∅) as Hstore.
  destruct (mapM (parse_tag build) (tag_items tags)) as [pairs|] eqn:Hpairs.
  - destruct Hstore as (m & -> & _). split; [done|].
    intros (_ & tags' & [= <-] & _ & Hbad). exfalso.
    apply mapM_Some in Hpairs.
    assert (∃ item, item ∈ tag_items tags ∧ parse_tag build item = None)
      as (item & Hin & Hnone).
    { destruct Hbad as [->|(s & Hin & Hs)].
      - exists ItemTrue. split; [left|done].
      - exists (ItemString s). split; [done|by apply parse_tag_no_space]. }
    apply list_elem_of_lookup in Hin as [i Hi].
    destruct (Forall2_lookup_l _ _ _ _ _ Hpairs Hi) as (p & _ & Hp).
    congruence.
  - split; [intros _|done]. split; [done|]. exists tags.
    split_and!; [done..|].
    apply mapM_None in Hpairs. apply Exists_exists in Hpairs
      as (item & Hin & Hnone).
    apply parse_tag_None in Hnone. destruct item as [|s].
    + left. destruct tags as [|s|l]; [done|..].
      * by apply list_elem_of_singleton in Hin.
      * simpl in Hin. by apply list_elem_of_fmap in Hin as (? & ? & _).
    + right. by exists s.
Qed.

(** X15. The schema hook throws exactly when the tag it reads is usable and
    has an item that either has no space in it, or parses to a table on
    which [inflection.tableType] throws (what the inflector does with the
    [undefined] of a table that was not found is decided there). *)
Theorem hook_throws_iff build (inputFields : list (string * FieldSpec))
    (context : HookContext) :
  ReplaceTypeWithPatchPlugin build inputFields context = None
  ↔ ∃ tags s,
      hook_patchTags build context = Some tags
      ∧ usable_tags tags = true
      ∧ ItemString s ∈ tag_items tags
      ∧ (char_free " " s = true
         ∨ ∃ arg table,
             parse_tag build (ItemString s) = Some (arg, table)
             ∧ tableType (inflection build) table = None).
Proof.
  unfold ReplaceTypeWithPatchPlugin.
  destruct (hook_patchTags build context) as [tags|];
    [|split; [done|by intros (? & ? & ? & _)]].
  fold (usable_tags tags).
  destruct (usable_tags tags) eqn:Husable;
    [|split; [done|intros (? & ? & [= <-] & ? & _); congruence]].
  rewrite bind_None. split.
  - intros [Hnone|(pairs & _ & ?)]; [|done].
    apply mapM_None, Exists_exists in Hnone
      as (item & Hin & Hnone).
    destruct (usable_items tags item Husable Hin) as [s ->].
    exists tags, s. split_and!; [done..|].
    unfold patch_pair in Hnone.
    destruct (parse_tag build (ItemString s)) as [[arg table]|] eqn:Hparse.
    + right. exists arg, table. split; [done|]. simpl in Hnone.
      by destruct (tableType (inflection build) table).
    + left. by apply (parse_tag_None build (ItemString s)).
  - intros (tags' & s & [= <-] & _ & Hin & Hbad). left.
    apply mapM_None, Exists_exists. exists (ItemString s).
    split; [done|].
    unfold patch_pair. destruct Hbad as [Hs|(arg & table & -> & Htn)].
    + by rewrite parse_tag_no_space.
    + simpl. by rewrite Htn.
Qed.

(** ** A [null] where an object is declared *)

(** X16. Neither plugin guards the walk against [null]: where the type is
    an object type and the value is [null] or [undefined],
    [Object.entries] throws.  So a submitted object that holds [null] (or
    an explicit [undefined]) under a field that no annotation matches and
    whose declared type is an object type makes the whole rewrite throw,
    in the precomputing plugin (once the field is wrapped) as in the
    per-call one. *)
Theorem null_under_object_type_throws build
    (pm : gmap string (option PgClass)) kind name fields
    (props : list (string * JsValue)) k v kind' name' fields' :
  NoDup props.*1 →
  (k, v) ∈ props →
  v = JNull ∨ v = JUndefined →
  assoc k fields = Some (GFields kind' name' fields') →
  (pm !! getKey name k = None →
   Precomputed.transform build pm (GFields kind name fields) (JObj props)
   = None)
  ∧ ((∀ m, PerCall.patchArgAndTableMap build kind name = Some m →
           m !! k = None) →
     PerCall.transform build (GFields kind name fields) (JObj props) = None).
Proof.
  intros Hnd Hin Hv Hfield. split.
  - intros Hpm. rewrite precomputed_object by done.
    apply fmap_None, mapM_None, Exists_exists. exists (k, v).
    split; [done|]. simpl. rewrite Hpm, with_field_assoc, Hfield.
    by destruct Hv as [-> | ->].
  - intros Hm.
    destruct (PerCall.patchArgAndTableMap build kind name) as [m|] eqn:E.
    + rewrite (percall_object build m) by done.
      apply fmap_None, mapM_None, Exists_exists. exists (k, v).
      split; [done|]. simpl. rewrite (Hm m eq_refl), with_field_assoc, Hfield.
      simpl. destruct (PerCall.patchArgAndTableMap build kind' name');
        by destruct Hv as [-> | ->].
    + simpl. by rewrite E.
Qed.

Lemma null_under_object_type_throws_witness :
  Precomputed.transform Example.example_build
    {[ "Other|patch" := Some Example.entity_table ]}
    Example.RenameEntityInput
    (JObj [("id", JStr "u1"); ("name", JNull)]) = None
  ∧ PerCall.transform Example.example_build Example.RenameEntityInput
      (JObj [("id", JStr "u1"); ("name", JNull)]) = None.
Proof.
  assert (NoDup ["id"; "name"]) as Hnd.
  { apply NoDup_cons. split; [|apply NoDup_singleton].
    rewrite list_elem_of_singleton. discriminate. }
  destruct (null_under_object_type_throws Example.example_build
              {[ "Other|patch" := Some Example.entity_table ]}
              KInputObject "RenameEntityInput"
              [("clientMutationId", GLeaf "String"); ("id", GLeaf "UUID");
               ("name", Example.NameInput)]
              [("id", JStr "u1"); ("name", JNull)]
              "name" JNull KInputObject "NameInput"
              [("first", GLeaf "String")]
              Hnd) as [Hpre Hper];
    [right; left | by left | reflexivity |].
  split.
  - apply Hpre. reflexivity.
  - apply Hper. intros m [= <-]. reflexivity.
Defined.

(** ** The keys of the precomputed map *)

(** X17. [getKey] separates the pairs of a type name and an argument name
    as long as type names hold no ["|"] (GraphQL names never do): two keys
    are equal only for the same type and the same argument, whatever the
    argument names hold.  Without that, keys collide: the key of type
    [a|b] and argument [c] is the key of type [a] and argument [b|c]. *)
Theorem getKey_separates :
  (∀ type1 type2 arg1 arg2,
     pipe_free type1 = true → pipe_free type2 = true →
     (getKey type1 arg1 = getKey type2 arg2 ↔ type1 = type2 ∧ arg1 = arg2))
  ∧ ∀ a b c, getKey (getKey a b) c = getKey a (getKey b c).
Proof.
  split.
  - intros type1 type2 arg1 arg2 H1 H2. split.
    + by apply getKey_inj.
    + by intros [-> ->].
  - intros a b c. unfold getKey. by rewrite !append_assoc.
Qed.

Lemma getKey_separates_witness :
  getKey "UpdateEntityInput" "patch" = getKey "EntityChildInput" "patch"
  ↔ "UpdateEntityInput" = "EntityChildInput" ∧ "patch" = "patch".
Proof.
  exact (proj1 getKey_separates "UpdateEntityInput" "EntityChildInput"
           "patch" "patch" eq_refl eq_refl).
Defined.

(** ** The rewrite in place and the rewrite of the tree *)

(** X18. The precomputing plugin rewrites the arguments in place.  On a
    store in which no object or array of the submitted value occurs twice,
    what it leaves is what [Precomputed.transform] computes on the value
    tree: the run in place returns exactly when the function on trees
    does, and the value then unfolds, in the store the run leaves, to the
    tree the function returns.  The same holds for the wrapped resolver
    and the arguments it passes on. *)
Theorem in_place_unshared build :
  (∀ pm type h v t,
     InPlace.unshared h v t →
     match Precomputed.transform build pm type t with
     | Some t' =>
         ∃ h', InPlace.transform build pm type v h = Some h'
               ∧ InPlace.unfolds h' v t'
     | None => InPlace.transform build pm type v h = None
     end)
  ∧ (∀ scope field h a args,
       InPlace.unshared h (InPlace.VRef a) (JObj args) →
       match Precomputed.ResolvePatchFieldsPlugin build scope field args with
       | Some out =>
           ∃ h',
             InPlace.ResolvePatchFieldsPlugin build scope field
                                              (InPlace.VRef a) h
             = Some h'
             ∧ InPlace.unfolds h' (InPlace.VRef a) (JObj out)
       | None =>
           InPlace.ResolvePatchFieldsPlugin build scope field
                                            (InPlace.VRef a) h = None
       end).
Proof.
  split.
  - intros pm type h v t. apply in_place_unshared_value.
  - intros scope field h a args. apply in_place_unshared_args.
Qed.

(** The call of [updateFamily] with two children: the store that the run
    in place leaves shows the arguments the function on trees returns. *)
Lemma in_place_unshared_witness :
  InPlace.unshared Example.family_store (InPlace.VRef 0)
    (JObj [("input",
            JObj [("id", JStr "u1");
                  ("children",
                   JArr [Example.first_child; Example.second_child])])])
  ∧ ∃ h',
      InPlace.ResolvePatchFieldsPlugin Example.example_build
        Example.mutation_scope Example.updateFamily (InPlace.VRef 0)
        Example.family_store = Some h'
      ∧ InPlace.unfolds h' (InPlace.VRef 0)
          (JObj [("input",
                  JObj [("id", JStr "u1");
                        ("children",
                         JArr [JObj [("childId", JStr "c1");
                                     ("childPatch",
                                      JObj [("first_column", JNum 1)])];
                               JObj [("childId", JStr "c2");
                                     ("childPatch",
                                      JObj [("second_column",
                                             JNum 2)])]])])]).
Proof.
  assert (InPlace.unshared Example.family_store (InPlace.VRef 0)
            (JObj [("input",
                    JObj [("id", JStr "u1");
                          ("children",
                           JArr [Example.first_child;
                                 Example.second_child])])])) as Hun.
  { vm_compute. repeat (constructor; [set_solver|]). constructor. }
  split; [exact Hun|].
  apply (proj2 (in_place_unshared Example.example_build)
           Example.mutation_scope Example.updateFamily Example.family_store
           0%nat _ Hun).
Defined.

(** ** Type graphs with a cycle *)

(** X19. [populatePatchMap] keeps no record of the types it has visited: on
    a type graph in which the type of the input reaches a type that refers
    back to itself, directly or through other types, it never returns,
    whatever the depth of the call stack; the filter throws while the
    schema is built. *)
Theorem populate_overflows_on_cycle build schema t a :
  rtc (refers schema) (named_of t) a →
  tc (refers schema) a a →
  ∀ depth (pm : gmap string (option PgClass)),
    Precomputed.populate_in build schema depth t pm = None.
Proof. apply populate_in_reaches_cycle. Qed.

Lemma populate_overflows_on_cycle_witness :
  refers Example.example_schema "UpdateTreeInput" "TreeInput"
  ∧ refers Example.example_schema "TreeInput" "TreeInput"
  ∧ ∀ depth,
      Precomputed.populate_in Example.example_build Example.example_schema
        depth (RNonNull (RNamed "UpdateTreeInput")) ∅ = None.
Proof.
  assert (refers Example.example_schema "UpdateTreeInput" "TreeInput")
    as Hreach by (right; left).
  assert (refers Example.example_schema "TreeInput" "TreeInput")
    as Hcycle by (right; left).
  split_and!; [exact Hreach|exact Hcycle|].
  intros depth.
  apply (populate_overflows_on_cycle Example.example_build
           Example.example_schema (RNonNull (RNamed "UpdateTreeInput"))
           "TreeInput").
  - by apply rtc_once.
  - by apply tc_once.
Defined.

(** X20. Within the depth of the call stack, the walk of [populatePatchMap]
    over the type objects of a schema is its walk over the tree the types
    unfold to: it returns the same map, or throws as that walk does; a
    deeper stack unfolds the same tree. *)
Theorem populate_on_graph build schema depth t type :
  unfold_type schema depth t = Some type →
  (∀ pm : gmap string (option PgClass),
     Precomputed.populate_in build schema depth t pm
     = Precomputed.populatePatchMap build type pm)
  ∧ ∀ depth', (depth ≤ depth')%nat →
              unfold_type schema depth' t = Some type.
Proof.
  intros Htype. split.
  - intros pm. by rewrite populate_in_unfold, Htype.
  - intros depth' Hle. by apply (unfold_type_mono schema depth).
Qed.

Lemma populate_on_graph_witness :
  unfold_type Example.example_schema 3 (RNonNull (RNamed "UpdateGhostInput"))
  = Some (GNonNull Example.UpdateGhostInput)
  ∧ Precomputed.populate_in Example.example_build Example.example_schema 3
      (RNonNull (RNamed "UpdateGhostInput")) ∅
    = Some {[ "UpdateGhostInput|patch" := None ]}.
Proof.
  split; [reflexivity|].
  rewrite (proj1 (populate_on_graph Example.example_build
                    Example.example_schema 3
                    (RNonNull (RNamed "UpdateGhostInput"))
                    (GNonNull Example.UpdateGhostInput) eq_refl)).
  reflexivity.
Defined.

(** ** What the rewrite in place leaves alone *)

(** X21. The rewrite in place writes to the objects of the value it is
    given and adds new objects to the store, nothing else: when it returns
    on a value in which no object occurs twice, the store has only grown,
    and every object that is not part of the value is as it was. *)
Theorem in_place_frame build pm type h v t ls h' :
  InPlace.cover h t v = Some ls → NoDup ls →
  InPlace.transform build pm type v h = Some h' →
  (length h ≤ length h')%nat
  ∧ ∀ l, (l < length h)%nat → l ∉ ls → h' !! l = h !! l.
Proof.
  intros Hcov Hnd Hh'.
  pose proof (in_place_transform build pm type t v h ls Hcov Hnd) as H.
  destruct (Precomputed.transform build pm type t) as [t'|]; [|congruence].
  destruct H as (h'' & Hh'' & Hlen & Hframe & _).
  assert (h'' = h') as -> by congruence. done.
Qed.

(** The input of [updateFamily] is at the addresses 1 to 6 of the store:
    the rewrite leaves the arguments object at address 0 as it was. *)
Lemma in_place_frame_witness :
  ∃ h',
    InPlace.transform Example.example_build
      {[ "EntityChildInput|childPatch" := Some Example.entity_table ]}
      (GNonNull Example.UpdateFamilyInput) (InPlace.VRef 1)
      Example.family_store = Some h'
    ∧ (length Example.family_store ≤ length h')%nat
    ∧ h' !! 0%nat = Some (InPlace.CObj [("input", InPlace.VRef 1)]).
Proof.
  assert (∃ h',
            InPlace.transform Example.example_build
              {[ "EntityChildInput|childPatch" := Some Example.entity_table ]}
              (GNonNull Example.UpdateFamilyInput) (InPlace.VRef 1)
              Example.family_store = Some h') as [h' Hh']
    by (by eexists).
  exists h'. split; [exact Hh'|].
  destruct (in_place_frame Example.example_build
              {[ "EntityChildInput|childPatch" := Some Example.entity_table ]}
              (GNonNull Example.UpdateFamilyInput) Example.family_store
              (InPlace.VRef 1)
              (JObj [("id", JStr "u1");
                     ("children",
                      JArr [Example.first_child; Example.second_child])])
              [1; 2; 3; 4; 5; 6]%nat h' eq_refl) as [Hlen Hframe];
    [|exact Hh'|].
  - repeat (constructor; [set_solver|]). constructor.
  - split; [exact Hlen|].
    rewrite Hframe; [reflexivity|simpl; lia|set_solver].
Defined.

(** X22. The precomputing plugin calls [resolve] with the [args] object it
    received: on arguments in which no object occurs twice, the object
    keeps its keys in their order, and every argument beside [input] has
    the value it had. *)
Theorem in_place_keeps_siblings build scope field h a args h' :
  InPlace.unshared h (InPlace.VRef a) (JObj args) →
  InPlace.ResolvePatchFieldsPlugin build scope field (InPlace.VRef a) h
  = Some h' →
  ∃ out,
    InPlace.unfolds h' (InPlace.VRef a) (JObj out)
    ∧ out.*1 = args.*1
    ∧ ∀ k, k ≠ "input" → assoc k out = assoc k args.
Proof.
  intros Hun Hh'.
  pose proof (in_place_unshared_args build scope field h a args Hun) as H.
  destruct (Precomputed.ResolvePatchFieldsPlugin build scope field args)
    as [out|] eqn:Hout; [|congruence].
  destruct H as (h'' & Hh'' & Hunf).
  assert (h'' = h') as -> by congruence.
  exists out. split; [done|].
  by apply (precomputed_keeps_siblings build scope field).
Qed.

Lemma in_place_keeps_siblings_witness :
  let store :=
    [InPlace.CObj [("input", InPlace.VRef 1); ("dryRun", InPlace.VBool true)];
     InPlace.CObj [("id", InPlace.VStr "u1"); ("patch", InPlace.VRef 2)];
     InPlace.CObj [("firstColumn", InPlace.VNum 1);
                   ("secondColumn", InPlace.VNum 2)]] in
  InPlace.unshared store (InPlace.VRef 0)
    (JObj [("input", Example.submitted); ("dryRun", JBool true)])
  ∧ ∃ h' out,
      InPlace.ResolvePatchFieldsPlugin Example.example_build
        Example.mutation_scope Example.updateEntity (InPlace.VRef 0) store
      = Some h'
      ∧ InPlace.unfolds h' (InPlace.VRef 0) (JObj out)
      ∧ out.*1 = ["input"; "dryRun"]
      ∧ assoc "dryRun" out = Some (JBool true).
Proof.
  intros store.
  assert (InPlace.unshared store (InPlace.VRef 0)
            (JObj [("input", Example.submitted); ("dryRun", JBool true)]))
    as Hun.
  { vm_compute. repeat (constructor; [set_solver|]). constructor. }
  split; [exact Hun|].
  assert (∃ h',
            InPlace.ResolvePatchFieldsPlugin Example.example_build
              Example.mutation_scope Example.updateEntity (InPlace.VRef 0)
              store = Some h') as [h' Hh']
    by (by eexists).
  exists h'.
  destruct (in_place_keeps_siblings Example.example_build
              Example.mutation_scope Example.updateEntity store 0%nat
              [("input", Example.submitted); ("dryRun", JBool true)] h'
              Hun Hh') as (out & Hunf & Hkeys & Hsib).
  exists out. split_and!; [exact Hh'|exact Hunf|exact Hkeys|].
  by rewrite Hsib.
Defined.
